(** * locateimage: brute-force search of a sample image inside a canvas

    A shallow embedding of the Go package [locateimage] (the scanner
    [foreachRGBA], the helper [abs], and the public operations [Foreach],
    [All] and [Find]) together with the properties of the package's
    specification that were checked against it.

    Modelling conventions.
    - Go's [int] and [int64] are 64-bit two's complement integers.  They are
      values of [Z]; every arithmetic operation of the source is followed by
      [Int64.wrap], which brings the mathematical result back into
      [-2^63, 2^63).  The counters [x] and [y] of the two outer loops, which
      stay below an [int] bound, are incremented without it.
    - [float64] values (the tolerance and the similarity) are rationals of
      [Q]: the arithmetic of the source is taken to be exact, and a
      conversion to [int64] is taken to be in range (as it is for every
      tolerance in [0, 1]).  The only division of
      the source has [maxTotalDiff] as divisor; statements that depend on
      that quotient assume the divisor is not zero.  A similarity is kept
      in lowest terms ([Qred]) so that equal scores are equal terms.  The
      concrete inputs below use tolerances that are 0 or a power of two, on
      which the [float64] arithmetic of the source is exact as well.
    - A slice of bytes is a [list byte]; an index outside the slice makes the
      Go program panic, which the scanner reports as the outcome [Panics].
    - The two loops over the sample have a step that is a field of the
      image ([Stride]); they are granted as many iterations as their bound
      exceeds their start, and report [Hangs] beyond that.  On images laid
      out as the [image] package lays them out neither [Panics] nor [Hangs]
      occurs ([compareAt_decided]).
    - The callback [f func(m Match) error] is a closure over mutable
      variables; it is a state transformer [Match -> S -> option error * S].
    - [ctx.Err()] is polled once at the start of every canvas row; a context
      is the sequence of the answers of the successive polls. *)

From Stdlib Require Import ZArith QArith Qabs Qround List Bool Lia Lqa.
From Stdlib.Strings Require Import Byte.
From Stdlib Require Import Permutation Sorted.
Import ListNotations.

Local Open Scope Z_scope.

(** ** 64-bit integers *)

Module Int64.

Definition modulus : Z := 2 ^ 64.
Definition half : Z := 2 ^ 63.

(** Two's complement reduction into [-2^63, 2^63). *)
Definition wrap (n : Z) : Z := (n + half) mod modulus - half.

Definition add (a b : Z) : Z := wrap (a + b).
Definition sub (a b : Z) : Z := wrap (a - b).
Definition mul (a b : Z) : Z := wrap (a * b).

(** [n >> k] on a signed value is the arithmetic shift. *)
Definition shr (n k : Z) : Z := Z.shiftr n k.
Definition xor (a b : Z) : Z := Z.lxor a b.

Definition in_range (n : Z) : Prop := - half <= n < half.

End Int64.

Declare Scope int64_scope.
Delimit Scope int64_scope with i64.
Arguments Int64.add (a b)%_i64.
Arguments Int64.sub (a b)%_i64.
Arguments Int64.mul (a b)%_i64.
Infix "+" := Int64.add : int64_scope.
Infix "-" := Int64.sub : int64_scope.
Infix "*" := Int64.mul : int64_scope.

(** mathutil.go: [abs] computes an absolute value without branching. *)
Definition abs (n : Z) : Z :=
  let y := Int64.shr n 63 in
  (Int64.xor n y - y)%i64.

(** ** The part of Go's [image] package that the scanner uses *)

Module image.

Record Point : Set := mkPoint { X : Z; Y : Z }.

Record Rectangle : Set := mkRectangle { Min : Point; Max : Point }.

(** [func (p Point) Add(q Point) Point] *)
Definition Add (p q : Point) : Point :=
  mkPoint (X p + X q)%i64 (Y p + Y q)%i64.

(** [func (r Rectangle) Dx() int] and [Dy] *)
Definition Dx (r : Rectangle) : Z := (X (Max r) - X (Min r))%i64.
Definition Dy (r : Rectangle) : Z := (Y (Max r) - Y (Min r))%i64.

(** [func (r Rectangle) In(s Rectangle) bool], for a non-empty [r]. *)
Definition In (r s : Rectangle) : Prop :=
  X (Min s) <= X (Min r) /\ X (Max r) <= X (Max s) /\
  Y (Min s) <= Y (Min r) /\ Y (Max r) <= Y (Max s).

(** [image.RGBA]: four bytes per pixel, R, G, B, A. *)
Record RGBA : Set := mkRGBA {
  Pix : list byte;
  Stride : Z;
  Rect : Rectangle
}.

(** [image.Image] is an interface; the package only tells [*image.RGBA]
    apart from every other implementation. *)
Inductive Image : Set :=
| RGBAImage (p : RGBA)
| OtherImage.

End image.

(** ** Errors, matches and selection modes (locateimage.go) *)

Inductive error : Set :=
| ErrBreak
| ErrUnsupportedImageType
| ErrNotFound
| ErrMultipleFound
| Canceled
| DeadlineExceeded
| CustomError (code : nat).

Definition error_eqb (a b : error) : bool :=
  match a, b with
  | ErrBreak, ErrBreak => true
  | ErrUnsupportedImageType, ErrUnsupportedImageType => true
  | ErrNotFound, ErrNotFound => true
  | ErrMultipleFound, ErrMultipleFound => true
  | Canceled, Canceled => true
  | DeadlineExceeded, DeadlineExceeded => true
  | CustomError m, CustomError n => Nat.eqb m n
  | _, _ => false
  end.

Record Match : Set := mkMatch {
  Rect : image.Rectangle;
  Similarity : Q
}.

(** The zero value of [Match] ([var best Match]). *)
Definition zeroMatch : Match :=
  mkMatch (image.mkRectangle (image.mkPoint 0 0) (image.mkPoint 0 0)) 0%Q.

(** [SimilarityPrecision float64 = 0.000001] *)
Definition SimilarityPrecision : Q := (1 # 1000000)%Q.

(** [func (a Match) Before(b Match) bool] *)
Definition Before (a b : Match) : bool :=
  if Qle_bool SimilarityPrecision (Qabs (Similarity a - Similarity b))
  then negb (Qle_bool (Similarity a) (Similarity b))
  else if negb (image.Y (image.Min (Rect a)) =? image.Y (image.Min (Rect b)))
  then image.Y (image.Min (Rect a)) <? image.Y (image.Min (Rect b))
  else if negb (image.X (image.Min (Rect a)) =? image.X (image.Min (Rect b)))
  then image.X (image.Min (Rect a)) <? image.X (image.Min (Rect b))
  else false.

(** [type Selection int] with [Fastest], [Best], [Only] numbered by iota. *)
Definition Selection : Set := Z.
Definition Fastest : Selection := 0.
Definition Best : Selection := 1.
Definition Only : Selection := 2.

(** A context, seen through [ctx.Err()]: the answer of the [k]-th poll. *)
Definition Context : Set := nat -> option error.

(** How a call ends: it returns an [error] value ([None] is [nil]), it
    panics on an index out of range, or it does not come back within the
    number of iterations the model grants to the sample loops. *)
Inductive outcome : Set :=
| Returns (err : option error)
| Panics
| Hangs.

(** ** Conversions between the numeric types *)

(** [int64(x)] for a [float64] [x]: the fraction is dropped (truncation
    towards zero).  Go leaves the result to the implementation when [x] is
    outside the range of [int64]; both thresholds are in range for every
    tolerance in [0, 1], and the properties that depend on the value of a
    threshold are stated for such tolerances. *)
Definition int64_of_float (x : Q) : Z :=
  if Qle_bool 0 x then Qfloor x else Qceiling x.

(** [float64(n)] for an [int64] [n]. *)
Definition float_of_int64 (n : Z) : Q := inject_Z n.

(** [a > b] on [float64]. *)
Definition Qgt_bool (a b : Q) : bool := negb (Qle_bool a b).

(** [int64(pix[i])], or [None] when the index is out of range (a panic). *)
Definition index (pix : list byte) (i : Z) : option Z :=
  if (0 <=? i) && (i <? Z.of_nat (length pix))
  then option_map (fun b => Z.of_N (Byte.to_N b)) (nth_error pix (Z.to_nat i))
  else None.

(** ** The scanner (foreachRGBA) *)

Definition pixSize : Z := 4.

(** [wcanv] and [hcanv] after [wcanv -= wsamp - 1] and [hcanv -= hsamp - 1]:
    the number of window origins in a row, and the number of rows of them. *)
Definition scanWidth (canvas sample : image.RGBA) : Z :=
  (image.Dx (image.Rect canvas) - (image.Dx (image.Rect sample) - 1))%i64.

Definition scanHeight (canvas sample : image.RGBA) : Z :=
  (image.Dy (image.Rect canvas) - (image.Dy (image.Rect sample) - 1))%i64.

(** [pixelDiffThreshold := int64(3*256*pixelTolerance + 0.5)] with
    [pixelTolerance := 2 * tolerance]. *)
Definition pixelDiffThreshold (tolerance : Q) : Z :=
  let pixelTolerance := (2 * tolerance)%Q in
  int64_of_float (3 * 256 * pixelTolerance + (1 # 2))%Q.

(** [maxTotalDiff := int64(wcanv) * int64(hcanv) * 3 * 255], computed after
    [wcanv] and [hcanv] were decremented. *)
Definition maxTotalDiff (canvas sample : image.RGBA) : Z :=
  (scanWidth canvas sample * scanHeight canvas sample * 3 * 255)%i64.

(** [totalDiffThreshold := int64(tolerance*float64(maxTotalDiff) + 0.5)] *)
Definition totalDiffThreshold (canvas sample : image.RGBA) (tolerance : Q) : Z :=
  int64_of_float
    (tolerance * float_of_int64 (maxTotalDiff canvas sample) + (1 # 2))%Q.

(** [1 - float64(diff)/float64(maxTotalDiff)] *)
Definition similarityOf (diff maxTotalDiff : Z) : Q :=
  Qred (1 - float_of_int64 diff / float_of_int64 maxTotalDiff)%Q.

(** How the body of [matchLoop] leaves a loop: the loop condition became
    false with the running [diff]; [break matchLoop] with [matched = false];
    an index out of range; or the iterations granted to the loop ran out. *)
Inductive flow : Set :=
| LoopDone (diff : Z)
| BreakMatchLoop
| IndexPanic
| NoFuel.

Section Window.

Variables pixCanv pixSamp : list byte.
Variables strideCanv strideSamp wsamp : Z.
Variables pixelDiffThreshold totalDiffThreshold : Z.

(** [delta := d0 + d1 + d2] for the pixels at [icanv] and [isamp]. *)
Definition pixelDelta (icanv isamp : Z) : option Z :=
  match index pixCanv (icanv + 0)%i64, index pixSamp (isamp + 0)%i64,
        index pixCanv (icanv + 1)%i64, index pixSamp (isamp + 1)%i64,
        index pixCanv (icanv + 2)%i64, index pixSamp (isamp + 2)%i64 with
  | Some c0, Some s0, Some c1, Some s1, Some c2, Some s2 =>
      let d0 := abs (c0 - s0)%i64 in
      let d1 := abs (c1 - s1)%i64 in
      let d2 := abs (c2 - s2)%i64 in
      Some (d0 + d1 + d2)%i64
  | _, _, _, _, _, _ => None
  end.

(** [for isamp < isampmax { ... icanv += pixSize; isamp += pixSize }] *)
Fixpoint pixelLoop (fuel : nat) (icanv isamp isampmax diff : Z) : flow :=
  if isamp <? isampmax then
    match fuel with
    | O => NoFuel
    | S fuel' =>
        match pixelDelta icanv isamp with
        | None => IndexPanic
        | Some delta =>
            if delta >? pixelDiffThreshold then BreakMatchLoop
            else
              let diff := (diff + delta)%i64 in
              if diff >? totalDiffThreshold then BreakMatchLoop
              else pixelLoop fuel' (icanv + pixSize)%i64 (isamp + pixSize)%i64
                     isampmax diff
        end
    end
  else LoopDone diff.

(** [for rowsamp := 0; rowsamp < rowsampmax; rowsamp += strideSamp { ...
    rowcanv += strideCanv }] *)
Fixpoint sampleRowLoop (fuel : nat) (rowsamp rowsampmax rowcanv diff : Z) : flow :=
  if rowsamp <? rowsampmax then
    match fuel with
    | O => NoFuel
    | S fuel' =>
        let icanv := rowcanv in
        let isamp := rowsamp in
        let isampmax := (rowsamp + pixSize * wsamp)%i64 in
        match pixelLoop (Z.to_nat (isampmax - isamp)) icanv isamp isampmax diff with
        | LoopDone diff' =>
            sampleRowLoop fuel' (rowsamp + strideSamp)%i64 rowsampmax
              (rowcanv + strideCanv)%i64 diff'
        | stop => stop
        end
    end
  else LoopDone diff.

(** The whole [matchLoop] for the window whose first byte is at [rowcanv]:
    [LoopDone diff] stands for [matched = true].  Each loop is granted as
    many iterations as its bound exceeds its start, which is enough as long
    as its positive step does not overflow. *)
Definition matchLoop (rowsampmax rowcanv : Z) : flow :=
  sampleRowLoop (Z.to_nat rowsampmax) 0 rowsampmax rowcanv 0.

End Window.

Section Scanner.

Context {S : Type}.
Variable ctx : Context.
Variables canvas sample : image.RGBA.
Variable tolerance : Q.
Variable f : Match -> S -> option error * S.

(** The [Match] built for the window at origin [(x, y)]. *)
Definition matchAt (x y diff : Z) : Match :=
  let wsamp := image.Dx (image.Rect sample) in
  let hsamp := image.Dy (image.Rect sample) in
  let pt := image.Add (image.Min (image.Rect canvas)) (image.mkPoint x y) in
  mkMatch
    (image.mkRectangle pt (image.Add pt (image.mkPoint wsamp hsamp)))
    (similarityOf diff (maxTotalDiff canvas sample)).

(** The comparison of the sample with the window at origin [(x, y)]. *)
Definition compareAt (x y : Z) : flow :=
  let strideCanv := image.Stride canvas in
  let strideSamp := image.Stride sample in
  let wsamp := image.Dx (image.Rect sample) in
  let hsamp := image.Dy (image.Rect sample) in
  let firstrowcanv := (y * strideCanv)%i64 in
  let rowcanv := (firstrowcanv + x * pixSize)%i64 in
  let rowsampmax := (strideSamp * hsamp)%i64 in
  matchLoop (image.Pix canvas) (image.Pix sample) strideCanv strideSamp wsamp
    (pixelDiffThreshold tolerance) (totalDiffThreshold canvas sample tolerance)
    rowsampmax rowcanv.

(** [for x := 0; x < wcanv; x++]: [n] origins are left in the row, the next
    one is [x].  [Returns None] means that the loop ran to its end. *)
Fixpoint columnLoop (n : nat) (x y : Z) (s : S) : outcome * S :=
  match n with
  | O => (Returns None, s)
  | Datatypes.S n' =>
      match compareAt x y with
      | IndexPanic => (Panics, s)
      | NoFuel => (Hangs, s)
      | BreakMatchLoop => columnLoop n' (x + 1) y s
      | LoopDone diff =>
          match f (matchAt x y diff) s with
          | (Some err, s') => (Returns (Some err), s')
          | (None, s') => columnLoop n' (x + 1) y s'
          end
      end
  end.

(** [for y := 0; y < hcanv; y++]: [n] rows are left, the next one is [y]. *)
Fixpoint rowLoop (n : nat) (y : Z) (s : S) : outcome * S :=
  match n with
  | O => (Returns None, s)
  | Datatypes.S n' =>
      match ctx (Z.to_nat y) with
      | Some err => (Returns (Some err), s)
      | None =>
          match columnLoop (Z.to_nat (scanWidth canvas sample)) 0 y s with
          | (Returns None, s') => rowLoop n' (y + 1) s'
          | stop => stop
          end
      end
  end.

Definition foreachRGBA (s : S) : outcome * S :=
  let wcanv := image.Dx (image.Rect canvas) in
  let hcanv := image.Dy (image.Rect canvas) in
  let wsamp := image.Dx (image.Rect sample) in
  let hsamp := image.Dy (image.Rect sample) in
  if (wcanv <? wsamp) || (hcanv <? hsamp) || (wsamp =? 0) || (hsamp =? 0)
  then (Returns None, s)
  else rowLoop (Z.to_nat (scanHeight canvas sample)) 0 s.

End Scanner.

(** ** The public operations (locateimage.go) *)

(** [Sort] hands the slice to Go's [sort.Sort] with [Less(i, j)] being
    [mm[i].Before(mm[j])].  The library routine is represented by an
    insertion sort on that comparison; only the fact that the result is a
    rearrangement of the argument is used below. *)
Fixpoint insertMatch (m : Match) (mm : list Match) : list Match :=
  match mm with
  | [] => [m]
  | m' :: rest => if Before m' m then m' :: insertMatch m rest else m :: mm
  end.

Definition Sort (mm : list Match) : list Match :=
  fold_right insertMatch [] mm.

Definition Foreach {S : Type} (ctx : Context) (canvas sample : image.Image)
    (tolerance : Q) (f : Match -> S -> option error * S) (s : S) : outcome * S :=
  match sample with
  | image.RGBAImage s' =>
      match canvas with
      | image.RGBAImage c => foreachRGBA ctx c s' tolerance f s
      | image.OtherImage => (Returns (Some ErrUnsupportedImageType), s)
      end
  | image.OtherImage => (Returns (Some ErrUnsupportedImageType), s)
  end.

(** The callback of [All]: [mm = append(mm, m); return nil]. *)
Definition collect (m : Match) (mm : list Match) : option error * list Match :=
  (None, mm ++ [m]).

(** [All] returns the sorted slice and the error of [Foreach]. *)
Definition All (ctx : Context) (canvas sample : image.Image) (tolerance : Q)
    : outcome * list Match :=
  match Foreach ctx canvas sample tolerance collect [] with
  | (Returns err, mm) => (Returns err, Sort mm)
  | stop => stop
  end.

(** The callback of [Find]; its state is the pair of [best] and [count]. *)
Definition keepBest (selection : Selection) (m : Match) (st : Match * Z)
    : option error * (Match * Z) :=
  let '(best, count) := st in
  let best :=
    if (count =? 0) || Qgt_bool (Similarity m) (Similarity best)
    then m else best in
  let count := (count + 1)%i64 in
  if selection =? Fastest then (Some ErrBreak, (best, count))
  else (None, (best, count)).

(** [Find] returns [best] and an error. *)
Definition Find (ctx : Context) (canvas sample : image.Image) (tolerance : Q)
    (selection : Selection) : outcome * Match :=
  match Foreach ctx canvas sample tolerance (keepBest selection) (zeroMatch, 0) with
  | (Returns err, (best, count)) =>
      let err :=
        match err with
        | Some e => if error_eqb e ErrBreak then None else Some e
        | None => None
        end in
      let err :=
        match err with
        | None =>
            if count =? 0 then Some ErrNotFound
            else if (selection =? Only) && (count >? 1) then Some ErrMultipleFound
            else None
        | Some e => Some e
        end in
      (Returns err, best)
  | (stop, (best, _)) => (stop, best)
  end.

(** ** The rest of the package *)

(** [type matches []Match] implements [sort.Interface]; an index outside
    the slice is a panic ([None]). *)
Definition matches_Len (mm : list Match) : Z := Z.of_nat (length mm).

(** [mm[i]] *)
Definition matches_at (mm : list Match) (i : Z) : option Match :=
  if (0 <=? i) && (i <? Z.of_nat (length mm))
  then nth_error mm (Z.to_nat i)
  else None.

(** [mm[i] = m] on an index inside the slice. *)
Fixpoint matches_set (mm : list Match) (i : nat) (m : Match) : list Match :=
  match mm, i with
  | [], _ => []
  | _ :: rest, O => m :: rest
  | m' :: rest, S i' => m' :: matches_set rest i' m
  end.

(** [func (mm matches) Swap(i, j int) { mm[i], mm[j] = mm[j], mm[i] }]: the
    two values are read first, then [mm[i]] and [mm[j]] are assigned in
    that order. *)
Definition matches_Swap (mm : list Match) (i j : Z) : option (list Match) :=
  match matches_at mm j, matches_at mm i with
  | Some mj, Some mi =>
      Some (matches_set (matches_set mm (Z.to_nat i) mj) (Z.to_nat j) mi)
  | _, _ => None
  end.

(** [func (mm matches) Less(i, j int) bool { return mm[i].Before(mm[j]) }] *)
Definition matches_Less (mm : list Match) (i j : Z) : option bool :=
  match matches_at mm i, matches_at mm j with
  | Some mi, Some mj => Some (Before mi mj)
  | _, _ => None
  end.

Section Conversion.

(** [image.NewRGBA(b)] followed by [draw.Draw(rgba, b, src, b.Min, draw.Src)]
    for an image that is not an [*image.RGBA]: the work of Go's [image] and
    [image/draw] packages, which yields some [*image.RGBA]. *)
Variable redraw : image.Image -> image.RGBA.

(** convert.go: [convertToRGBA] returns an [*image.RGBA] as it is. *)
Definition convertToRGBA (src : image.Image) : image.RGBA :=
  match src with
  | image.RGBAImage rgba => rgba
  | image.OtherImage => redraw src
  end.

(** convert.go: [Convert] *)
Definition Convert (src : image.Image) : image.Image :=
  image.RGBAImage (convertToRGBA src).

End Conversion.

(** ** The specification's reading of the thresholds

    Section 3 and section 4.1 of the specification derive the window
    threshold and the similarity from the area of the sample. *)

Definition spec_maxTotalDiff (sample : image.RGBA) : Z :=
  image.Dx (image.Rect sample) * image.Dy (image.Rect sample) * 3 * 255.

Definition spec_windowThreshold (sample : image.RGBA) (tolerance : Q) : Z :=
  Qfloor (tolerance * inject_Z (spec_maxTotalDiff sample) + (1 # 2))%Q.

Definition spec_similarity (sample : image.RGBA) (diff : Z) : Q :=
  Qred (1 - inject_Z diff / inject_Z (spec_maxTotalDiff sample))%Q.

(** ** Recording the calls of the callback *)

(** [record f] behaves as [f] and also appends every call, with the value
    it returned, to a log kept next to the state of [f]. *)
Definition record {S : Type} (f : Match -> S -> option error * S)
    (m : Match) (st : list (Match * option error) * S)
    : option error * (list (Match * option error) * S) :=
  let '(e, s') := f m (snd st) in
  (e, (fst st ++ [(m, e)], s')).

(** The calls made to the callback [f] by a scan started in state [s]. *)
Definition calls {S : Type} (ctx : Context) (canvas sample : image.RGBA)
    (tolerance : Q) (f : Match -> S -> option error * S) (s : S)
    : list (Match * option error) :=
  fst (snd (foreachRGBA ctx canvas sample tolerance (record f) ([], s))).

(** A callback that never stops the scan and keeps no state. *)
Definition keepGoing (m : Match) (u : unit) : option error * unit := (None, u).

(** The matches a scan emits when nothing stops it from outside. *)
Definition emitted (ctx : Context) (canvas sample : image.RGBA) (tolerance : Q)
    : list Match :=
  map fst (calls ctx canvas sample tolerance keepGoing tt).

(** ** Small images used as concrete inputs *)

Definition background : Context := fun _ => None.
Definition cancelled : Context := fun _ => Some Canceled.

Definition black : list byte := [x00; x00; x00; xff]%byte.
Definition white : list byte := [xff; xff; xff; xff]%byte.
Definition nearBlack : list byte := [x01; x00; x00; xff]%byte.

(** An image of the given width and height, as [image.NewRGBA] lays it out. *)
Definition newRGBA (w h : Z) (pix : list byte) : image.RGBA :=
  image.mkRGBA pix (4 * w)
    (image.mkRectangle (image.mkPoint 0 0) (image.mkPoint w h)).

Definition onePixel (p : list byte) : image.RGBA := newRGBA 1 1 p.
Definition twoPixels (p q : list byte) : image.RGBA := newRGBA 2 1 (p ++ q).
Definition fourPixels (p q r t : list byte) : image.RGBA :=
  newRGBA 2 2 (p ++ q ++ r ++ t).

(** A canvas of two pixels whose rectangle does not start at (0, 0), as
    [SubImage] returns it. *)
Definition subImage (p q : list byte) : image.RGBA :=
  image.mkRGBA (p ++ q) 8
    (image.mkRectangle (image.mkPoint 10 20) (image.mkPoint 12 21)).

(** * Vocabulary of the properties *)

(** ** The scan as a walk over its events

    The two outer loops of [foreachRGBA] do one thing per row (a poll of the
    context) and one thing per window origin (a comparison, maybe followed
    by a call of the callback).  Listing these events in the order of the
    loops turns the scan into a walk over a list; [foreachRGBA_walk] below
    shows that the loops and the walk are the same function. *)

Inductive event : Set :=
| Poll (k : nat)
| Window (x y : Z).

(** The events of [n] origins of row [y], from [x] on. *)
Fixpoint columnEvents (n : nat) (x y : Z) : list event :=
  match n with
  | O => []
  | S n' => Window x y :: columnEvents n' (x + 1) y
  end.

(** The events of [n] rows of [width] origins, from row [y] on. *)
Fixpoint rowEvents (width n : nat) (y : Z) : list event :=
  match n with
  | O => []
  | S n' =>
      Poll (Z.to_nat y) :: columnEvents width 0 y ++ rowEvents width n' (y + 1)
  end.

(** The window origins among the events. *)
Fixpoint windows (evs : list event) : list (Z * Z) :=
  match evs with
  | [] => []
  | Poll _ :: rest => windows rest
  | Window x y :: rest => (x, y) :: windows rest
  end.

(** Row-major order of window origins [(x, y)]: by [y], then by [x]. *)
Definition rowMajor (p q : Z * Z) : Prop :=
  snd p < snd q \/ (snd p = snd q /\ fst p < fst q).

(** The size guard at the top of [foreachRGBA], negated. *)
Definition fits (canvas sample : image.RGBA) : bool :=
  let wcanv := image.Dx (image.Rect canvas) in
  let hcanv := image.Dy (image.Rect canvas) in
  let wsamp := image.Dx (image.Rect sample) in
  let hsamp := image.Dy (image.Rect sample) in
  negb ((wcanv <? wsamp) || (hcanv <? hsamp) || (wsamp =? 0) || (hsamp =? 0)).

(** The events of a scan of [canvas] for [sample]. *)
Definition scanEvents (canvas sample : image.RGBA) : list event :=
  if fits canvas sample
  then rowEvents (Z.to_nat (scanWidth canvas sample))
         (Z.to_nat (scanHeight canvas sample)) 0
  else [].

(** A walk over events, with the body of the two outer loops: [cmp] stands
    for the comparison of a window and [mk] for the construction of its
    [Match]. *)
Fixpoint walk {S : Type} (ctx : Context) (cmp : Z -> Z -> flow)
    (mk : Z -> Z -> Z -> Match) (f : Match -> S -> option error * S)
    (evs : list event) (s : S) : outcome * S :=
  match evs with
  | [] => (Returns None, s)
  | Poll k :: rest =>
      match ctx k with
      | Some err => (Returns (Some err), s)
      | None => walk ctx cmp mk f rest s
      end
  | Window x y :: rest =>
      match cmp x y with
      | IndexPanic => (Panics, s)
      | NoFuel => (Hangs, s)
      | BreakMatchLoop => walk ctx cmp mk f rest s
      | LoopDone diff =>
          match f (mk x y diff) s with
          | (Some err, s') => (Returns (Some err), s')
          | (None, s') => walk ctx cmp mk f rest s'
          end
      end
  end.

(** One call of the callback: the origin and the [diff] of the window that
    was accepted, and what the callback answered. *)
Record call : Set := mkCall {
  originX : Z;
  originY : Z;
  windowDiff : Z;
  answer : option error
}.

Definition origin (c : call) : Z * Z := (originX c, originY c).

(** The entry that [record] logs for a call. *)
Definition logged (mk : Z -> Z -> Z -> Match) (c : call) : Match * option error :=
  (mk (originX c) (originY c) (windowDiff c), answer c).

(** The calls made during a walk. *)
Fixpoint walkCalls {S : Type} (ctx : Context) (cmp : Z -> Z -> flow)
    (mk : Z -> Z -> Z -> Match) (f : Match -> S -> option error * S)
    (evs : list event) (s : S) : list call :=
  match evs with
  | [] => []
  | Poll k :: rest =>
      match ctx k with
      | Some _ => []
      | None => walkCalls ctx cmp mk f rest s
      end
  | Window x y :: rest =>
      match cmp x y with
      | IndexPanic | NoFuel => []
      | BreakMatchLoop => walkCalls ctx cmp mk f rest s
      | LoopDone diff =>
          match f (mk x y diff) s with
          | (Some err, _) => [mkCall x y diff (Some err)]
          | (None, s') => mkCall x y diff None :: walkCalls ctx cmp mk f rest s'
          end
      end
  end.

(** Where the rectangle of a match lies in the canvas: the offset of its
    [Min] from [canvas.Rect.Min]. *)
Definition offsetIn (canvas : image.RGBA) (m : Match) : Z * Z :=
  (image.X (image.Min (Rect m)) - image.X (image.Min (image.Rect canvas)),
   image.Y (image.Min (Rect m)) - image.Y (image.Min (image.Rect canvas))).

(** The comparison of a window came to a verdict. *)
Definition decided (r : flow) : Prop :=
  match r with
  | LoopDone _ | BreakMatchLoop => True
  | IndexPanic | NoFuel => False
  end.

(** ** Images as the [image] package builds them *)

(** A rectangle as [image.Rect] builds it: [Min] is not beyond [Max], the
    coordinates are [int] values, and the width and the height do not
    overflow an [int]. *)
Definition WellFormed (r : image.Rectangle) : Prop :=
  Int64.in_range (image.X (image.Min r)) /\ Int64.in_range (image.Y (image.Min r)) /\
  Int64.in_range (image.X (image.Max r)) /\ Int64.in_range (image.Y (image.Max r)) /\
  image.X (image.Min r) <= image.X (image.Max r) /\
  image.Y (image.Min r) <= image.Y (image.Max r) /\
  image.X (image.Max r) - image.X (image.Min r) < Int64.half /\
  image.Y (image.Max r) - image.Y (image.Min r) < Int64.half.

(** The size of a 48-bit address space: slices and strides stay below it. *)
Definition addressable : Z := 2 ^ 48.

(** An [image.RGBA] as the [image] package builds it ([NewRGBA],
    [SubImage]): a well-formed rectangle, rows of [Stride] bytes that hold
    the four bytes of every pixel of a row, and a [Pix] that reaches to the
    end of the last row. *)
Definition ValidRGBA (img : image.RGBA) : Prop :=
  WellFormed (image.Rect img) /\
  4 * image.Dx (image.Rect img) <= image.Stride img < addressable /\
  Z.of_nat (length (image.Pix img)) < addressable /\
  (0 < image.Dx (image.Rect img) -> 0 < image.Dy (image.Rect img) ->
   (image.Dy (image.Rect img) - 1) * image.Stride img
   + 4 * image.Dx (image.Rect img) <= Z.of_nat (length (image.Pix img))).

(** ** What [Find] holds in [best] *)

(** [best] is the first of the matches of greatest similarity in [l]. *)
Definition firstBest (l : list Match) (best : Match) : Prop :=
  exists pre post,
    l = pre ++ best :: post /\
    Forall (fun m => (Similarity m < Similarity best)%Q) pre /\
    Forall (fun m => (Similarity m <= Similarity best)%Q) post.

(** A callback that asks to stop at once. *)
Definition breakAtOnce (m : Match) (u : unit) : option error * unit :=
  (Some ErrBreak, u).

(** ** The differences of the pixels of a window *)

(** The byte of a slice at an index, 0 outside the slice. *)
Definition byteAt (pix : list byte) (i : Z) : Z :=
  match nth_error pix (Z.to_nat i) with
  | Some b => Z.of_N (Byte.to_N b)
  | None => 0
  end.

(** The sum of the absolute differences of the three colour channels of
    the pixels that start at two byte offsets. *)
Definition offsetDiff (pc ps : list byte) (icanv isamp : Z) : Z :=
  Z.abs (byteAt pc icanv - byteAt ps isamp)
  + Z.abs (byteAt pc (icanv + 1) - byteAt ps (isamp + 1))
  + Z.abs (byteAt pc (icanv + 2) - byteAt ps (isamp + 2)).

(** [RGBA.PixOffset], for coordinates relative to [Rect.Min]. *)
Definition pixOffset (img : image.RGBA) (x y : Z) : Z :=
  y * image.Stride img + x * 4.

(** The difference between the pixel [(c, r)] of the sample and the pixel
    under it when the sample lies at origin [(x, y)] of the canvas. *)
Definition pixelDiff (canvas sample : image.RGBA) (x y c r : Z) : Z :=
  offsetDiff (image.Pix canvas) (image.Pix sample)
    (pixOffset canvas (x + c) (y + r)) (pixOffset sample c r).

(** The differences of all the pixels of the window at origin [(x, y)], row
    by row. *)
Definition windowDiffs (canvas sample : image.RGBA) (x y : Z) : list Z :=
  flat_map
    (fun r =>
       map (fun c => pixelDiff canvas sample x y (Z.of_nat c) (Z.of_nat r))
         (seq 0 (Z.to_nat (image.Dx (image.Rect sample)))))
    (seq 0 (Z.to_nat (image.Dy (image.Rect sample)))).

Definition sumZ (l : list Z) : Z := fold_right Z.add 0 l.

(** The two checks of [matchLoop], applied to a list of pixel differences
    in turn: the running [diff] at the end, or [None] for a rejection. *)
Fixpoint checkDiffs (p t : Z) (ds : list Z) (diff : Z) : option Z :=
  match ds with
  | [] => Some diff
  | delta :: rest =>
      if delta >? p then None
      else if diff + delta >? t then None
      else checkDiffs p t rest (diff + delta)
  end.

(** The differences of [n] pixels in a row, from two byte offsets on. *)
Fixpoint rowDiffs (pc ps : list byte) (n : nat) (icanv isamp : Z) : list Z :=
  match n with
  | O => []
  | S n' => offsetDiff pc ps icanv isamp :: rowDiffs pc ps n' (icanv + 4) (isamp + 4)
  end.

(** The differences of [r] rows of [n] pixels. *)
Fixpoint blockDiffs (pc ps : list byte) (strideCanv strideSamp : Z) (n r : nat)
    (rowsamp rowcanv : Z) : list Z :=
  match r with
  | O => []
  | S r' =>
      rowDiffs pc ps n rowcanv rowsamp
      ++ blockDiffs pc ps strideCanv strideSamp n r'
           (rowsamp + strideSamp) (rowcanv + strideCanv)
  end.

(** * Properties *)

(** ** 64-bit arithmetic *)

Lemma wrap_in_range (n : Z) : Int64.in_range (Int64.wrap n).
Proof.
  unfold Int64.in_range, Int64.wrap.
  assert (H : 0 <= (n + Int64.half) mod Int64.modulus < Int64.modulus)
    by (apply Z.mod_pos_bound; reflexivity).
  assert (E : Int64.modulus = 2 * Int64.half) by reflexivity.
  lia.
Qed.

Lemma wrap_small (n : Z) : Int64.in_range n -> Int64.wrap n = n.
Proof.
  unfold Int64.in_range, Int64.wrap. intros H.
  assert (E : Int64.modulus = 2 * Int64.half) by reflexivity.
  rewrite Z.mod_small; lia.
Qed.

Lemma half_value : Int64.half = 9223372036854775808.
Proof. reflexivity. Qed.

(** [abs] is the absolute value on every [int64] except the least one. *)
Lemma abs_spec (n : Z) : - Int64.half < n < Int64.half -> abs n = Z.abs n.
Proof.
  intros H. unfold abs, Int64.shr, Int64.xor, Int64.sub.
  rewrite Z.shiftr_div_pow2 by lia.
  change (2 ^ 63) with Int64.half.
  destruct (Z_lt_le_dec n 0) as [Hneg | Hpos].
  - assert (Hq : n / Int64.half = -1).
    { symmetry. apply (Z.div_unique n Int64.half (-1) (n + Int64.half)).
      - left. lia.
      - lia. }
    rewrite Hq, Z.lxor_m1_r.
    unfold Z.lnot. rewrite wrap_small by (unfold Int64.in_range; lia). lia.
  - rewrite Z.div_small by lia.
    rewrite Z.lxor_0_r, Z.sub_0_r.
    rewrite wrap_small by (unfold Int64.in_range; lia). lia.
Qed.

Lemma byte_value_bound (b : byte) : 0 <= Z.of_N (Byte.to_N b) <= 255.
Proof. pose proof (Byte.to_N_bounded b). lia. Qed.

Lemma index_bound (pix : list byte) (i v : Z) :
  index pix i = Some v -> 0 <= v <= 255.
Proof.
  unfold index. destruct ((0 <=? i) && (i <? Z.of_nat (length pix))); [|discriminate].
  destruct (nth_error pix (Z.to_nat i)) as [b|]; [|discriminate].
  cbn. intros [= <-]. apply byte_value_bound.
Qed.

(** The difference of two channel values, as the scanner computes it. *)
Lemma channel_diff (c s : Z) :
  0 <= c <= 255 -> 0 <= s <= 255 -> abs (c - s)%i64 = Z.abs (c - s).
Proof.
  intros Hc Hs. unfold Int64.sub.
  rewrite wrap_small by (unfold Int64.in_range; rewrite half_value; lia).
  apply abs_spec. rewrite half_value. lia.
Qed.

Lemma pixelDelta_spec (pc ps : list byte) (icanv isamp delta : Z) :
  pixelDelta pc ps icanv isamp = Some delta ->
  exists c0 s0 c1 s1 c2 s2,
    index pc (icanv + 0)%i64 = Some c0 /\ index ps (isamp + 0)%i64 = Some s0 /\
    index pc (icanv + 1)%i64 = Some c1 /\ index ps (isamp + 1)%i64 = Some s1 /\
    index pc (icanv + 2)%i64 = Some c2 /\ index ps (isamp + 2)%i64 = Some s2 /\
    delta = Z.abs (c0 - s0) + Z.abs (c1 - s1) + Z.abs (c2 - s2).
Proof.
  unfold pixelDelta.
  destruct (index pc (icanv + 0)%i64) as [c0|] eqn:E0; [|discriminate].
  destruct (index ps (isamp + 0)%i64) as [s0|] eqn:F0; [|discriminate].
  destruct (index pc (icanv + 1)%i64) as [c1|] eqn:E1; [|discriminate].
  destruct (index ps (isamp + 1)%i64) as [s1|] eqn:F1; [|discriminate].
  destruct (index pc (icanv + 2)%i64) as [c2|] eqn:E2; [|discriminate].
  destruct (index ps (isamp + 2)%i64) as [s2|] eqn:F2; [|discriminate].
  intros [= <-].
  exists c0, s0, c1, s1, c2, s2. repeat (split; [reflexivity|]).
  pose proof (index_bound _ _ _ E0). pose proof (index_bound _ _ _ F0).
  pose proof (index_bound _ _ _ E1). pose proof (index_bound _ _ _ F1).
  pose proof (index_bound _ _ _ E2). pose proof (index_bound _ _ _ F2).
  rewrite !channel_diff by assumption.
  unfold Int64.add.
  rewrite (wrap_small (Z.abs (c0 - s0) + Z.abs (c1 - s1)))
    by (unfold Int64.in_range; rewrite half_value; lia).
  rewrite wrap_small by (unfold Int64.in_range; rewrite half_value; lia).
  reflexivity.
Qed.

Lemma pixelDelta_bound (pc ps : list byte) (icanv isamp delta : Z) :
  pixelDelta pc ps icanv isamp = Some delta -> 0 <= delta <= 765.
Proof.
  intros H. apply pixelDelta_spec in H.
  destruct H as (c0 & s0 & c1 & s1 & c2 & s2 & E0 & F0 & E1 & F1 & E2 & F2 & ->).
  pose proof (index_bound _ _ _ E0). pose proof (index_bound _ _ _ F0).
  pose proof (index_bound _ _ _ E1). pose proof (index_bound _ _ _ F1).
  pose proof (index_bound _ _ _ E2). pose proof (index_bound _ _ _ F2).
  lia.
Qed.

(** ** Walks *)

Section WalkFacts.

Context {S : Type}.
Variable ctx : Context.
Variable cmp : Z -> Z -> flow.
Variable mk : Z -> Z -> Z -> Match.
Variable f : Match -> S -> option error * S.

Lemma walk_app (evs evs' : list event) (s : S) :
  walk ctx cmp mk f (evs ++ evs') s =
  match walk ctx cmp mk f evs s with
  | (Returns None, s') => walk ctx cmp mk f evs' s'
  | stop => stop
  end.
Proof.
  revert s. induction evs as [|[k|x y] evs IH]; intros s; cbn.
  - reflexivity.
  - destruct (ctx k); [reflexivity | apply IH].
  - destruct (cmp x y); try reflexivity; try apply IH.
    destruct (f (mk x y diff) s) as [[e|] s']; [reflexivity | apply IH].
Qed.

(** Recording the calls changes neither the outcome nor the state of the
    callback, and the log it builds is [walkCalls]. *)
Lemma walk_record (evs : list event) (log : list (Match * option error)) (s : S) :
  walk ctx cmp mk (record f) evs (log, s) =
  (fst (walk ctx cmp mk f evs s),
   (log ++ map (logged mk) (walkCalls ctx cmp mk f evs s),
    snd (walk ctx cmp mk f evs s))).
Proof.
  revert log s. induction evs as [|[k|x y] evs IH]; intros log s; cbn.
  - now rewrite app_nil_r.
  - destruct (ctx k); [now rewrite app_nil_r | apply IH].
  - destruct (cmp x y) as [diff| | |]; cbn; try (now rewrite app_nil_r); [|apply IH].
    unfold record at 1; cbn.
    destruct (f (mk x y diff) s) as [[e|] s'] eqn:E; cbn.
    + reflexivity.
    + rewrite IH. now rewrite <- app_assoc.
Qed.

(** Every call is about a window of the walk that passed the comparison. *)
Lemma walkCalls_accepted (evs : list event) (s : S) :
  Forall (fun c => In (Window (originX c) (originY c)) evs /\
                   cmp (originX c) (originY c) = LoopDone (windowDiff c))
    (walkCalls ctx cmp mk f evs s).
Proof.
  revert s. induction evs as [|[k|x y] evs IH]; intros s; cbn.
  - constructor.
  - destruct (ctx k); [constructor|].
    eapply Forall_impl; [|apply IH]. cbn; intros c [H1 H2]; auto.
  - assert (Hrest : forall s',
      Forall (fun c => (Window x y = Window (originX c) (originY c) \/
                        In (Window (originX c) (originY c)) evs) /\
                       cmp (originX c) (originY c) = LoopDone (windowDiff c))
        (walkCalls ctx cmp mk f evs s')).
    { intros s'. eapply Forall_impl; [|apply IH]. cbn; intros c [H1 H2]; auto. }
    destruct (cmp x y) as [diff| | |] eqn:E; try constructor; try apply Hrest.
    destruct (f (mk x y diff) s) as [[e|] s'].
    + constructor; [|constructor]. cbn. auto.
    + constructor; [cbn; auto | apply Hrest].
Qed.

(** The calls come in the order of the windows of the walk. *)
Lemma walkCalls_sorted (R : Z * Z -> Z * Z -> Prop) (evs : list event) (s : S) :
  StronglySorted R (windows evs) ->
  StronglySorted R (map origin (walkCalls ctx cmp mk f evs s)).
Proof.
  revert s. induction evs as [|[k|x y] evs IH]; intros s Hs; cbn in *.
  - constructor.
  - destruct (ctx k); [constructor | now apply IH].
  - apply StronglySorted_inv in Hs. destruct Hs as [Hs Hall].
    assert (Hin : forall s', Forall (R (x, y))
              (map origin (walkCalls ctx cmp mk f evs s'))).
    { intros s'. rewrite Forall_forall in Hall |- *.
      intros p Hp. apply in_map_iff in Hp. destruct Hp as (c & <- & Hc).
      pose proof (walkCalls_accepted evs s') as Hacc.
      rewrite Forall_forall in Hacc. destruct (Hacc c Hc) as [Hw _].
      apply Hall. clear - Hw. induction evs as [|[k|x' y'] evs IH]; cbn in *.
      - contradiction.
      - destruct Hw as [Hw|Hw]; [discriminate | auto].
      - destruct Hw as [Hw|Hw]; [injection Hw as -> ->; now left | right; auto]. }
    destruct (cmp x y) as [diff| | |]; try constructor; try (now apply IH).
    destruct (f (mk x y diff) s) as [[e|] s']; cbn.
    + constructor; constructor.
    + constructor; [now apply IH | apply Hin].
Qed.

(** A call that answers with an error is the last one, and its answer is
    what the walk returns. *)
Lemma walkCalls_abort (evs : list event) (s : S) (pre post : list call)
    (c : call) (e : error) :
  walkCalls ctx cmp mk f evs s = pre ++ c :: post ->
  answer c = Some e ->
  post = [] /\ fst (walk ctx cmp mk f evs s) = Returns (Some e).
Proof.
  revert s pre. induction evs as [|[k|x y] evs IH]; intros s pre Hlog He; cbn in *.
  - destruct pre; discriminate.
  - destruct (ctx k); [destruct pre; discriminate | eauto].
  - destruct (cmp x y) as [diff| | |];
      try (destruct pre; discriminate); [|eauto].
    destruct (f (mk x y diff) s) as [[e'|] s'].
    + destruct pre as [|c' pre].
      * injection Hlog as <- <-. cbn in He. injection He as ->. auto.
      * injection Hlog as _ Hlog. destruct pre; discriminate.
    + destruct pre as [|c' pre].
      * injection Hlog as <- _. discriminate.
      * injection Hlog as _ Hlog. eauto.
Qed.

(** A walk that runs to its end has called the callback for every window
    that passed the comparison. *)
Lemma walkCalls_complete (evs : list event) (s : S) (x y diff : Z) :
  fst (walk ctx cmp mk f evs s) = Returns None ->
  In (Window x y) evs ->
  cmp x y = LoopDone diff ->
  In (mkCall x y diff None) (walkCalls ctx cmp mk f evs s).
Proof.
  revert s. induction evs as [|[k|x' y'] evs IH]; intros s Hret Hin Hcmp; cbn in *.
  - contradiction.
  - destruct Hin as [Hin|Hin]; [discriminate|].
    destruct (ctx k); [discriminate | auto].
  - destruct Hin as [Hin|Hin].
    + injection Hin as -> ->. rewrite Hcmp in *.
      destruct (f (mk x y diff) s) as [[e|] s']; [discriminate | now left].
    + destruct (cmp x' y') as [d| | |]; try discriminate; [|auto].
      destruct (f (mk x' y' d) s) as [[e|] s']; [discriminate | right; auto].
Qed.

End WalkFacts.

(** ** The events of a scan *)

Lemma windows_app (evs evs' : list event) :
  windows (evs ++ evs') = windows evs ++ windows evs'.
Proof.
  induction evs as [|[k|x y] evs IH]; cbn; [reflexivity | assumption |].
  now rewrite IH.
Qed.

Lemma in_windows (evs : list event) (x y : Z) :
  In (x, y) (windows evs) <-> In (Window x y) evs.
Proof.
  induction evs as [|[k|x' y'] evs IH]; cbn.
  - tauto.
  - rewrite IH. split; [auto | intros [H|H]; [discriminate | assumption]].
  - rewrite IH. split; (intros [H|H]; [left; congruence | right; assumption]).
Qed.

Lemma in_columnEvents (n : nat) (x0 y0 x y : Z) :
  In (Window x y) (columnEvents n x0 y0) <->
  y = y0 /\ x0 <= x < x0 + Z.of_nat n.
Proof.
  revert x0. induction n as [|n IH]; intros x0; cbn [columnEvents In].
  - split; [contradiction | lia].
  - rewrite IH. split.
    + intros [H|H]; [injection H as -> ->; lia | lia].
    + intros [-> H]. destruct (Z.eq_dec x x0) as [->|Hne]; [now left | right; lia].
Qed.

Lemma in_rowEvents (width n : nat) (y0 x y : Z) :
  In (Window x y) (rowEvents width n y0) <->
  (y0 <= y < y0 + Z.of_nat n) /\ (0 <= x < Z.of_nat width).
Proof.
  revert y0. induction n as [|n IH]; intros y0; cbn [rowEvents In].
  - split; [contradiction | lia].
  - rewrite in_app_iff, in_columnEvents, IH. split.
    + intros [H|[H|H]]; [discriminate | lia | lia].
    + intros [Hy Hx]. right.
      destruct (Z.eq_dec y y0) as [->|Hne]; [left; lia | right; lia].
Qed.

Lemma StronglySorted_append {A : Type} (R : A -> A -> Prop) (l l' : list A) :
  StronglySorted R l -> StronglySorted R l' ->
  (forall a b, In a l -> In b l' -> R a b) ->
  StronglySorted R (l ++ l').
Proof.
  induction l as [|a l IH]; cbn; intros Hl Hl' Hcross; [assumption|].
  apply StronglySorted_inv in Hl. destruct Hl as [Hl Ha].
  constructor.
  - apply IH; auto.
  - apply Forall_app. split; [assumption|].
    apply Forall_forall. intros b Hb. apply Hcross; auto.
Qed.

Lemma columnEvents_sorted (n : nat) (x0 y0 : Z) :
  StronglySorted rowMajor (windows (columnEvents n x0 y0)).
Proof.
  revert x0. induction n as [|n IH]; intros x0; cbn; constructor.
  - apply IH.
  - apply Forall_forall. intros [x y] Hin.
    apply in_windows, in_columnEvents in Hin. right. cbn. lia.
Qed.

Lemma rowEvents_sorted (width n : nat) (y0 : Z) :
  StronglySorted rowMajor (windows (rowEvents width n y0)).
Proof.
  revert y0. induction n as [|n IH]; intros y0; cbn; [constructor|].
  rewrite windows_app. apply StronglySorted_append.
  - apply columnEvents_sorted.
  - apply IH.
  - intros [x y] [x' y'] Ha Hb.
    apply in_windows, in_columnEvents in Ha.
    apply in_windows, in_rowEvents in Hb. left. cbn. lia.
Qed.

Section ScanWalk.

Context {S : Type}.
Variable ctx : Context.
Variables canvas sample : image.RGBA.
Variable tolerance : Q.
Variable f : Match -> S -> option error * S.

Let cmp := compareAt canvas sample tolerance.
Let mk := matchAt canvas sample.

Lemma columnLoop_walk (n : nat) (x y : Z) (s : S) :
  columnLoop canvas sample tolerance f n x y s =
  walk ctx cmp mk f (columnEvents n x y) s.
Proof.
  revert x s. induction n as [|n IH]; intros x s; cbn; [reflexivity|].
  fold (cmp x y). destruct (cmp x y) as [diff| | |]; try reflexivity; [|apply IH].
  fold (mk x y diff). destruct (f (mk x y diff) s) as [[e|] s']; [reflexivity | apply IH].
Qed.

Lemma rowLoop_walk (n : nat) (y : Z) (s : S) :
  rowLoop ctx canvas sample tolerance f n y s =
  walk ctx cmp mk f (rowEvents (Z.to_nat (scanWidth canvas sample)) n y) s.
Proof.
  revert y s. induction n as [|n IH]; intros y s; cbn; [reflexivity|].
  destruct (ctx (Z.to_nat y)); [reflexivity|].
  rewrite walk_app, columnLoop_walk.
  destruct (walk ctx cmp mk f _ s) as [[[e|]| |] s']; try reflexivity.
  apply IH.
Qed.

Lemma foreachRGBA_walk (s : S) :
  foreachRGBA ctx canvas sample tolerance f s =
  walk ctx cmp mk f (scanEvents canvas sample) s.
Proof.
  unfold foreachRGBA, scanEvents, fits.
  destruct (_ || _ || _ || _); cbn [negb]; [reflexivity | apply rowLoop_walk].
Qed.

End ScanWalk.

(** The calls of a scan are the calls of the walk over its events. *)
Lemma calls_walk {S : Type} (ctx : Context) (canvas sample : image.RGBA)
    (tolerance : Q) (f : Match -> S -> option error * S) (s : S) :
  calls ctx canvas sample tolerance f s =
  map (logged (matchAt canvas sample))
    (walkCalls ctx (compareAt canvas sample tolerance) (matchAt canvas sample)
       f (scanEvents canvas sample) s).
Proof.
  unfold calls. rewrite foreachRGBA_walk, walk_record. reflexivity.
Qed.

(** Recording leaves the scan as it is. *)
Lemma foreachRGBA_record {S : Type} (ctx : Context) (canvas sample : image.RGBA)
    (tolerance : Q) (f : Match -> S -> option error * S) (s : S) :
  foreachRGBA ctx canvas sample tolerance (record f) ([], s) =
  (fst (foreachRGBA ctx canvas sample tolerance f s),
   (calls ctx canvas sample tolerance f s,
    snd (foreachRGBA ctx canvas sample tolerance f s))).
Proof.
  rewrite calls_walk, !foreachRGBA_walk, walk_record. reflexivity.
Qed.

Lemma in_scanEvents (canvas sample : image.RGBA) (x y : Z) :
  In (Window x y) (scanEvents canvas sample) <->
  fits canvas sample = true /\
  0 <= y < scanHeight canvas sample /\ 0 <= x < scanWidth canvas sample.
Proof.
  unfold scanEvents. destruct (fits canvas sample).
  - rewrite in_rowEvents. split.
    + intros [Hy Hx]. split; [reflexivity|]. lia.
    + intros [_ [Hy Hx]]. lia.
  - cbn. split; [contradiction | intros [H _]; discriminate].
Qed.

Lemma scanEvents_sorted (canvas sample : image.RGBA) :
  StronglySorted rowMajor (windows (scanEvents canvas sample)).
Proof.
  unfold scanEvents. destruct (fits canvas sample).
  - apply rowEvents_sorted.
  - constructor.
Qed.

(** ** Loop bounds *)

Lemma Dx_in_range (r : image.Rectangle) : Int64.in_range (image.Dx r).
Proof. apply wrap_in_range. Qed.

Lemma Dy_in_range (r : image.Rectangle) : Int64.in_range (image.Dy r).
Proof. apply wrap_in_range. Qed.

Lemma fits_true (canvas sample : image.RGBA) :
  fits canvas sample = true <->
  image.Dx (image.Rect sample) <= image.Dx (image.Rect canvas) /\
  image.Dy (image.Rect sample) <= image.Dy (image.Rect canvas) /\
  image.Dx (image.Rect sample) <> 0 /\ image.Dy (image.Rect sample) <> 0.
Proof.
  unfold fits. rewrite negb_true_iff, !orb_false_iff.
  rewrite !Z.ltb_ge, !Z.eqb_neq. tauto.
Qed.

(** For a sample of positive size that fits, the origins of a row are
    [0 .. canvas_width - sample_width], both ends included, and the rows of
    origins are [0 .. canvas_height - sample_height]. *)
Lemma scanWidth_spec (canvas sample : image.RGBA) :
  0 < image.Dx (image.Rect sample) <= image.Dx (image.Rect canvas) ->
  scanWidth canvas sample =
  image.Dx (image.Rect canvas) - image.Dx (image.Rect sample) + 1.
Proof.
  intros H. unfold scanWidth.
  pose proof (Dx_in_range (image.Rect canvas)) as Hc.
  pose proof (Dx_in_range (image.Rect sample)) as Hs.
  unfold Int64.in_range in *. unfold Int64.sub.
  rewrite (wrap_small (_ - 1)) by (unfold Int64.in_range; lia).
  rewrite wrap_small by (unfold Int64.in_range; lia). lia.
Qed.

Lemma scanHeight_spec (canvas sample : image.RGBA) :
  0 < image.Dy (image.Rect sample) <= image.Dy (image.Rect canvas) ->
  scanHeight canvas sample =
  image.Dy (image.Rect canvas) - image.Dy (image.Rect sample) + 1.
Proof.
  intros H. unfold scanHeight.
  pose proof (Dy_in_range (image.Rect canvas)) as Hc.
  pose proof (Dy_in_range (image.Rect sample)) as Hs.
  unfold Int64.in_range in *. unfold Int64.sub.
  rewrite (wrap_small (_ - 1)) by (unfold Int64.in_range; lia).
  rewrite wrap_small by (unfold Int64.in_range; lia). lia.
Qed.

Lemma map_eq_middle {A B : Type} (g : A -> B) (l : list A) (pre post : list B) (b : B) :
  map g l = pre ++ b :: post ->
  exists pre' a post', l = pre' ++ a :: post' /\ g a = b /\ map g post' = post.
Proof.
  revert pre. induction l as [|a l IH]; intros pre H; cbn in H.
  - destruct pre; discriminate.
  - destruct pre as [|b' pre]; cbn in H.
    + injection H as H1 H2. exists [], a, l. auto.
    + injection H as _ H. destruct (IH _ H) as (pre' & a' & post' & -> & Hg & Hp).
      exists (a :: pre'), a', post'. auto.
Qed.

(** ** C8 *)

(** C8: a sample of zero width or zero height, or a sample wider or taller
    than the canvas, makes the scan return nil without calling the
    callback. *)
Theorem C8_empty_scan {S : Type} (ctx : Context)
    (canvas sample : image.RGBA) (tolerance : Q)
    (f : Match -> S -> option error * S) (s : S) :
  image.Dx (image.Rect sample) = 0 \/ image.Dy (image.Rect sample) = 0 \/
  image.Dx (image.Rect canvas) < image.Dx (image.Rect sample) \/
  image.Dy (image.Rect canvas) < image.Dy (image.Rect sample) ->
  foreachRGBA ctx canvas sample tolerance f s = (Returns None, s) /\
  calls ctx canvas sample tolerance f s = [].
Proof.
  intros H.
  assert (Hguard : fits canvas sample = false).
  { destruct (fits canvas sample) eqn:E; [|reflexivity].
    apply fits_true in E. lia. }
  rewrite calls_walk, foreachRGBA_walk. unfold scanEvents. rewrite Hguard.
  split; reflexivity.
Qed.

Lemma C8_empty_scan_witness :
  foreachRGBA cancelled (onePixel black) (twoPixels white black) (1 # 2)
    keepGoing tt = (Returns None, tt) /\
  calls cancelled (onePixel black) (twoPixels white black) (1 # 2)
    keepGoing tt = [].
Proof.
  apply (C8_empty_scan cancelled (onePixel black) (twoPixels white black)
           (1 # 2) keepGoing tt).
  right; right; left. vm_compute. reflexivity.
Defined.

(** ** C9 *)

Lemma scanEvents_first_poll (canvas sample : image.RGBA) :
  0 < image.Dx (image.Rect sample) <= image.Dx (image.Rect canvas) ->
  0 < image.Dy (image.Rect sample) <= image.Dy (image.Rect canvas) ->
  exists rest, scanEvents canvas sample = Poll 0 :: rest.
Proof.
  intros Hx Hy. unfold scanEvents.
  assert (Hfit : fits canvas sample = true) by (apply fits_true; lia).
  rewrite Hfit, (scanHeight_spec _ _ Hy).
  destruct (Z.to_nat (_ - _ + 1)) as [|n] eqn:E; [lia|].
  cbn. eexists. reflexivity.
Qed.

(** C9, as the code has it: when the first poll of the context already
    answers with an error, and the sample has a positive size and is not
    larger than the canvas, [Foreach] returns that error without calling
    the callback, [All] returns it with no match, and [Find] returns it with
    the zero [Match] (for a context error other than [ErrBreak], which
    [Find] takes for its own stop signal).  The size guard comes before the
    first poll: a sample of another size ends the call before any poll. *)
Theorem C9_cancelled_before_scan (ctx : Context)
    (canvas sample : image.RGBA) (tolerance : Q) (e : error) :
  ctx 0%nat = Some e ->
  0 < image.Dx (image.Rect sample) <= image.Dx (image.Rect canvas) ->
  0 < image.Dy (image.Rect sample) <= image.Dy (image.Rect canvas) ->
  (forall (S : Type) (f : Match -> S -> option error * S) (s : S),
     Foreach ctx (image.RGBAImage canvas) (image.RGBAImage sample) tolerance f s
     = (Returns (Some e), s) /\
     calls ctx canvas sample tolerance f s = []) /\
  All ctx (image.RGBAImage canvas) (image.RGBAImage sample) tolerance
  = (Returns (Some e), []) /\
  (e <> ErrBreak ->
   forall selection,
     Find ctx (image.RGBAImage canvas) (image.RGBAImage sample) tolerance selection
     = (Returns (Some e), zeroMatch)).
Proof.
  intros Hctx Hx Hy.
  destruct (scanEvents_first_poll canvas sample Hx Hy) as [rest Hevs].
  assert (Hscan : forall (S : Type) (f : Match -> S -> option error * S) (s : S),
            foreachRGBA ctx canvas sample tolerance f s = (Returns (Some e), s)).
  { intros S f s. rewrite foreachRGBA_walk, Hevs. cbn. now rewrite Hctx. }
  split; [|split].
  - intros S f s. split; [apply Hscan|].
    rewrite calls_walk, Hevs. cbn. now rewrite Hctx.
  - unfold All, Foreach. now rewrite Hscan.
  - intros Hne selection. unfold Find, Foreach. rewrite Hscan.
    destruct e; try reflexivity. contradiction.
Qed.

Lemma C9_cancelled_before_scan_witness :
  All cancelled (image.RGBAImage (twoPixels white black))
    (image.RGBAImage (onePixel black)) (1 # 2)
  = (Returns (Some Canceled), []) /\
  Find cancelled (image.RGBAImage (twoPixels white black))
    (image.RGBAImage (onePixel black)) (1 # 2) Best
  = (Returns (Some Canceled), zeroMatch).
Proof.
  destruct (C9_cancelled_before_scan cancelled (twoPixels white black)
              (onePixel black) (1 # 2) Canceled) as (_ & HAll & HFind).
  - reflexivity.
  - vm_compute. split; [reflexivity | discriminate].
  - vm_compute. split; [reflexivity | discriminate].
  - split; [exact HAll | apply HFind; discriminate].
Defined.

(** C9, as the specification has it, fails: with a context that is already
    cancelled and a sample wider than the canvas, no operation reports the
    cancellation. *)
Lemma C9_counterexample :
  cancelled 0%nat = Some Canceled /\
  fst (Foreach cancelled (image.RGBAImage (onePixel black))
         (image.RGBAImage (twoPixels white black)) 0 keepGoing tt)
  = Returns None /\
  All cancelled (image.RGBAImage (onePixel black))
    (image.RGBAImage (twoPixels white black)) 0 = (Returns None, []) /\
  Find cancelled (image.RGBAImage (onePixel black))
    (image.RGBAImage (twoPixels white black)) 0 Best
  = (Returns (Some ErrNotFound), zeroMatch).
Proof.
  repeat split; vm_compute; reflexivity.
Qed.

(** ** Well-formed rectangles *)

Lemma WellFormed_Dx (r : image.Rectangle) :
  WellFormed r -> image.Dx r = image.X (image.Max r) - image.X (image.Min r).
Proof.
  intros (_ & _ & _ & _ & Hx & _ & Hw & _). unfold image.Dx, Int64.sub.
  apply wrap_small. unfold Int64.in_range. rewrite half_value in *. lia.
Qed.

Lemma WellFormed_Dy (r : image.Rectangle) :
  WellFormed r -> image.Dy r = image.Y (image.Max r) - image.Y (image.Min r).
Proof.
  intros (_ & _ & _ & _ & _ & Hy & _ & Hh). unfold image.Dy, Int64.sub.
  apply wrap_small. unfold Int64.in_range. rewrite half_value in *. lia.
Qed.

(** Every call of the callback is about a window origin inside the loop
    bounds whose comparison ended with [matched = true]. *)
Lemma calls_inversion {S : Type} (ctx : Context)
    (canvas sample : image.RGBA) (tolerance : Q)
    (f : Match -> S -> option error * S) (s : S) (m : Match) (e : option error) :
  In (m, e) (calls ctx canvas sample tolerance f s) ->
  exists x y diff,
    m = matchAt canvas sample x y diff /\
    fits canvas sample = true /\
    0 <= y < scanHeight canvas sample /\ 0 <= x < scanWidth canvas sample /\
    compareAt canvas sample tolerance x y = LoopDone diff.
Proof.
  rewrite calls_walk. intros Hin. apply in_map_iff in Hin.
  destruct Hin as (c & Hc & Hin).
  pose proof (walkCalls_accepted ctx (compareAt canvas sample tolerance)
                (matchAt canvas sample) f (scanEvents canvas sample) s) as Hacc.
  rewrite Forall_forall in Hacc. destruct (Hacc c Hin) as [Hev Hcmp].
  apply in_scanEvents in Hev. unfold logged in Hc. injection Hc as Hm _.
  exists (originX c), (originY c), (windowDiff c). symmetry in Hm. tauto.
Qed.

(** ** The state of the callback after a scan *)

Lemma walk_state {S : Type} (ctx : Context) (cmp : Z -> Z -> flow)
    (mk : Z -> Z -> Z -> Match) (f : Match -> S -> option error * S)
    (evs : list event) (s : S) :
  snd (walk ctx cmp mk f evs s) =
  fold_left (fun st m => snd (f m st))
    (map fst (map (logged mk) (walkCalls ctx cmp mk f evs s))) s.
Proof.
  revert s. induction evs as [|[k|x y] evs IH]; intros s; cbn.
  - reflexivity.
  - destruct (ctx k); [reflexivity | apply IH].
  - destruct (cmp x y) as [diff| | |]; try reflexivity; [|apply IH].
    destruct (f (mk x y diff) s) as [[e|] s'] eqn:E; cbn; rewrite E; cbn.
    + reflexivity.
    + apply IH.
Qed.

(** Two callbacks that never answer with an error are called for the same
    windows, and the two walks end in the same way. *)
Lemma walk_never_stopped {S T : Type} (ctx : Context) (cmp : Z -> Z -> flow)
    (mk : Z -> Z -> Z -> Match)
    (f : Match -> S -> option error * S) (g : Match -> T -> option error * T)
    (evs : list event) (s : S) (t : T) :
  (forall m st, fst (f m st) = None) ->
  (forall m st, fst (g m st) = None) ->
  walkCalls ctx cmp mk f evs s = walkCalls ctx cmp mk g evs t /\
  fst (walk ctx cmp mk f evs s) = fst (walk ctx cmp mk g evs t).
Proof.
  intros Hf Hg. revert s t.
  induction evs as [|[k|x y] evs IH]; intros s t; cbn.
  - auto.
  - destruct (ctx k); auto.
  - destruct (cmp x y) as [diff| | |]; auto.
    pose proof (Hf (mk x y diff) s) as Ef. pose proof (Hg (mk x y diff) t) as Eg.
    destruct (f (mk x y diff) s) as [ef s']. destruct (g (mk x y diff) t) as [eg t'].
    cbn in Ef, Eg. subst ef eg.
    destruct (IH s' t') as [IH1 IH2]. split; [now f_equal | assumption].
Qed.

(** With a callback that never answers with an error, the scan ends as the
    scan with [keepGoing] does, the callback has seen the emitted matches,
    and its state is the fold of its updates over them. *)
Lemma foreachRGBA_never_stopped {S : Type} (ctx : Context)
    (canvas sample : image.RGBA) (tolerance : Q)
    (f : Match -> S -> option error * S) (s : S) :
  (forall m st, fst (f m st) = None) ->
  foreachRGBA ctx canvas sample tolerance f s =
  (fst (foreachRGBA ctx canvas sample tolerance keepGoing tt),
   fold_left (fun st m => snd (f m st)) (emitted ctx canvas sample tolerance) s) /\
  calls ctx canvas sample tolerance f s =
  map (fun m => (m, None)) (emitted ctx canvas sample tolerance).
Proof.
  intros Hf. unfold emitted. rewrite !calls_walk, !foreachRGBA_walk.
  set (cmp := compareAt canvas sample tolerance).
  set (mk := matchAt canvas sample).
  set (evs := scanEvents canvas sample).
  destruct (walk_never_stopped ctx cmp mk f keepGoing evs s tt Hf) as [Ecalls Eres];
    [reflexivity|].
  split.
  - rewrite <- Ecalls, <- Eres, <- walk_state.
    now destruct (walk ctx cmp mk f evs s).
  - rewrite <- Ecalls. rewrite !map_map.
    apply map_ext_in. intros c Hc. unfold logged; cbn. f_equal.
    revert c Hc. generalize s. clear Ecalls Eres.
    induction evs as [|[k|x y] evs IH]; intros s0 c Hc; cbn in Hc.
    + contradiction.
    + destruct (ctx k); [contradiction | eauto].
    + destruct (cmp x y) as [diff| | |]; try contradiction; [|eauto].
      pose proof (Hf (mk x y diff) s0) as Ef.
      destruct (f (mk x y diff) s0) as [ef s']. cbn in Ef. subst ef.
      destruct Hc as [<-|Hc]; [reflexivity | eauto].
Qed.

Lemma fold_collect (l acc : list Match) :
  fold_left (fun st m => snd (collect m st)) l acc = acc ++ l.
Proof.
  revert acc. induction l as [|m l IH]; intros acc; cbn.
  - now rewrite app_nil_r.
  - rewrite IH. now rewrite <- app_assoc.
Qed.

Lemma insertMatch_perm (m : Match) (mm : list Match) :
  Permutation (insertMatch m mm) (m :: mm).
Proof.
  induction mm as [|m' mm IH]; cbn; [reflexivity|].
  destruct (Before m' m); [|reflexivity].
  rewrite IH. apply perm_swap.
Qed.

Lemma Sort_perm (mm : list Match) : Permutation (Sort mm) mm.
Proof.
  induction mm as [|m mm IH]; cbn; [reflexivity|].
  rewrite insertMatch_perm. now constructor.
Qed.

(** [All] returns the emitted matches, sorted, with the error of the scan. *)
Lemma All_emitted (ctx : Context) (canvas sample : image.RGBA) (tolerance : Q) :
  exists mm,
    All ctx (image.RGBAImage canvas) (image.RGBAImage sample) tolerance =
    (fst (foreachRGBA ctx canvas sample tolerance keepGoing tt), mm) /\
    Permutation mm (emitted ctx canvas sample tolerance).
Proof.
  unfold All, Foreach.
  destruct (foreachRGBA_never_stopped ctx canvas sample tolerance collect [])
    as [E _]; [reflexivity|].
  rewrite E, fold_collect. cbn [app].
  destruct (fst (foreachRGBA ctx canvas sample tolerance keepGoing tt)) as [err| |].
  - eexists. split; [reflexivity | apply Sort_perm].
  - eexists. split; reflexivity.
  - eexists. split; reflexivity.
Qed.

Lemma foreachRGBA_state {S : Type} (ctx : Context)
    (canvas sample : image.RGBA) (tolerance : Q)
    (f : Match -> S -> option error * S) (s : S) :
  snd (foreachRGBA ctx canvas sample tolerance f s) =
  fold_left (fun st m => snd (f m st))
    (map fst (calls ctx canvas sample tolerance f s)) s.
Proof.
  rewrite calls_walk, foreachRGBA_walk. apply walk_state.
Qed.

(** ** C6 *)

Lemma pixelLoop_exact (pc ps : list byte) (total : Z) (fuel : nat)
    (icanv isamp isampmax diff : Z) :
  pixelLoop pc ps 0 total fuel icanv isamp isampmax 0 = LoopDone diff -> diff = 0.
Proof.
  revert icanv isamp. induction fuel as [|fuel IH]; intros icanv isamp; cbn.
  - destruct (isamp <? isampmax); [discriminate | congruence].
  - destruct (isamp <? isampmax); [|congruence].
    destruct (pixelDelta pc ps icanv isamp) as [delta|] eqn:E; [|discriminate].
    apply pixelDelta_bound in E.
    destruct (delta >? 0) eqn:Ed; [discriminate|].
    assert (delta = 0) by lia. subst delta.
    change (0 + 0)%i64 with 0.
    destruct (0 >? total); [discriminate | apply IH].
Qed.

Lemma sampleRowLoop_exact (pc ps : list byte) (strideCanv strideSamp wsamp total : Z)
    (fuel : nat) (rowsamp rowsampmax rowcanv diff : Z) :
  sampleRowLoop pc ps strideCanv strideSamp wsamp 0 total fuel
    rowsamp rowsampmax rowcanv 0 = LoopDone diff ->
  diff = 0.
Proof.
  revert rowsamp rowcanv. induction fuel as [|fuel IH]; intros rowsamp rowcanv; cbn.
  - destruct (rowsamp <? rowsampmax); [discriminate | congruence].
  - destruct (rowsamp <? rowsampmax); [|congruence].
    destruct (pixelLoop pc ps 0 total _ rowcanv rowsamp _ 0) as [d| | |] eqn:E;
      try discriminate.
    apply pixelLoop_exact in E. subst d. apply IH.
Qed.

Lemma pixelDiffThreshold_zero : pixelDiffThreshold 0 = 0.
Proof. reflexivity. Qed.

(** At tolerance 0 a window is accepted only with a [diff] of 0. *)
Lemma compareAt_exact (canvas sample : image.RGBA) (x y diff : Z) :
  compareAt canvas sample 0 x y = LoopDone diff -> diff = 0.
Proof.
  unfold compareAt, matchLoop. rewrite pixelDiffThreshold_zero.
  apply sampleRowLoop_exact.
Qed.

Lemma similarityOf_zero (total : Z) : similarityOf 0 total = 1%Q.
Proof.
  unfold similarityOf.
  change 1%Q with (Qred 1). apply Qred_complete.
  unfold float_of_int64. setoid_replace (inject_Z 0 / inject_Z total)%Q with 0%Q.
  - reflexivity.
  - unfold Qdiv. apply Qmult_0_l.
Qed.

(** What [Find] holds in [best] is one of the matches it was called with,
    or the value it started from. *)
Lemma keepBest_fold_in (selection : Selection) (l : list Match) (best : Match) (count : Z) :
  In (fst (fold_left (fun st m => snd (keepBest selection m st)) l (best, count)))
     (best :: l).
Proof.
  revert best count. induction l as [|m l IH]; intros best count; cbn [fold_left].
  - now left.
  - unfold keepBest at 2.
    destruct ((count =? 0) || Qgt_bool (Similarity m) (Similarity best));
      destruct (selection =? Fastest); cbn [snd];
      match goal with
      | |- In (fst (fold_left _ _ (?b, ?c))) _ =>
          destruct (IH b c) as [H|H]; [rewrite <- H|]; cbn; auto
      end.
Qed.

(** C6: at tolerance 0 every reported match has similarity exactly 1: the
    matches handed to the callback of [Foreach], the matches in the list of
    [All], and the match that [Find] returns, which is a match of the scan
    unless none was seen (then it is the zero [Match], and the error is not
    nil).  (The score is a quotient by [maxTotalDiff], taken to be
    different from 0.) *)
Theorem C6_zero_tolerance_exact (ctx : Context) (canvas sample : image.RGBA) :
  maxTotalDiff canvas sample <> 0 ->
  (forall (S : Type) (f : Match -> S -> option error * S) (s : S) m e,
     In (m, e) (calls ctx canvas sample 0 f s) -> Similarity m = 1%Q) /\
  (forall result mm m,
     All ctx (image.RGBAImage canvas) (image.RGBAImage sample) 0 = (result, mm) ->
     In m mm -> Similarity m = 1%Q) /\
  (forall selection result m,
     Find ctx (image.RGBAImage canvas) (image.RGBAImage sample) 0 selection
     = (result, m) ->
     (m = zeroMatch \/ Similarity m = 1%Q) /\
     (result = Returns None -> Similarity m = 1%Q)).
Proof.
  intros _.
  assert (Hcalls : forall (S : Type) (f : Match -> S -> option error * S) (s : S) m e,
            In (m, e) (calls ctx canvas sample 0 f s) -> Similarity m = 1%Q).
  { intros S f s m e Hin.
    destruct (calls_inversion _ _ _ _ _ _ _ _ Hin)
      as (x & y & diff & -> & _ & _ & _ & Hcmp).
    apply compareAt_exact in Hcmp. subst diff. apply similarityOf_zero. }
  split; [exact Hcalls | split].
  - intros result mm m Hall Hin.
    destruct (All_emitted ctx canvas sample 0) as (mm' & E & Hperm).
    rewrite E in Hall. injection Hall as _ <-.
    apply (Permutation_in _ Hperm) in Hin.
    unfold emitted in Hin. apply in_map_iff in Hin.
    destruct Hin as ([m' e] & <- & Hin). eauto.
  - intros selection result m Hfind. unfold Find, Foreach in Hfind.
    pose proof (foreachRGBA_state ctx canvas sample 0 (keepBest selection)
                  (zeroMatch, 0)) as Hstate.
    destruct (foreachRGBA ctx canvas sample 0 (keepBest selection) (zeroMatch, 0))
      as [res [best count]].
    cbn [snd] in Hstate.
    assert (Hm : m = best).
    { destruct res as [err| |]; injection Hfind as _ Hm; now symmetry. }
    subst m.
    destruct (map fst (calls ctx canvas sample 0 (keepBest selection) (zeroMatch, 0)))
      as [|m1 l] eqn:El.
    + (* the callback was never called *)
      cbn in Hstate. injection Hstate as -> ->.
      split; [now left|]. intros ->.
      destruct res as [[e|]| |]; try discriminate.
      destruct (error_eqb e ErrBreak); discriminate.
    + (* [best] is one of the matches the callback was called with *)
      assert (Hbest : In best (m1 :: l)).
      { pose proof (keepBest_fold_in selection l m1 (0 + 1)%i64) as Hfold.
        cbn [fold_left] in Hstate. unfold keepBest at 2 in Hstate.
        cbn [Z.eqb orb] in Hstate.
        destruct (selection =? Fastest); cbn [snd] in Hstate;
          rewrite <- Hstate in Hfold; exact Hfold. }
      rewrite <- El in Hbest. apply in_map_iff in Hbest.
      destruct Hbest as ([m' e] & <- & Hin).
      cbn [fst]. split; [right|intros _]; eauto.
Qed.

Lemma C6_zero_tolerance_exact_witness :
  Similarity (matchAt (twoPixels white black) (onePixel black) 1 0 0) = 1%Q.
Proof.
  destruct (C6_zero_tolerance_exact background (twoPixels white black)
              (onePixel black)) as [Hcalls _].
  - vm_compute. discriminate.
  - apply (Hcalls unit keepGoing tt _ None). vm_compute. left. reflexivity.
Defined.

(** ** C4 *)

Lemma Qgt_bool_true (a b : Q) : Qgt_bool a b = true <-> (b < a)%Q.
Proof.
  unfold Qgt_bool. rewrite negb_true_iff. split.
  - intros H. apply Qnot_le_lt. intros Hle.
    apply Qle_bool_iff in Hle. congruence.
  - intros H. destruct (Qle_bool a b) eqn:E; [|reflexivity].
    apply Qle_bool_iff in E. exfalso. exact (Qlt_not_le _ _ H E).
Qed.

Lemma Qgt_bool_false (a b : Q) : Qgt_bool a b = false <-> (a <= b)%Q.
Proof.
  unfold Qgt_bool. rewrite negb_false_iff. apply Qle_bool_iff.
Qed.

Lemma keepBest_fold_spec (selection : Selection) (l : list Match) :
  Z.of_nat (length l) < Int64.half ->
  exists best,
    fold_left (fun st m => snd (keepBest selection m st)) l (zeroMatch, 0)
    = (best, Z.of_nat (length l)) /\
    (l = [] -> best = zeroMatch) /\
    (l <> [] -> firstBest l best).
Proof.
  induction l as [|m l IH] using rev_ind; intros Hlen.
  - exists zeroMatch. cbn. split; [reflexivity | split; [auto | congruence]].
  - rewrite length_app in Hlen. cbn [length] in Hlen.
    destruct IH as (best & Efold & Hnil & Hbest); [lia|].
    rewrite fold_left_app, Efold. cbn [fold_left].
    assert (Ecount : (Z.of_nat (length l) + 1)%i64 = Z.of_nat (length (l ++ [m]))).
    { rewrite length_app. cbn [length]. unfold Int64.add.
      rewrite wrap_small by (unfold Int64.in_range; rewrite half_value in *; lia).
      lia. }
    unfold keepBest.
    destruct (Z.of_nat (length l) =? 0) eqn:Ezero; cbn [orb].
    + (* the first match *)
      assert (l = []) by (destruct l; [reflexivity | cbn in Ezero; lia]). subst l.
      exists m. split; [|split].
      * destruct (selection =? Fastest); cbn [snd]; now rewrite Ecount.
      * intros H. destruct (app_cons_not_nil _ _ _ (eq_sym H)).
      * intros _. exists [], []. cbn. auto.
    + assert (Hl : l <> []) by (intros ->; cbn in Ezero; discriminate).
      destruct (Hbest Hl) as (pre & post & El & Hpre & Hpost).
      destruct (Qgt_bool (Similarity m) (Similarity best)) eqn:Egt.
      * (* a strictly better match replaces the held one *)
        apply Qgt_bool_true in Egt.
        exists m. split; [|split].
        -- destruct (selection =? Fastest); cbn [snd]; now rewrite Ecount.
        -- intros H. destruct (app_cons_not_nil _ _ _ (eq_sym H)).
        -- intros _. exists l, []. split; [reflexivity|]. split; [|constructor].
           rewrite El. apply Forall_app. split; [|constructor].
           ++ eapply Forall_impl; [|exact Hpre].
              cbn. intros a Ha. eapply Qlt_trans; eassumption.
           ++ assumption.
           ++ eapply Forall_impl; [|exact Hpost].
              cbn. intros a Ha. eapply Qle_lt_trans; eassumption.
      * (* otherwise the held match stays *)
        apply Qgt_bool_false in Egt.
        exists best. split; [|split].
        -- destruct (selection =? Fastest); cbn [snd]; now rewrite Ecount.
        -- intros H. destruct (app_cons_not_nil _ _ _ (eq_sym H)).
        -- intros _. exists pre, (post ++ [m]). split; [|split].
           ++ rewrite El, <- app_assoc. reflexivity.
           ++ assumption.
           ++ apply Forall_app. split; [assumption|]. constructor; [assumption|constructor].
Qed.

(** C4: in [Best] and [Only] mode the callback of [Find] never stops the
    scan: it is called for every emitted match and answers nil each time.
    [Find] returns the first of the matches of greatest similarity (a later
    match replaces the held one only with a strictly greater similarity).
    After a scan that ran to its end it reports [ErrNotFound] when no match
    was seen, and in [Only] mode [ErrMultipleFound], together with that
    best match, when more than one was seen.  ([count] is an [int]: the
    number of matches is taken to be below 2^63; the scores are quotients
    by [maxTotalDiff], taken to be different from 0.) *)
Theorem C4_find_best (ctx : Context) (canvas sample : image.RGBA)
    (tolerance : Q) (selection : Selection) :
  selection = Best \/ selection = Only ->
  maxTotalDiff canvas sample <> 0 ->
  Z.of_nat (length (emitted ctx canvas sample tolerance)) < Int64.half ->
  let seen := emitted ctx canvas sample tolerance in
  let scan := fst (foreachRGBA ctx canvas sample tolerance keepGoing tt) in
  calls ctx canvas sample tolerance (keepBest selection) (zeroMatch, 0)
  = map (fun m => (m, None)) seen /\
  exists result best,
    Find ctx (image.RGBAImage canvas) (image.RGBAImage sample) tolerance selection
    = (result, best) /\
    (seen = [] -> best = zeroMatch) /\
    (seen <> [] -> firstBest seen best) /\
    (scan = Returns None -> seen = [] -> result = Returns (Some ErrNotFound)) /\
    (scan = Returns None -> selection = Only -> (1 < length seen)%nat ->
     result = Returns (Some ErrMultipleFound)) /\
    (scan = Returns None -> selection = Only -> length seen = 1%nat ->
     result = Returns None) /\
    (scan = Returns None -> selection = Best -> seen <> [] ->
     result = Returns None).
Proof.
  intros Hsel _ Hlen seen scan.
  assert (Hnever : forall m st, fst (keepBest selection m st) = None).
  { intros m [b c]. unfold keepBest.
    destruct Hsel as [-> | ->]; reflexivity. }
  destruct (foreachRGBA_never_stopped ctx canvas sample tolerance
              (keepBest selection) (zeroMatch, 0) Hnever) as [Erun Ecalls].
  split; [exact Ecalls|].
  destruct (keepBest_fold_spec selection seen Hlen) as (best & Efold & Hnil & Hbest).
  unfold Find, Foreach. rewrite Erun. fold seen. rewrite Efold. fold scan.
  destruct scan as [[e|]| |] eqn:Escan.
  - eexists _, best. split; [reflexivity|].
    repeat split; try assumption; intros; discriminate.
  - eexists _, best. split; [reflexivity|].
    split; [assumption|]. split; [assumption|].
    split; [|split; [|split]].
    + intros _ ->. reflexivity.
    + intros _ -> Hmany.
      destruct (Z.of_nat (length seen) =? 0) eqn:E0; [lia|].
      destruct (Z.of_nat (length seen) >? 1) eqn:E1; [reflexivity | lia].
    + intros _ -> Hone. rewrite Hone. reflexivity.
    + intros _ -> Hne.
      destruct (Z.of_nat (length seen) =? 0) eqn:E0; [|reflexivity].
      destruct seen; [congruence | cbn in E0; lia].
  - exists Panics, best.
    repeat split; try assumption; intros; discriminate.
  - exists Hangs, best.
    repeat split; try assumption; intros; discriminate.
Qed.

Lemma C4_find_best_witness :
  exists result best,
    Find background (image.RGBAImage (twoPixels white black))
      (image.RGBAImage (onePixel black)) (1 # 2) Only = (result, best) /\
    result = Returns (Some ErrMultipleFound) /\
    best = matchAt (twoPixels white black) (onePixel black) 1 0 0.
Proof.
  destruct (C4_find_best background (twoPixels white black) (onePixel black)
              (1 # 2) Only) as (_ & result & best & Efind & _ & Hfirst & _ & Hmany & _).
  - right. reflexivity.
  - vm_compute. discriminate.
  - vm_compute. reflexivity.
  - exists result, best. split; [exact Efind|]. split.
    + apply Hmany; [vm_compute; reflexivity | reflexivity | vm_compute; lia].
    + vm_compute in Efind. injection Efind as _ <-. vm_compute. reflexivity.
Defined.

(** ** C1 and C2: the thresholds on concrete images *)

(** Without overflow, [maxTotalDiff] is 3 * 255 times the number of window
    origins of the scan; it does not depend on the area of the sample. *)
Lemma maxTotalDiff_spec (canvas sample : image.RGBA) :
  0 < image.Dx (image.Rect sample) <= image.Dx (image.Rect canvas) ->
  0 < image.Dy (image.Rect sample) <= image.Dy (image.Rect canvas) ->
  (image.Dx (image.Rect canvas) - image.Dx (image.Rect sample) + 1) *
  (image.Dy (image.Rect canvas) - image.Dy (image.Rect sample) + 1) * 765
  < Int64.half ->
  maxTotalDiff canvas sample =
  (image.Dx (image.Rect canvas) - image.Dx (image.Rect sample) + 1) *
  (image.Dy (image.Rect canvas) - image.Dy (image.Rect sample) + 1) * 3 * 255.
Proof.
  intros Hx Hy Hsmall. unfold maxTotalDiff.
  rewrite (scanWidth_spec _ _ Hx), (scanHeight_spec _ _ Hy).
  set (w := image.Dx (image.Rect canvas) - image.Dx (image.Rect sample) + 1) in *.
  set (h := image.Dy (image.Rect canvas) - image.Dy (image.Rect sample) + 1) in *.
  assert (Hw : 0 < w) by (unfold w; lia).
  assert (Hh : 0 < h) by (unfold h; lia).
  assert (Hwh : 0 < w * h) by nia.
  rewrite half_value in Hsmall.
  unfold Int64.mul.
  rewrite (wrap_small (w * h)) by (unfold Int64.in_range; rewrite half_value; nia).
  rewrite (wrap_small (w * h * 3)) by (unfold Int64.in_range; rewrite half_value; nia).
  rewrite wrap_small by (unfold Int64.in_range; rewrite half_value; nia).
  reflexivity.
Qed.

(** C1 on a canvas of two pixels, white then black, searched for one black
    pixel at tolerance 1/2.  The code derives its window threshold and its
    similarity from [maxTotalDiff] = 2 * 1 * 3 * 255 = 1530, the number of
    window origins times 765, where the area of the sample gives 765: the
    threshold is 765 instead of 383, so that the white window, whose diff
    is 765 (as different from the sample as a window can be), is accepted,
    and it is reported with similarity 1/2 instead of 0. *)
Theorem C1_threshold_uses_window_count :
  let canvas := twoPixels white black in
  let sample := onePixel black in
  maxTotalDiff canvas sample = 1530 /\
  spec_maxTotalDiff sample = 765 /\
  totalDiffThreshold canvas sample (1 # 2) = 765 /\
  spec_windowThreshold sample (1 # 2) = 383 /\
  compareAt canvas sample (1 # 2) 0 0 = LoopDone 765 /\
  emitted background canvas sample (1 # 2) =
    [matchAt canvas sample 0 0 765; matchAt canvas sample 1 0 0] /\
  Similarity (matchAt canvas sample 0 0 765) = (1 # 2)%Q /\
  spec_similarity sample 765 = 0%Q.
Proof.
  cbn zeta. repeat split; vm_compute; reflexivity.
Qed.

(** The package's own test ([TestAll], sample 1 at 4%) expects the score
    99.9882% for a window of diff 750 (75 pixels that differ by 10) of the
    100x100 canvas and the 10x10 sample: that is the score of the code,
    with [maxTotalDiff] = 91 * 91 * 765; the area of the sample would give
    101/102, that is 99.0196%. *)
Lemma TestAll_expected_score (pixCanv pixSamp : list byte) :
  maxTotalDiff (newRGBA 100 100 pixCanv) (newRGBA 10 10 pixSamp) = 6334965 /\
  (99988150 # 100000000 <= similarityOf 750 6334965)%Q /\
  (similarityOf 750 6334965 < 99988250 # 100000000)%Q /\
  spec_similarity (newRGBA 10 10 pixSamp) 750 = (101 # 102)%Q.
Proof.
  repeat split; vm_compute; congruence.
Qed.

(** C2 on a canvas of one black pixel searched for one pixel whose red
    channel is 1, at tolerance 1/1024.  The window threshold is
    int64(765/1024 + 0.5) = 1, the diff of the window is 1, and the match is
    handed to the callback with similarity 764/765, which is less than
    1 - 1/1024. *)
Theorem C2_similarity_below_bound :
  let canvas := onePixel black in
  let sample := onePixel nearBlack in
  totalDiffThreshold canvas sample (1 # 1024) = 1 /\
  pixelDiffThreshold (1 # 1024) = 2 /\
  calls background canvas sample (1 # 1024) keepGoing tt =
    [(matchAt canvas sample 0 0 1, None)] /\
  Similarity (matchAt canvas sample 0 0 1) = (764 # 765)%Q /\
  (Similarity (matchAt canvas sample 0 0 1) < 1 - (1 # 1024))%Q.
Proof.
  cbn zeta. repeat split; vm_compute; reflexivity.
Qed.

(** ** The similarity that the window threshold guarantees *)

Lemma pixelLoop_within (pc ps : list byte) (p t : Z) (fuel : nat)
    (icanv isamp isampmax diff d : Z) :
  diff <= t ->
  pixelLoop pc ps p t fuel icanv isamp isampmax diff = LoopDone d -> d <= t.
Proof.
  revert icanv isamp diff. induction fuel as [|fuel IH]; intros icanv isamp diff Hd; cbn.
  - destruct (isamp <? isampmax); [discriminate | congruence].
  - destruct (isamp <? isampmax); [|congruence].
    destruct (pixelDelta pc ps icanv isamp) as [delta|]; [|discriminate].
    destruct (delta >? p); [discriminate|].
    destruct ((diff + delta)%i64 >? t) eqn:E; [discriminate|].
    apply IH. lia.
Qed.

Lemma sampleRowLoop_within (pc ps : list byte) (strideCanv strideSamp wsamp p t : Z)
    (fuel : nat) (rowsamp rowsampmax rowcanv diff d : Z) :
  diff <= t ->
  sampleRowLoop pc ps strideCanv strideSamp wsamp p t fuel
    rowsamp rowsampmax rowcanv diff = LoopDone d ->
  d <= t.
Proof.
  revert rowsamp rowcanv diff.
  induction fuel as [|fuel IH]; intros rowsamp rowcanv diff Hd; cbn.
  - destruct (rowsamp <? rowsampmax); [discriminate | congruence].
  - destruct (rowsamp <? rowsampmax); [|congruence].
    destruct (pixelLoop pc ps p t _ rowcanv rowsamp _ diff) as [d'| | |] eqn:E;
      try discriminate.
    apply pixelLoop_within in E; [|assumption]. now apply IH.
Qed.

(** An accepted window stays within the integer window threshold, which
    exceeds [tolerance * maxTotalDiff] by at most 1/2: the similarity of a
    match is at least [1 - tolerance - 1 / (2 * maxTotalDiff)]. *)
Lemma similarity_lower_bound {S : Type} (ctx : Context)
    (canvas sample : image.RGBA) (tolerance : Q)
    (f : Match -> S -> option error * S) (s : S) (m : Match) (e : option error) :
  (0 <= tolerance)%Q ->
  0 < maxTotalDiff canvas sample ->
  In (m, e) (calls ctx canvas sample tolerance f s) ->
  (1 - tolerance - (1 # 2) / inject_Z (maxTotalDiff canvas sample)
   <= Similarity m)%Q.
Proof.
  intros Ht HM Hin.
  destruct (calls_inversion _ _ _ _ _ _ _ _ Hin)
    as (x & y & diff & -> & _ & _ & _ & Hcmp).
  set (M := maxTotalDiff canvas sample) in *.
  assert (HMq : (0 < inject_Z M)%Q)
    by (change 0%Q with (inject_Z 0); now rewrite <- Zlt_Qlt).
  assert (Hraw : (0 <= tolerance * inject_Z M + (1 # 2))%Q).
  { apply Qle_trans with (0 + 0)%Q; [discriminate|].
    apply Qplus_le_compat; [|discriminate].
    apply Qmult_le_0_compat; [assumption | now apply Qlt_le_weak]. }
  assert (Hthr : totalDiffThreshold canvas sample tolerance
                 = Qfloor (tolerance * inject_Z M + (1 # 2))).
  { unfold totalDiffThreshold, int64_of_float, float_of_int64. fold M.
    apply Qle_bool_iff in Hraw. now rewrite Hraw. }
  assert (Hdiff : diff <= totalDiffThreshold canvas sample tolerance).
  { unfold compareAt, matchLoop in Hcmp.
    apply sampleRowLoop_within in Hcmp; [assumption|].
    rewrite Hthr. change 0 with (Qfloor 0). now apply Qfloor_resp_le. }
  rewrite Hthr in Hdiff.
  assert (Hq : (inject_Z diff <= tolerance * inject_Z M + (1 # 2))%Q).
  { eapply Qle_trans; [|apply Qfloor_le]. now rewrite <- Zle_Qle. }
  assert (Hquot : (inject_Z diff / inject_Z M
                   <= tolerance + (1 # 2) / inject_Z M)%Q).
  { apply Qle_shift_div_r; [assumption|].
    setoid_replace ((tolerance + (1 # 2) / inject_Z M) * inject_Z M)%Q
      with (tolerance * inject_Z M + (1 # 2))%Q; [assumption|].
    field. intros H0. rewrite H0 in HMq. discriminate. }
  unfold matchAt, similarityOf, float_of_int64. cbn [Similarity]. fold M.
  rewrite Qred_correct.
  unfold Qdiv in *.
  set (a := inject_Z diff) in *. set (b := (/ inject_Z M)%Q) in *.
  lra.
Qed.

(** ** C5: thresholds grow with the tolerance *)

Lemma int64_of_float_mono (x y : Q) :
  (x <= y)%Q -> int64_of_float x <= int64_of_float y.
Proof.
  intros Hxy. unfold int64_of_float.
  destruct (Qle_bool 0 x) eqn:Ex; destruct (Qle_bool 0 y) eqn:Ey.
  - now apply Qfloor_resp_le.
  - apply Qle_bool_iff in Ex.
    assert (H : (0 <= y)%Q) by (eapply Qle_trans; eassumption).
    apply Qle_bool_iff in H. congruence.
  - apply Qle_bool_iff in Ey.
    assert (Hx : (x <= 0)%Q).
    { destruct (Qlt_le_dec x 0) as [H|H]; [now apply Qlt_le_weak|].
      apply Qle_bool_iff in H. congruence. }
    apply Qceiling_resp_le in Hx. apply Qfloor_resp_le in Ey.
    change (Qceiling 0) with 0 in Hx. change (Qfloor 0) with 0 in Ey. lia.
  - now apply Qceiling_resp_le.
Qed.

Lemma pixelDiffThreshold_mono (t1 t2 : Q) :
  (t1 <= t2)%Q -> pixelDiffThreshold t1 <= pixelDiffThreshold t2.
Proof.
  intros H. unfold pixelDiffThreshold. apply int64_of_float_mono.
  apply Qplus_le_l. apply Qmult_le_l; [reflexivity|].
  apply Qmult_le_l; [reflexivity | assumption].
Qed.

Lemma totalDiffThreshold_mono (canvas sample : image.RGBA) (t1 t2 : Q) :
  0 <= maxTotalDiff canvas sample ->
  (t1 <= t2)%Q ->
  totalDiffThreshold canvas sample t1 <= totalDiffThreshold canvas sample t2.
Proof.
  intros HM H. unfold totalDiffThreshold. apply int64_of_float_mono.
  apply Qplus_le_l. unfold float_of_int64.
  apply Qmult_le_compat_r; [assumption|].
  change 0%Q with (inject_Z 0). now rewrite <- Zle_Qle.
Qed.

Lemma pixelLoop_mono (pc ps : list byte) (p1 t1 p2 t2 : Z) (fuel : nat)
    (icanv isamp isampmax diff d : Z) :
  p1 <= p2 -> t1 <= t2 ->
  pixelLoop pc ps p1 t1 fuel icanv isamp isampmax diff = LoopDone d ->
  pixelLoop pc ps p2 t2 fuel icanv isamp isampmax diff = LoopDone d.
Proof.
  intros Hp Ht. revert icanv isamp diff.
  induction fuel as [|fuel IH]; intros icanv isamp diff; cbn.
  - auto.
  - destruct (isamp <? isampmax); [|auto].
    destruct (pixelDelta pc ps icanv isamp) as [delta|]; [|auto].
    destruct (delta >? p1) eqn:E1; [discriminate|].
    destruct (delta >? p2) eqn:E2; [lia|].
    destruct ((diff + delta)%i64 >? t1) eqn:E3; [discriminate|].
    destruct ((diff + delta)%i64 >? t2) eqn:E4; [lia|].
    apply IH.
Qed.

Lemma sampleRowLoop_mono (pc ps : list byte) (strideCanv strideSamp wsamp : Z)
    (p1 t1 p2 t2 : Z) (fuel : nat) (rowsamp rowsampmax rowcanv diff d : Z) :
  p1 <= p2 -> t1 <= t2 ->
  sampleRowLoop pc ps strideCanv strideSamp wsamp p1 t1 fuel
    rowsamp rowsampmax rowcanv diff = LoopDone d ->
  sampleRowLoop pc ps strideCanv strideSamp wsamp p2 t2 fuel
    rowsamp rowsampmax rowcanv diff = LoopDone d.
Proof.
  intros Hp Ht. revert rowsamp rowcanv diff.
  induction fuel as [|fuel IH]; intros rowsamp rowcanv diff; cbn.
  - auto.
  - destruct (rowsamp <? rowsampmax); [|auto].
    destruct (pixelLoop pc ps p1 t1 _ rowcanv rowsamp _ diff) as [d'| | |] eqn:E;
      try discriminate.
    rewrite (pixelLoop_mono _ _ _ _ _ _ _ _ _ _ _ _ Hp Ht E).
    apply IH.
Qed.

(** A window accepted at a tolerance is accepted, with the same [diff], at
    every greater tolerance. *)
Lemma compareAt_mono (canvas sample : image.RGBA) (t1 t2 : Q) (x y d : Z) :
  0 <= maxTotalDiff canvas sample ->
  (t1 <= t2)%Q ->
  compareAt canvas sample t1 x y = LoopDone d ->
  compareAt canvas sample t2 x y = LoopDone d.
Proof.
  intros HM Ht. unfold compareAt, matchLoop.
  apply sampleRowLoop_mono.
  - now apply pixelDiffThreshold_mono.
  - now apply totalDiffThreshold_mono.
Qed.

(** ** C5: images laid out as the [image] package lays them out *)

Lemma addressable_value : addressable = 281474976710656.
Proof. reflexivity. Qed.

Lemma wrap_addressable (n : Z) :
  0 <= n < 8 * addressable -> Int64.wrap n = n.
Proof.
  intros H. apply wrap_small. unfold Int64.in_range.
  rewrite half_value. rewrite addressable_value in H. lia.
Qed.

Lemma index_some (pix : list byte) (i : Z) :
  0 <= i < Z.of_nat (length pix) -> exists v, index pix i = Some v.
Proof.
  intros H. unfold index.
  replace ((0 <=? i) && (i <? Z.of_nat (length pix))) with true
    by (symmetry; apply andb_true_iff; split; [apply Z.leb_le | apply Z.ltb_lt]; lia).
  destruct (nth_error pix (Z.to_nat i)) as [b|] eqn:E.
  - eexists. reflexivity.
  - apply nth_error_None in E. lia.
Qed.

Lemma pixelDelta_some (pc ps : list byte) (icanv isamp : Z) :
  Z.of_nat (length pc) < addressable -> Z.of_nat (length ps) < addressable ->
  0 <= icanv -> icanv + 4 <= Z.of_nat (length pc) ->
  0 <= isamp -> isamp + 4 <= Z.of_nat (length ps) ->
  exists delta, pixelDelta pc ps icanv isamp = Some delta.
Proof.
  intros Lc Ls Hc0 Hc1 Hs0 Hs1. unfold pixelDelta, Int64.add.
  rewrite addressable_value in *.
  rewrite !wrap_addressable by (rewrite addressable_value; lia).
  destruct (index_some pc (icanv + 0)) as [c0 ->]; [lia|].
  destruct (index_some ps (isamp + 0)) as [s0 ->]; [lia|].
  destruct (index_some pc (icanv + 1)) as [c1 ->]; [lia|].
  destruct (index_some ps (isamp + 1)) as [s1 ->]; [lia|].
  destruct (index_some pc (icanv + 2)) as [c2 ->]; [lia|].
  destruct (index_some ps (isamp + 2)) as [s2 ->]; [lia|].
  eexists. reflexivity.
Qed.

Lemma pixelLoop_decided (pc ps : list byte) (p t : Z) (n : nat) :
  Z.of_nat (length pc) < addressable -> Z.of_nat (length ps) < addressable ->
  forall (fuel : nat) (icanv isamp diff : Z),
    (n <= fuel)%nat ->
    0 <= icanv -> icanv + 4 * Z.of_nat n <= Z.of_nat (length pc) ->
    0 <= isamp -> isamp + 4 * Z.of_nat n <= Z.of_nat (length ps) ->
    decided (pixelLoop pc ps p t fuel icanv isamp (isamp + 4 * Z.of_nat n) diff).
Proof.
  intros Lc Ls. induction n as [|n IH]; intros fuel icanv isamp diff Hf Hc0 Hc1 Hs0 Hs1.
  - assert (E : (isamp <? isamp + 4 * Z.of_nat 0) = false) by (apply Z.ltb_ge; lia).
    destruct fuel; cbn [pixelLoop]; rewrite E; exact I.
  - destruct fuel as [|fuel]; [lia|]. cbn [pixelLoop].
    replace (isamp <? isamp + 4 * Z.of_nat (S n)) with true
      by (symmetry; apply Z.ltb_lt; lia).
    destruct (pixelDelta_some pc ps icanv isamp) as [delta ->]; try assumption; try lia.
    destruct (delta >? p); [exact I|].
    destruct ((diff + delta)%i64 >? t); [exact I|].
    unfold pixSize, Int64.add at 1 2.
    rewrite (wrap_addressable (icanv + 4)) by (rewrite addressable_value in *; lia).
    rewrite (wrap_addressable (isamp + 4)) by (rewrite addressable_value in *; lia).
    replace (isamp + 4 * Z.of_nat (S n)) with (isamp + 4 + 4 * Z.of_nat n) by lia.
    apply IH; lia.
Qed.

Lemma sampleRowLoop_decided (pc ps : list byte) (strideCanv strideSamp wsamp p t : Z)
    (r : nat) :
  Z.of_nat (length pc) < addressable -> Z.of_nat (length ps) < addressable ->
  0 < strideSamp < addressable -> 0 <= strideCanv < addressable -> 0 <= wsamp ->
  forall (fuel : nat) (rowsamp rowcanv diff : Z),
    (r <= fuel)%nat ->
    0 <= rowsamp -> 0 <= rowcanv ->
    rowsamp + Z.of_nat r * strideSamp < 4 * addressable ->
    rowcanv + Z.of_nat r * strideCanv < 4 * addressable ->
    ((0 < r)%nat ->
     rowsamp + (Z.of_nat r - 1) * strideSamp + 4 * wsamp <= Z.of_nat (length ps) /\
     rowcanv + (Z.of_nat r - 1) * strideCanv + 4 * wsamp <= Z.of_nat (length pc)) ->
    decided (sampleRowLoop pc ps strideCanv strideSamp wsamp p t fuel
               rowsamp (rowsamp + Z.of_nat r * strideSamp) rowcanv diff).
Proof.
  intros Lc Ls Hss Hsc Hw.
  induction r as [|r IH]; intros fuel rowsamp rowcanv diff Hf Hs0 Hc0 Bs Bc Hrows.
  - assert (E : (rowsamp <? rowsamp + Z.of_nat 0 * strideSamp) = false)
      by (apply Z.ltb_ge; lia).
    destruct fuel; cbn [sampleRowLoop]; rewrite E; exact I.
  - destruct fuel as [|fuel]; [lia|]. cbn [sampleRowLoop].
    replace (rowsamp <? rowsamp + Z.of_nat (S r) * strideSamp) with true
      by (symmetry; apply Z.ltb_lt; nia).
    destruct Hrows as [Rs Rc]; [lia|].
    assert (Hrs : 0 <= Z.of_nat r * strideSamp) by nia.
    assert (Hrc : 0 <= Z.of_nat r * strideCanv) by nia.
    replace (Z.of_nat (S r) - 1) with (Z.of_nat r) in Rs, Rc by lia.
    unfold pixSize, Int64.add, Int64.mul.
    rewrite (wrap_addressable (4 * wsamp)) by (rewrite addressable_value in *; lia).
    rewrite (wrap_addressable (rowsamp + 4 * wsamp))
      by (rewrite addressable_value in *; lia).
    pose proof (pixelLoop_decided pc ps p t (Z.to_nat wsamp) Lc Ls
                  (Z.to_nat (rowsamp + 4 * wsamp - rowsamp)) rowcanv rowsamp diff)
      as Hpix.
    rewrite Z2Nat.id in Hpix by assumption.
    destruct (pixelLoop pc ps p t _ rowcanv rowsamp (rowsamp + 4 * wsamp) diff)
      as [d| | |] eqn:E; try exact I; try (apply Hpix; lia).
    rewrite (wrap_addressable (rowsamp + strideSamp))
      by (rewrite addressable_value in *; nia).
    rewrite (wrap_addressable (rowcanv + strideCanv))
      by (rewrite addressable_value in *; nia).
    replace (rowsamp + Z.of_nat (S r) * strideSamp)
      with (rowsamp + strideSamp + Z.of_nat r * strideSamp) by lia.
    apply IH; lia.
Qed.

Lemma ValidRGBA_inversion (canvas sample : image.RGBA) :
  ValidRGBA canvas -> ValidRGBA sample -> fits canvas sample = true ->
  0 < image.Dx (image.Rect sample) <= image.Dx (image.Rect canvas) /\
  0 < image.Dy (image.Rect sample) <= image.Dy (image.Rect canvas) /\
  (image.Dy (image.Rect canvas) - 1) * image.Stride canvas
  + 4 * image.Dx (image.Rect canvas) <= Z.of_nat (length (image.Pix canvas)) /\
  (image.Dy (image.Rect sample) - 1) * image.Stride sample
  + 4 * image.Dx (image.Rect sample) <= Z.of_nat (length (image.Pix sample)).
Proof.
  intros (Wc & Sc & Lc & Pc) (Ws & Ss & Ls & Ps) Hfit.
  apply fits_true in Hfit. destruct Hfit as (Hx & Hy & Hnx & Hny).
  pose proof (WellFormed_Dx _ Ws) as Ex. pose proof (WellFormed_Dy _ Ws) as Ey.
  destruct Ws as (_ & _ & _ & _ & Mx & My & _).
  assert (Hsx : 0 < image.Dx (image.Rect sample)) by lia.
  assert (Hsy : 0 < image.Dy (image.Rect sample)) by lia.
  split; [lia|]. split; [lia|]. split; [apply Pc; lia | apply Ps; lia].
Qed.

(** On images laid out by the [image] package no window of the scan reads
    outside [Pix], and the sample loops end within their grant. *)
Lemma compareAt_decided (canvas sample : image.RGBA) (tolerance : Q) (x y : Z) :
  ValidRGBA canvas -> ValidRGBA sample -> fits canvas sample = true ->
  0 <= y < scanHeight canvas sample -> 0 <= x < scanWidth canvas sample ->
  decided (compareAt canvas sample tolerance x y).
Proof.
  intros Vc Vs Hfit Hy Hx.
  destruct (ValidRGBA_inversion _ _ Vc Vs Hfit) as (Dx & Dy & Pc & Ps).
  destruct Vc as (_ & Sc & Lc & _). destruct Vs as (_ & Ss & Ls & _).
  rewrite scanHeight_spec in Hy by assumption.
  rewrite scanWidth_spec in Hx by assumption.
  set (wc := image.Dx (image.Rect canvas)) in *.
  set (hc := image.Dy (image.Rect canvas)) in *.
  set (ws := image.Dx (image.Rect sample)) in *.
  set (hs := image.Dy (image.Rect sample)) in *.
  set (sc := image.Stride canvas) in *.
  set (ss := image.Stride sample) in *.
  set (lc := Z.of_nat (length (image.Pix canvas))) in *.
  set (ls := Z.of_nat (length (image.Pix sample))) in *.
  assert (Hysc : 0 <= y * sc <= (hc - 1) * sc) by nia.
  assert (Hhs : 0 <= (hs - 1) * ss) by nia.
  assert (Hrow : (y + hs - 1) * sc <= (hc - 1) * sc) by nia.
  unfold compareAt, matchLoop. fold wc hc ws hs sc ss.
  unfold pixSize, Int64.add, Int64.mul.
  rewrite (wrap_addressable (y * sc)) by (rewrite addressable_value in *; lia).
  rewrite (wrap_addressable (x * 4)) by (rewrite addressable_value in *; lia).
  rewrite (wrap_addressable (y * sc + x * 4)) by (rewrite addressable_value in *; lia).
  rewrite (wrap_addressable (ss * hs)) by (rewrite addressable_value in *; nia).
  replace (ss * hs) with (0 + Z.of_nat (Z.to_nat hs) * ss) by (rewrite Z2Nat.id; lia).
  apply sampleRowLoop_decided; try assumption; try lia.
  rewrite Z2Nat.id by lia. apply Z2Nat.inj_le; nia.
Qed.

Lemma ValidRGBA_maxTotalDiff (canvas sample : image.RGBA) :
  ValidRGBA canvas -> ValidRGBA sample -> fits canvas sample = true ->
  0 < maxTotalDiff canvas sample.
Proof.
  intros Vc Vs Hfit.
  destruct (ValidRGBA_inversion _ _ Vc Vs Hfit) as (Dx & Dy & Pc & Ps).
  destruct Vc as (_ & Sc & Lc & _).
  set (wc := image.Dx (image.Rect canvas)) in *.
  set (hc := image.Dy (image.Rect canvas)) in *.
  set (ws := image.Dx (image.Rect sample)) in *.
  set (hs := image.Dy (image.Rect sample)) in *.
  assert (Harea : 4 * (wc * hc) <= Z.of_nat (length (image.Pix canvas))) by nia.
  assert (Hwin : 0 < (wc - ws + 1) * (hc - hs + 1) <= wc * hc) by nia.
  rewrite maxTotalDiff_spec; try assumption.
  - fold wc hc ws hs. nia.
  - fold wc hc ws hs. rewrite half_value. rewrite addressable_value in *. nia.
Qed.

(** Two walks with [keepGoing] over the same events, the second of which
    accepts every window the first accepts. *)
Lemma walk_subset (ctx : Context) (cmp1 cmp2 : Z -> Z -> flow)
    (mk : Z -> Z -> Z -> Match) (evs : list event) :
  (forall x y, In (Window x y) evs -> decided (cmp1 x y) /\ decided (cmp2 x y)) ->
  (forall x y d, In (Window x y) evs ->
                 cmp1 x y = LoopDone d -> cmp2 x y = LoopDone d) ->
  (exists err,
     fst (walk ctx cmp1 mk keepGoing evs tt) = Returns err /\
     fst (walk ctx cmp2 mk keepGoing evs tt) = Returns err) /\
  incl (walkCalls ctx cmp1 mk keepGoing evs tt)
       (walkCalls ctx cmp2 mk keepGoing evs tt).
Proof.
  induction evs as [|[k|x y] evs IH]; intros Hdec Hmono; cbn.
  - split; [eauto | apply incl_refl].
  - destruct (ctx k) as [e|]; cbn.
    + split; [eauto | apply incl_refl].
    + apply IH; intros; [apply Hdec | eapply Hmono]; cbn; eauto.
  - assert (IH' := IH (fun x' y' H => Hdec x' y' (or_intror H))
                      (fun x' y' d H => Hmono x' y' d (or_intror H))).
    destruct IH' as [Hres Hincl].
    destruct (Hdec x y (or_introl eq_refl)) as [D1 D2].
    pose proof (Hmono x y) as Hm. specialize (fun d => Hm d (or_introl eq_refl)).
    destruct (cmp1 x y) as [d1| | |]; try contradiction.
    + rewrite (Hm d1 eq_refl). cbn. split; [assumption|].
      intros c [<-|Hc]; [now left | right; auto].
    + destruct (cmp2 x y) as [d2| | |]; try contradiction; cbn.
      * split; [assumption|]. intros c Hc. right. auto.
      * split; assumption.
Qed.

(** ** C5 *)

(** C5: for tolerances [t1 < t2] in [0, 1], on images laid out as the
    [image] package lays them out, the scans at the two tolerances end in
    the same way (nil or the error of the context) and every match emitted
    at [t1] is emitted at [t2], with the same rectangle. *)
Theorem C5_tolerance_monotone (ctx : Context) (canvas sample : image.RGBA)
    (t1 t2 : Q) :
  ValidRGBA canvas -> ValidRGBA sample ->
  (0 <= t1)%Q -> (t1 < t2)%Q -> (t2 <= 1)%Q ->
  (exists err,
     fst (foreachRGBA ctx canvas sample t1 keepGoing tt) = Returns err /\
     fst (foreachRGBA ctx canvas sample t2 keepGoing tt) = Returns err) /\
  (forall m1, In m1 (emitted ctx canvas sample t1) ->
     exists m2, In m2 (emitted ctx canvas sample t2) /\
                Rect m2 = Rect m1 /\ Similarity m2 = Similarity m1).
Proof.
  intros Vc Vs _ Hlt _.
  unfold emitted. rewrite !calls_walk, !foreachRGBA_walk.
  destruct (fits canvas sample) eqn:Hfit.
  - pose proof (ValidRGBA_maxTotalDiff _ _ Vc Vs Hfit) as HM.
    destruct (walk_subset ctx (compareAt canvas sample t1) (compareAt canvas sample t2)
                (matchAt canvas sample) (scanEvents canvas sample)) as [Hres Hincl].
    + intros x y Hin. apply in_scanEvents in Hin. destruct Hin as (_ & Hy & Hx).
      split; now apply compareAt_decided.
    + intros x y d _. apply compareAt_mono; [lia | now apply Qlt_le_weak].
    + split; [exact Hres|].
      intros m1 Hin. exists m1. split; [|auto].
      rewrite map_map in *. apply in_map_iff in Hin.
      destruct Hin as (c & <- & Hc). apply in_map_iff. exists c. auto.
  - unfold scanEvents. rewrite Hfit. cbn. split; [eauto | contradiction].
Qed.

Lemma C5_tolerance_monotone_witness :
  exists m2,
    In m2 (emitted background (twoPixels white black) (onePixel black) (1 # 2)) /\
    Rect m2 = Rect (matchAt (twoPixels white black) (onePixel black) 1 0 0) /\
    Similarity m2 =
      Similarity (matchAt (twoPixels white black) (onePixel black) 1 0 0).
Proof.
  destruct (C5_tolerance_monotone background (twoPixels white black)
              (onePixel black) (1 # 4) (1 # 2)) as [_ Hsub].
  - unfold ValidRGBA, WellFormed, Int64.in_range. vm_compute.
    intuition discriminate.
  - unfold ValidRGBA, WellFormed, Int64.in_range. vm_compute.
    intuition discriminate.
  - vm_compute. discriminate.
  - vm_compute. reflexivity.
  - vm_compute. discriminate.
  - apply Hsub. vm_compute. left. reflexivity.
Defined.

(** ** The rectangle of a match, and the first call of [Find] *)

Lemma matchAt_Rect_Min (canvas sample : image.RGBA) (x y diff : Z) :
  WellFormed (image.Rect canvas) -> WellFormed (image.Rect sample) ->
  fits canvas sample = true ->
  0 <= y < scanHeight canvas sample -> 0 <= x < scanWidth canvas sample ->
  image.Min (Rect (matchAt canvas sample x y diff)) =
  image.mkPoint (image.X (image.Min (image.Rect canvas)) + x)
                (image.Y (image.Min (image.Rect canvas)) + y).
Proof.
  intros Hc Hs Hfit Hy Hx.
  apply fits_true in Hfit. destruct Hfit as (Hwx & Hwy & Hnx & Hny).
  pose proof (WellFormed_Dx _ Hc) as Ecx. pose proof (WellFormed_Dy _ Hc) as Ecy.
  pose proof (WellFormed_Dx _ Hs) as Esx. pose proof (WellFormed_Dy _ Hs) as Esy.
  destruct Hc as (C1 & C2 & C3 & C4 & C5 & C6 & C7 & C8).
  destruct Hs as (S1 & S2 & S3 & S4 & S5 & S6 & S7 & S8).
  rewrite scanHeight_spec in Hy by lia. rewrite scanWidth_spec in Hx by lia.
  unfold Int64.in_range in *.
  unfold matchAt, image.Add, Int64.add. cbn.
  rewrite (wrap_small (image.X (image.Min (image.Rect canvas)) + x))
    by (unfold Int64.in_range; lia).
  rewrite (wrap_small (image.Y (image.Min (image.Rect canvas)) + y))
    by (unfold Int64.in_range; lia).
  reflexivity.
Qed.

Lemma keepBest_Fastest (m : Match) (st : Match * Z) :
  fst (keepBest Fastest m st) = Some ErrBreak.
Proof. destruct st as [best count]. reflexivity. Qed.

Lemma walk_Fastest (ctx : Context) (cmp : Z -> Z -> flow)
    (mk : Z -> Z -> Z -> Match) (evs : list event) (st : Match * Z) :
  match walkCalls ctx cmp mk keepGoing evs tt with
  | [] =>
      walk ctx cmp mk (keepBest Fastest) evs st =
      (fst (walk ctx cmp mk keepGoing evs tt), st) /\
      walkCalls ctx cmp mk (keepBest Fastest) evs st = []
  | c :: _ =>
      walk ctx cmp mk (keepBest Fastest) evs st =
      (Returns (Some ErrBreak),
       snd (keepBest Fastest (mk (originX c) (originY c) (windowDiff c)) st)) /\
      walkCalls ctx cmp mk (keepBest Fastest) evs st =
      [mkCall (originX c) (originY c) (windowDiff c) (Some ErrBreak)]
  end.
Proof.
  induction evs as [|[k|x y] evs IH]; cbn.
  - auto.
  - destruct (ctx k) as [e|]; cbn; auto.
  - destruct (cmp x y) as [diff| | |]; cbn; auto.
    pose proof (keepBest_Fastest (mk x y diff) st) as E.
    destruct (keepBest Fastest (mk x y diff) st) as [e st']. cbn in E. subst e.
    auto.
Qed.

(** ** How a scan ends, and what it leaves out *)

(** A walk whose comparisons all come to a verdict comes back; it comes
    back with nil when, in addition, no poll of the context and no call of
    the callback answers with an error. *)
Lemma walk_returns {S : Type} (ctx : Context) (cmp : Z -> Z -> flow)
    (mk : Z -> Z -> Z -> Match) (f : Match -> S -> option error * S)
    (evs : list event) (s : S) :
  (forall x y, In (Window x y) evs -> decided (cmp x y)) ->
  (exists err, fst (walk ctx cmp mk f evs s) = Returns err) /\
  ((forall k, In (Poll k) evs -> ctx k = None) ->
   Forall (fun c => answer c = None) (walkCalls ctx cmp mk f evs s) ->
   fst (walk ctx cmp mk f evs s) = Returns None).
Proof.
  revert s. induction evs as [|[k|x y] evs IH]; intros s Hdec; cbn.
  - split; [eauto | reflexivity].
  - destruct (ctx k) as [e|] eqn:E; cbn.
    + split; [eexists; reflexivity|]. intros Hctx _.
      rewrite (Hctx k) in E by now left. discriminate.
    + destruct (IH s) as [H1 H2]; [intros; apply Hdec; now right|].
      split; [exact H1|]. intros Hctx Hans.
      apply H2; [intros; apply Hctx; now right | exact Hans].
  - pose proof (Hdec x y (or_introl eq_refl)) as D.
    assert (Hdec' : forall x' y', In (Window x' y') evs -> decided (cmp x' y'))
      by (intros; apply Hdec; now right).
    destruct (cmp x y) as [diff| | |]; try contradiction.
    + destruct (f (mk x y diff) s) as [[e|] s']; cbn.
      * split; [eexists; reflexivity|]. intros _ Hans.
        apply Forall_inv in Hans. discriminate.
      * destruct (IH s' Hdec') as [H1 H2]. split; [exact H1|].
        intros Hctx Hans.
        apply H2; [intros; apply Hctx; now right | now apply Forall_inv_tail in Hans].
    + destruct (IH s Hdec') as [H1 H2]. split; [exact H1|].
      intros Hctx Hans. apply H2; [intros; apply Hctx; now right | exact Hans].
Qed.

(** No accepted window is passed over: the callback has been called for
    every accepted window that comes before the window of one of its
    calls. *)
Lemma walkCalls_no_gap {S : Type} (ctx : Context) (cmp : Z -> Z -> flow)
    (mk : Z -> Z -> Z -> Match) (f : Match -> S -> option error * S)
    (evs : list event) (s : S) (c : call) (x y diff : Z) :
  StronglySorted rowMajor (windows evs) ->
  In c (walkCalls ctx cmp mk f evs s) ->
  In (Window x y) evs ->
  rowMajor (x, y) (origin c) ->
  cmp x y = LoopDone diff ->
  In (mkCall x y diff None) (walkCalls ctx cmp mk f evs s).
Proof.
  revert s. induction evs as [|[k|x' y'] evs IH]; intros s Hs Hc Hin Hord Hcmp;
    cbn in *.
  - contradiction.
  - destruct Hin as [Hin|Hin]; [discriminate|].
    destruct (ctx k); [contradiction | auto].
  - apply StronglySorted_inv in Hs. destruct Hs as [Hs Hall].
    rewrite Forall_forall in Hall.
    assert (Hlater : forall s' c', In c' (walkCalls ctx cmp mk f evs s') ->
                                   rowMajor (x', y') (origin c')).
    { intros s' c' Hc'.
      pose proof (walkCalls_accepted ctx cmp mk f evs s') as Hacc.
      rewrite Forall_forall in Hacc. destruct (Hacc c' Hc') as [Hw _].
      apply Hall, in_windows, Hw. }
    unfold rowMajor, origin in *. cbn in *.
    destruct Hin as [Hin|Hin].
    + injection Hin as -> ->. rewrite Hcmp in *.
      destruct (f (mk x y diff) s) as [[e|] s'].
      * destruct Hc as [<-|[]]. cbn in Hord. lia.
      * now left.
    + pose proof (Hall (x, y) (proj2 (in_windows evs x y) Hin)) as Hxy. cbn in Hxy.
      destruct (cmp x' y') as [d| | |]; try contradiction; [|auto].
      destruct (f (mk x' y' d) s) as [[e|] s'].
      * destruct Hc as [<-|[]]. cbn in Hord. lia.
      * destruct Hc as [<-|Hc]; [cbn in Hord; lia|]. right. auto.
Qed.

(** The calls before a given one answered nil. *)
Lemma walkCalls_before {S : Type} (ctx : Context) (cmp : Z -> Z -> flow)
    (mk : Z -> Z -> Z -> Match) (f : Match -> S -> option error * S)
    (evs : list event) (s : S) (pre post : list call) (c : call) :
  walkCalls ctx cmp mk f evs s = pre ++ c :: post ->
  Forall (fun c' => answer c' = None) pre.
Proof.
  revert s pre. induction evs as [|[k|x y] evs IH]; intros s pre Hlog; cbn in *.
  - destruct pre; discriminate.
  - destruct (ctx k); [destruct pre; discriminate | eauto].
  - destruct (cmp x y) as [diff| | |];
      try (destruct pre; discriminate); [|eauto].
    destruct (f (mk x y diff) s) as [[e'|] s'].
    + destruct pre as [|c' pre]; [constructor|].
      injection Hlog as _ Hlog. destruct pre; discriminate.
    + destruct pre as [|c' pre]; [constructor|].
      injection Hlog as <- Hlog. constructor; [reflexivity | eauto].
Qed.

(** Whatever the callback does, the matches it is called with are an
    initial segment of the matches the scan emits when it is left alone. *)
Lemma walk_stopped_prefix {S : Type} (ctx : Context) (cmp : Z -> Z -> flow)
    (mk : Z -> Z -> Z -> Match) (f : Match -> S -> option error * S)
    (evs : list event) (s : S) :
  exists rest,
    map fst (map (logged mk) (walkCalls ctx cmp mk keepGoing evs tt)) =
    map fst (map (logged mk) (walkCalls ctx cmp mk f evs s)) ++ rest.
Proof.
  revert s. induction evs as [|[k|x y] evs IH]; intros s; cbn.
  - exists []. reflexivity.
  - destruct (ctx k); [exists []; reflexivity | apply IH].
  - destruct (cmp x y) as [diff| | |]; cbn; try (exists []; reflexivity); [|apply IH].
    destruct (f (mk x y diff) s) as [[e|] s']; cbn.
    + eexists. reflexivity.
    + destruct (IH s') as [rest E]. exists rest. now rewrite E.
Qed.

(** ** C7 *)

(** C7: the scan visits the window origins in row-major order, [y] from 0
    to canvas_height - sample_height and, inside a row, [x] from 0 to
    canvas_width - sample_width, both ends included.  The calls of the
    callback are about accepted windows in strictly ascending (y, x) order
    of origin, and no accepted window that comes before a call is passed
    over; a scan that runs to its end has called the callback for every
    accepted window.  On images laid out as the [image] package lays them
    out the scan comes back, and it runs to its end when neither the
    context nor the callback answers with an error.  A call that answers
    with a non-nil error is the last one, the scan returning that error. *)
Theorem C7_row_major_scan {S : Type} (ctx : Context)
    (canvas sample : image.RGBA) (tolerance : Q)
    (f : Match -> S -> option error * S) (s : S) :
  let result := fst (foreachRGBA ctx canvas sample tolerance f s) in
  let log := calls ctx canvas sample tolerance f s in
  (exists cs : list call,
     log = map (logged (matchAt canvas sample)) cs /\
     Forall (fun c =>
               0 <= originY c < scanHeight canvas sample /\
               0 <= originX c < scanWidth canvas sample /\
               compareAt canvas sample tolerance (originX c) (originY c)
               = LoopDone (windowDiff c)) cs /\
     StronglySorted rowMajor (map origin cs) /\
     (forall c x y diff,
        In c cs ->
        0 <= y < scanHeight canvas sample ->
        0 <= x < scanWidth canvas sample ->
        rowMajor (x, y) (origin c) ->
        compareAt canvas sample tolerance x y = LoopDone diff ->
        In (mkCall x y diff None) cs) /\
     (result = Returns None -> fits canvas sample = true ->
      forall x y diff,
        0 <= y < scanHeight canvas sample ->
        0 <= x < scanWidth canvas sample ->
        compareAt canvas sample tolerance x y = LoopDone diff ->
        In (mkCall x y diff None) cs) /\
     (ValidRGBA canvas -> ValidRGBA sample ->
      (exists err, result = Returns err) /\
      ((forall k, ctx k = None) ->
       Forall (fun c => answer c = None) cs ->
       result = Returns None))) /\
  (forall pre m e post,
     log = pre ++ (m, Some e) :: post ->
     post = [] /\ result = Returns (Some e)) /\
  (0 < image.Dx (image.Rect sample) <= image.Dx (image.Rect canvas) ->
   0 < image.Dy (image.Rect sample) <= image.Dy (image.Rect canvas) ->
   fits canvas sample = true /\
   scanHeight canvas sample =
     image.Dy (image.Rect canvas) - image.Dy (image.Rect sample) + 1 /\
   scanWidth canvas sample =
     image.Dx (image.Rect canvas) - image.Dx (image.Rect sample) + 1).
Proof.
  cbn zeta. rewrite calls_walk, foreachRGBA_walk.
  set (cmp := compareAt canvas sample tolerance).
  set (mk := matchAt canvas sample).
  set (evs := scanEvents canvas sample).
  split; [|split].
  - exists (walkCalls ctx cmp mk f evs s). split; [reflexivity|].
    split; [|split; [|split; [|split]]].
    + eapply Forall_impl; [|apply walkCalls_accepted].
      cbn. intros c [Hin Hcmp]. apply in_scanEvents in Hin. tauto.
    + apply walkCalls_sorted, scanEvents_sorted.
    + intros c x y diff Hc Hy Hx Hord Hcmp.
      apply walkCalls_no_gap with (c := c); try assumption.
      * apply scanEvents_sorted.
      * apply in_scanEvents. split; [|auto].
        pose proof (walkCalls_accepted ctx cmp mk f evs s) as Hacc.
        rewrite Forall_forall in Hacc. destruct (Hacc c Hc) as [Hw _].
        now apply in_scanEvents in Hw.
    + intros Hret Hfit x y diff Hy Hx Hcmp.
      apply walkCalls_complete; try assumption.
      apply in_scanEvents. auto.
    + intros Vc Vs.
      destruct (walk_returns ctx cmp mk f evs s) as [Hback Hend].
      * intros x y Hin. apply in_scanEvents in Hin.
        destruct Hin as (Hfit & Hy & Hx). now apply compareAt_decided.
      * split; [exact Hback|]. intros Hctx Hans. apply Hend; auto.
  - intros pre m e post Hlog.
    apply map_eq_middle in Hlog.
    destruct Hlog as (pre' & c & post' & Hcs & Hc & Hpost).
    unfold logged in Hc. injection Hc as _ Hans.
    destruct (walkCalls_abort ctx cmp mk f evs s pre' post' c e Hcs Hans) as [-> Hres].
    cbn in Hpost. auto.
  - intros Hx Hy. split; [apply fits_true; lia|].
    split; [now apply scanHeight_spec | now apply scanWidth_spec].
Qed.

Lemma C7_row_major_scan_witness :
  fst (foreachRGBA background (fourPixels black white black black)
         (onePixel black) 0 keepGoing tt) = Returns None /\
  In (matchAt (fourPixels black white black black) (onePixel black) 1 1 0, None)
     (calls background (fourPixels black white black black) (onePixel black) 0
        keepGoing tt).
Proof.
  pose proof (C7_row_major_scan background (fourPixels black white black black)
                (onePixel black) 0 keepGoing tt) as H.
  cbn zeta in H.
  destruct H as [(cs & Elog & _ & _ & _ & Hcomplete & Hback) _].
  assert (Hres : fst (foreachRGBA background (fourPixels black white black black)
                        (onePixel black) 0 keepGoing tt) = Returns None).
  { apply Hback.
    - unfold ValidRGBA, WellFormed, Int64.in_range. vm_compute. intuition discriminate.
    - unfold ValidRGBA, WellFormed, Int64.in_range. vm_compute. intuition discriminate.
    - reflexivity.
    - assert (E : map snd (calls background (fourPixels black white black black)
                             (onePixel black) 0 keepGoing tt) = [None; None; None])
        by (vm_compute; reflexivity).
      rewrite Elog, map_map in E. apply Forall_forall. intros c Hc.
      assert (Hin : In (answer c) [None; None; None])
        by (rewrite <- E; apply (in_map (fun c' => snd (logged _ c')) cs c Hc)).
      destruct Hin as [Hin|[Hin|[Hin|[]]]]; now symmetry. }
  split; [exact Hres|].
  rewrite Elog.
  apply (in_map (logged (matchAt (fourPixels black white black black)
                           (onePixel black))) cs (mkCall 1 1 0 None)).
  apply Hcomplete;
    [exact Hres | reflexivity
    | vm_compute; split; [discriminate | reflexivity]
    | vm_compute; split; [discriminate | reflexivity] |].
  vm_compute. reflexivity.
Defined.

(** ** C3 *)

Lemma map_eq_split {A B : Type} (g : A -> B) (l : list A) (pre post : list B) (b : B) :
  map g l = pre ++ b :: post ->
  exists pre' a post',
    l = pre' ++ a :: post' /\ map g pre' = pre /\ g a = b /\ map g post' = post.
Proof.
  revert pre. induction l as [|a l IH]; intros pre H; cbn in H.
  - destruct pre; discriminate.
  - destruct pre as [|b' pre]; cbn in H.
    + injection H as H1 H2. exists [], a, l. auto.
    + injection H as Hb H.
      destruct (IH _ H) as (pre' & a' & post' & -> & Hpre & Hg & Hp).
      exists (a :: pre'), a', post'. cbn. rewrite Hb, Hpre. auto.
Qed.

(** The error with which a call of the callback answers is what the scan
    returns. *)
Lemma call_error_returned {S : Type} (ctx : Context)
    (canvas sample : image.RGBA) (tolerance : Q)
    (f : Match -> S -> option error * S) (s : S) (m : Match) (e : error) :
  In (m, Some e) (calls ctx canvas sample tolerance f s) ->
  fst (foreachRGBA ctx canvas sample tolerance f s) = Returns (Some e).
Proof.
  intros Hin. apply in_split in Hin. destruct Hin as (pre & post & Hlog).
  rewrite calls_walk in Hlog. apply map_eq_middle in Hlog.
  destruct Hlog as (pre' & c & post' & Hcs & Hc & _).
  unfold logged in Hc. injection Hc as _ Hans.
  rewrite foreachRGBA_walk.
  eapply walkCalls_abort; eassumption.
Qed.

(** A call that answers with an error is the last call; the calls before it
    answered nil. *)
Lemma call_error_last {S : Type} (ctx : Context)
    (canvas sample : image.RGBA) (tolerance : Q)
    (f : Match -> S -> option error * S) (s : S) (m : Match) (e : error) :
  In (m, Some e) (calls ctx canvas sample tolerance f s) ->
  exists pre,
    calls ctx canvas sample tolerance f s = pre ++ [(m, Some e)] /\
    Forall (fun entry => snd entry = None) pre.
Proof.
  intros Hin. apply in_split in Hin. destruct Hin as (pre & post & Hlog).
  exists pre. pose proof Hlog as Hlog'.
  rewrite calls_walk in Hlog'. apply map_eq_split in Hlog'.
  destruct Hlog' as (pre' & c & post' & Hcs & Hpre & Hc & Hpost).
  unfold logged in Hc. injection Hc as _ Hans.
  destruct (walkCalls_abort ctx _ _ f _ s pre' post' c e Hcs Hans) as [-> _].
  cbn in Hpost. subst post. split; [exact Hlog|].
  subst pre. apply Forall_forall. intros entry Hentry.
  apply in_map_iff in Hentry. destruct Hentry as (c' & <- & Hc').
  pose proof (walkCalls_before ctx _ _ f _ s pre' [] c Hcs) as Hnil.
  rewrite Forall_forall in Hnil. exact (Hnil c' Hc').
Qed.

(** [Find] never returns [ErrBreak]. *)
Lemma Find_hides_ErrBreak (ctx : Context) (canvas sample : image.Image)
    (tolerance : Q) (selection : Selection) :
  fst (Find ctx canvas sample tolerance selection) <> Returns (Some ErrBreak).
Proof.
  unfold Find.
  destruct (Foreach ctx canvas sample tolerance (keepBest selection) (zeroMatch, 0))
    as [res [best count]].
  destruct res as [[e|]| |]; cbn; try discriminate.
  - destruct e; cbn;
      try discriminate;
      destruct (count =? 0); try discriminate;
      destruct ((selection =? Only) && (count >? 1)); discriminate.
  - destruct (count =? 0); try discriminate;
      destruct ((selection =? Only) && (count >? 1)); discriminate.
Qed.

(** When the callback of [Find] answers [ErrBreak], [Find] returns the match
    of that call with a nil error. *)
Lemma Find_after_ErrBreak (ctx : Context) (canvas sample : image.RGBA)
    (tolerance : Q) (selection : Selection) (m : Match) :
  In (m, Some ErrBreak)
     (calls ctx canvas sample tolerance (keepBest selection) (zeroMatch, 0)) ->
  Find ctx (image.RGBAImage canvas) (image.RGBAImage sample) tolerance selection
  = (Returns None, m).
Proof.
  intros Hin. destruct (selection =? Fastest) eqn:Esel.
  - apply Z.eqb_eq in Esel. subst selection.
    unfold Find, Foreach. rewrite calls_walk in Hin. rewrite foreachRGBA_walk.
    pose proof (walk_Fastest ctx (compareAt canvas sample tolerance)
                  (matchAt canvas sample) (scanEvents canvas sample) (zeroMatch, 0))
      as H.
    destruct (walkCalls ctx (compareAt canvas sample tolerance)
                (matchAt canvas sample) keepGoing (scanEvents canvas sample) tt)
      as [|c cs]; destruct H as [Ewalk Ecalls]; rewrite Ecalls in Hin.
    + contradiction.
    + rewrite Ewalk. destruct Hin as [Hin|[]].
      unfold logged in Hin. cbn in Hin. injection Hin as <-. reflexivity.
  - exfalso.
    destruct (foreachRGBA_never_stopped ctx canvas sample tolerance
                (keepBest selection) (zeroMatch, 0)) as [_ Ecalls].
    + intros m0 [b c]. unfold keepBest. rewrite Esel. reflexivity.
    + rewrite Ecalls in Hin. apply in_map_iff in Hin.
      destruct Hin as (m0 & E & _). discriminate.
Qed.

(** C3, as the code has it: when the callback passed to [Foreach] answers
    [ErrBreak], the scan stops at once and [Foreach] returns [ErrBreak]
    itself.  The call that answered [ErrBreak] is the last call, the calls
    before it answered nil, the state of the callback is the one that call
    left, and the matches the scan would have emitted after it are not
    reported.  [Foreach] treats [ErrBreak] as it treats any other error of
    its callback, which it returns unchanged.  Only [Find] turns the
    [ErrBreak] of its own callback into a nil error: it never returns
    [ErrBreak], and when its callback answers [ErrBreak], so that [Foreach]
    returns [ErrBreak] to [Find], [Find] returns the match of that call
    with a nil error. *)
Theorem C3_Foreach_returns_ErrBreak {S : Type} (ctx : Context)
    (canvas sample : image.RGBA) (tolerance : Q)
    (f : Match -> S -> option error * S) (s : S) (m : Match) :
  In (m, Some ErrBreak) (calls ctx canvas sample tolerance f s) ->
  let run := Foreach ctx (image.RGBAImage canvas) (image.RGBAImage sample)
               tolerance f s in
  fst run = Returns (Some ErrBreak) /\
  (exists pre rest,
     calls ctx canvas sample tolerance f s = pre ++ [(m, Some ErrBreak)] /\
     Forall (fun entry => snd entry = None) pre /\
     snd run = snd (f m (fold_left (fun st m' => snd (f m' st)) (map fst pre) s)) /\
     emitted ctx canvas sample tolerance = map fst pre ++ m :: rest) /\
  (forall (T : Type) (g : Match -> T -> option error * T) (t : T) m' e,
     In (m', Some e) (calls ctx canvas sample tolerance g t) ->
     fst (Foreach ctx (image.RGBAImage canvas) (image.RGBAImage sample)
            tolerance g t) = Returns (Some e)) /\
  (forall selection,
     fst (Find ctx (image.RGBAImage canvas) (image.RGBAImage sample) tolerance
            selection) <> Returns (Some ErrBreak)) /\
  (forall selection m',
     In (m', Some ErrBreak)
        (calls ctx canvas sample tolerance (keepBest selection) (zeroMatch, 0)) ->
     fst (Foreach ctx (image.RGBAImage canvas) (image.RGBAImage sample) tolerance
            (keepBest selection) (zeroMatch, 0)) = Returns (Some ErrBreak) /\
     Find ctx (image.RGBAImage canvas) (image.RGBAImage sample) tolerance selection
     = (Returns None, m')).
Proof.
  intros Hin. cbn zeta. unfold Foreach at 1 2.
  split; [now apply call_error_returned with (m := m)|].
  split; [|split; [|split]].
  - destruct (call_error_last _ _ _ _ _ _ _ _ Hin) as (pre & Hlog & Hnil).
    destruct (walk_stopped_prefix ctx (compareAt canvas sample tolerance)
                (matchAt canvas sample) f (scanEvents canvas sample) s)
      as [rest Hrest].
    exists pre, rest. split; [exact Hlog|]. split; [exact Hnil|]. split.
    + rewrite foreachRGBA_state, Hlog, map_app, fold_left_app. reflexivity.
    + unfold emitted. rewrite (calls_walk ctx canvas sample tolerance keepGoing).
      rewrite Hrest, <- calls_walk, Hlog, map_app, <- app_assoc. reflexivity.
  - intros T g t m' e Hin'. unfold Foreach.
    now apply call_error_returned with (m := m').
  - intros selection. apply Find_hides_ErrBreak.
  - intros selection m' Hin'. split.
    + unfold Foreach. now apply call_error_returned with (m := m').
    + now apply Find_after_ErrBreak.
Qed.

Lemma C3_Foreach_returns_ErrBreak_witness :
  fst (Foreach background (image.RGBAImage (twoPixels black black))
         (image.RGBAImage (onePixel black)) 0 breakAtOnce tt)
  = Returns (Some ErrBreak) /\
  (exists pre rest,
     calls background (twoPixels black black) (onePixel black) 0 breakAtOnce tt
     = pre ++ [(matchAt (twoPixels black black) (onePixel black) 0 0 0,
                Some ErrBreak)] /\
     emitted background (twoPixels black black) (onePixel black) 0
     = map fst pre ++ matchAt (twoPixels black black) (onePixel black) 0 0 0 :: rest) /\
  length (emitted background (twoPixels black black) (onePixel black) 0) = 2%nat /\
  Find background (image.RGBAImage (twoPixels black black))
    (image.RGBAImage (onePixel black)) 0 Fastest
  = (Returns None, matchAt (twoPixels black black) (onePixel black) 0 0 0).
Proof.
  pose proof (C3_Foreach_returns_ErrBreak background (twoPixels black black)
                (onePixel black) 0 breakAtOnce tt
                (matchAt (twoPixels black black) (onePixel black) 0 0 0)) as H.
  cbn zeta in H.
  destruct H as (Hret & (pre & rest & Hlog & _ & _ & Hemit) & _ & _ & HFind).
  - vm_compute. left. reflexivity.
  - split; [exact Hret|]. split; [exists pre, rest; auto|].
    split; [vm_compute; reflexivity|].
    apply (HFind Fastest). vm_compute. left. reflexivity.
Defined.

(** C3, as the specification has it, fails: on a one-pixel canvas searched
    for itself the callback is called once, answers [ErrBreak], and
    [Foreach] returns [ErrBreak], not nil. *)
Lemma C3_counterexample :
  map snd (calls background (onePixel black) (onePixel black) 0 breakAtOnce tt)
  = [Some ErrBreak] /\
  fst (Foreach background (image.RGBAImage (onePixel black))
         (image.RGBAImage (onePixel black)) 0 breakAtOnce tt)
  <> Returns None.
Proof.
  split; [vm_compute; reflexivity | vm_compute; discriminate].
Qed.

(** ** C10 *)

(** C10: the rectangle of every match handed to the callback is in the
    coordinate space of the canvas.  The match is that of a window of the
    scan, at an origin [(x, y)] inside the loop bounds whose comparison
    ended with [matched = true] and gave the similarity of the match; the
    [Min] of its rectangle is [canvas.Rect.Min] moved by that origin, its
    [Max] is its [Min] moved by the size of the sample, and the rectangle
    lies inside [canvas.Rect].  Read back from the rectangles, the origins
    of the successive calls are in strictly ascending (y, x) order. *)
Theorem C10_match_rectangle {S : Type} (ctx : Context)
    (canvas sample : image.RGBA) (tolerance : Q)
    (f : Match -> S -> option error * S) (s : S) :
  WellFormed (image.Rect canvas) ->
  WellFormed (image.Rect sample) ->
  (forall m e,
     In (m, e) (calls ctx canvas sample tolerance f s) ->
     exists x y diff,
       0 <= x <= image.Dx (image.Rect canvas) - image.Dx (image.Rect sample) /\
       0 <= y <= image.Dy (image.Rect canvas) - image.Dy (image.Rect sample) /\
       compareAt canvas sample tolerance x y = LoopDone diff /\
       Similarity m = similarityOf diff (maxTotalDiff canvas sample) /\
       image.Min (Rect m) =
         image.mkPoint (image.X (image.Min (image.Rect canvas)) + x)
                       (image.Y (image.Min (image.Rect canvas)) + y) /\
       image.Max (Rect m) =
         image.mkPoint (image.X (image.Min (Rect m)) + image.Dx (image.Rect sample))
                       (image.Y (image.Min (Rect m)) + image.Dy (image.Rect sample)) /\
       image.In (Rect m) (image.Rect canvas)) /\
  StronglySorted rowMajor
    (map (fun entry => offsetIn canvas (fst entry))
       (calls ctx canvas sample tolerance f s)).
Proof.
  intros Hc Hs. split.
  - intros m e Hin.
    destruct (calls_inversion _ _ _ _ _ _ _ _ Hin)
      as (x & y & diff & -> & Hfit & Hy & Hx & Hcmp).
    pose proof (matchAt_Rect_Min canvas sample x y diff Hc Hs Hfit Hy Hx) as EMin.
    apply fits_true in Hfit. destruct Hfit as (Hwx & Hwy & Hnx & Hny).
    pose proof (WellFormed_Dx _ Hc) as Ecx. pose proof (WellFormed_Dy _ Hc) as Ecy.
    pose proof (WellFormed_Dx _ Hs) as Esx. pose proof (WellFormed_Dy _ Hs) as Esy.
    destruct Hc as (C1 & C2 & C3 & C4 & C5 & C6 & C7 & C8).
    destruct Hs as (S1 & S2 & S3 & S4 & S5 & S6 & S7 & S8).
    rewrite scanHeight_spec in Hy by lia. rewrite scanWidth_spec in Hx by lia.
    unfold Int64.in_range in *.
    exists x, y, diff. split; [lia|]. split; [lia|]. split; [exact Hcmp|].
    split; [reflexivity|]. split; [exact EMin|].
    unfold image.In. rewrite EMin. clear EMin.
    unfold matchAt, image.Add, Int64.add. cbn.
    rewrite (wrap_small (image.X (image.Min (image.Rect canvas)) + x))
      by (unfold Int64.in_range; lia).
    rewrite (wrap_small (image.Y (image.Min (image.Rect canvas)) + y))
      by (unfold Int64.in_range; lia).
    rewrite !wrap_small by (unfold Int64.in_range; lia).
    repeat split; lia.
  - rewrite calls_walk, map_map.
    set (cmp := compareAt canvas sample tolerance).
    set (mk := matchAt canvas sample).
    set (evs := scanEvents canvas sample).
    rewrite (map_ext_in _ origin).
    + apply walkCalls_sorted, scanEvents_sorted.
    + intros c Hin.
      pose proof (walkCalls_accepted ctx cmp mk f evs s) as Hacc.
      rewrite Forall_forall in Hacc. destruct (Hacc c Hin) as [Hw _].
      apply in_scanEvents in Hw. destruct Hw as (Hfit & Hy & Hx).
      unfold offsetIn, logged, origin, mk. cbn [fst].
      rewrite (matchAt_Rect_Min canvas sample _ _ _ Hc Hs Hfit Hy Hx). cbn.
      f_equal; lia.
Qed.

Lemma C10_match_rectangle_witness :
  exists x y diff,
    0 <= x <= 2 - 1 /\ 0 <= y <= 1 - 1 /\
    compareAt (subImage white black) (onePixel black) 0 x y = LoopDone diff /\
    Similarity (matchAt (subImage white black) (onePixel black) 1 0 0) =
      similarityOf diff (maxTotalDiff (subImage white black) (onePixel black)) /\
    image.Min (Rect (matchAt (subImage white black) (onePixel black) 1 0 0)) =
      image.mkPoint (10 + x) (20 + y) /\
    image.Max (Rect (matchAt (subImage white black) (onePixel black) 1 0 0)) =
      image.mkPoint (11 + 1) (20 + 1) /\
    image.In (Rect (matchAt (subImage white black) (onePixel black) 1 0 0))
      (image.Rect (subImage white black)).
Proof.
  destruct (C10_match_rectangle background (subImage white black) (onePixel black)
              0 keepGoing tt) as [Hrect _].
  - unfold WellFormed, Int64.in_range. vm_compute. intuition discriminate.
  - unfold WellFormed, Int64.in_range. vm_compute. intuition discriminate.
  - apply (Hrect (matchAt (subImage white black) (onePixel black) 1 0 0) None).
    vm_compute. left. reflexivity.
Defined.

(** * Further properties of the package *)

(** ** abs (mathutil.go) *)

(** X1: on every [int64] but the least one [abs] is the absolute value, and
    so is not negative; on the least one, whose absolute value is not an
    [int64], it returns its argument. *)
Theorem abs_absolute_value (n : Z) :
  Int64.in_range n ->
  (n <> - Int64.half -> abs n = Z.abs n /\ 0 <= abs n) /\
  abs (- Int64.half) = - Int64.half.
Proof.
  intros Hn. split.
  - intros Hmin. unfold Int64.in_range in Hn.
    rewrite abs_spec by lia. split; [reflexivity | apply Z.abs_nonneg].
  - vm_compute. reflexivity.
Qed.

Lemma abs_absolute_value_witness :
  abs (-255) = 255 /\ 0 <= abs (-255).
Proof.
  destruct (abs_absolute_value (-255)) as [H _].
  - unfold Int64.in_range. vm_compute. split; [discriminate | reflexivity].
  - apply H. vm_compute. discriminate.
Defined.

(** ** Match.Before (locateimage.go) *)

Lemma Before_by_similarity (a b : Match) :
  Qle_bool SimilarityPrecision (Qabs (Similarity a - Similarity b)) = true ->
  Before a b = Qgt_bool (Similarity a) (Similarity b).
Proof. unfold Before, Qgt_bool. now intros ->. Qed.

Lemma Before_by_position (a b : Match) :
  Qle_bool SimilarityPrecision (Qabs (Similarity a - Similarity b)) = false ->
  Before a b =
  if negb (image.Y (image.Min (Rect a)) =? image.Y (image.Min (Rect b)))
  then image.Y (image.Min (Rect a)) <? image.Y (image.Min (Rect b))
  else if negb (image.X (image.Min (Rect a)) =? image.X (image.Min (Rect b)))
  then image.X (image.Min (Rect a)) <? image.X (image.Min (Rect b))
  else false.
Proof. unfold Before. now intros ->. Qed.

(** X2: [Before] is a strict comparison: no match is before itself, two
    matches are never before each other, and two matches neither of which is
    before the other have similarities closer than [SimilarityPrecision]
    and the same [Rect.Min]. *)
Theorem Before_strict (a b : Match) :
  Before a a = false /\
  (Before a b = true -> Before b a = false) /\
  (Before a b = false -> Before b a = false ->
   (Qabs (Similarity a - Similarity b) < SimilarityPrecision)%Q /\
   image.Min (Rect a) = image.Min (Rect b)).
Proof.
  assert (Hsym : Qle_bool SimilarityPrecision (Qabs (Similarity b - Similarity a))
                 = Qle_bool SimilarityPrecision (Qabs (Similarity a - Similarity b)))
    by now rewrite Qabs_Qminus.
  split; [|split].
  - unfold Before.
    destruct (Qle_bool SimilarityPrecision (Qabs (Similarity a - Similarity a))).
    + apply negb_false_iff, Qle_bool_iff, Qle_refl.
    + now rewrite !Z.eqb_refl.
  - destruct (Qle_bool SimilarityPrecision (Qabs (Similarity a - Similarity b))) eqn:E.
    + rewrite (Before_by_similarity a b E), (Before_by_similarity b a) by congruence.
      intros Hab. apply Qgt_bool_true in Hab. apply Qgt_bool_false.
      now apply Qlt_le_weak.
    + rewrite (Before_by_position a b E), (Before_by_position b a) by congruence.
      destruct (image.Y (image.Min (Rect a)) =? image.Y (image.Min (Rect b))) eqn:Ey.
      * apply Z.eqb_eq in Ey. rewrite Ey, Z.eqb_refl. cbn [negb].
        destruct (image.X (image.Min (Rect a)) =? image.X (image.Min (Rect b))) eqn:Ex.
        -- apply Z.eqb_eq in Ex. rewrite Ex, Z.eqb_refl. auto.
        -- rewrite (Z.eqb_sym (image.X (image.Min (Rect b)))), Ex. cbn [negb]. intros H. apply Z.ltb_lt in H.
           apply Z.ltb_ge. lia.
      * rewrite (Z.eqb_sym (image.Y (image.Min (Rect b)))), Ey. cbn [negb]. intros H. apply Z.ltb_lt in H.
        apply Z.ltb_ge. lia.
  - destruct (Qle_bool SimilarityPrecision (Qabs (Similarity a - Similarity b))) eqn:E.
    + rewrite (Before_by_similarity a b E), (Before_by_similarity b a) by congruence.
      intros Hab Hba. apply Qgt_bool_false in Hab, Hba.
      assert (Heq : (Similarity a == Similarity b)%Q) by now apply Qle_antisym.
      apply Qle_bool_iff in E. exfalso.
      assert (H0 : (Qabs (Similarity a - Similarity b) == 0)%Q).
      { rewrite Heq. setoid_replace (Similarity b - Similarity b)%Q with 0%Q by ring.
        reflexivity. }
      rewrite H0 in E. revert E. unfold SimilarityPrecision, Qle. cbn. lia.
    + rewrite (Before_by_position a b E), (Before_by_position b a) by congruence.
      assert (Hlt : (Qabs (Similarity a - Similarity b) < SimilarityPrecision)%Q).
      { apply Qnot_le_lt. intros H. apply Qle_bool_iff in H. congruence. }
      destruct (image.Y (image.Min (Rect a)) =? image.Y (image.Min (Rect b))) eqn:Ey.
      * apply Z.eqb_eq in Ey. rewrite Ey, Z.eqb_refl. cbn [negb].
        destruct (image.X (image.Min (Rect a)) =? image.X (image.Min (Rect b))) eqn:Ex.
        -- apply Z.eqb_eq in Ex. intros _ _. split; [assumption|].
           destruct (image.Min (Rect a)), (image.Min (Rect b)). cbn in *. congruence.
        -- rewrite (Z.eqb_sym (image.X (image.Min (Rect b)))), Ex. cbn [negb]. apply Z.eqb_neq in Ex.
           intros H1 H2. apply Z.ltb_ge in H1, H2. lia.
      * rewrite (Z.eqb_sym (image.Y (image.Min (Rect b)))), Ey. cbn [negb]. apply Z.eqb_neq in Ey.
        intros H1 H2. apply Z.ltb_ge in H1, H2. lia.
Qed.

(** A match of the given similarity whose [Rect.Min] is [(0, y)]. *)
Definition matchInRow (y : Z) (similarity : Q) : Match :=
  mkMatch (image.mkRectangle (image.mkPoint 0 y) (image.mkPoint 1 (y + 1)))
    similarity.

(** X3: [Before] is not transitive, as the [Less] of a [sort.Interface]
    should be: similarities closer than [SimilarityPrecision] are ordered
    by position, so that of three matches in rows 0, 1 and 2 with
    similarities 0.999999, 0.9999995 and 1 the first is before the second
    and the second before the third, while the third is before the first. *)
Theorem Before_not_transitive :
  exists a b c : Match,
    Before a b = true /\ Before b c = true /\
    Before a c = false /\ Before c a = true.
Proof.
  exists (matchInRow 0 (999999 # 1000000)),
         (matchInRow 1 (9999995 # 10000000)),
         (matchInRow 2 1).
  repeat split; vm_compute; reflexivity.
Qed.

(** ** Unsupported image types and Convert *)

(** X4: when the canvas or the sample is not an [*image.RGBA], [Foreach]
    returns [ErrUnsupportedImageType] without calling the callback, [All]
    returns it with no match, and [Find] returns it with the zero [Match];
    the context is not looked at. *)
Theorem unsupported_image_type (ctx : Context) (canvas sample : image.Image)
    (tolerance : Q) :
  canvas = image.OtherImage \/ sample = image.OtherImage ->
  (forall (S : Type) (f : Match -> S -> option error * S) (s : S),
     Foreach ctx canvas sample tolerance (record f) ([], s)
     = (Returns (Some ErrUnsupportedImageType), ([], s))) /\
  All ctx canvas sample tolerance = (Returns (Some ErrUnsupportedImageType), []) /\
  (forall selection,
     Find ctx canvas sample tolerance selection
     = (Returns (Some ErrUnsupportedImageType), zeroMatch)).
Proof.
  intros H. unfold All, Find, Foreach.
  destruct H as [-> | ->]; [destruct sample | destruct canvas]; repeat split.
Qed.

Lemma unsupported_image_type_witness :
  All cancelled image.OtherImage (image.RGBAImage (onePixel black)) 0
  = (Returns (Some ErrUnsupportedImageType), []).
Proof.
  apply (unsupported_image_type cancelled image.OtherImage
           (image.RGBAImage (onePixel black)) 0).
  left. reflexivity.
Defined.

(** X5: [Convert] returns an [*image.RGBA] as it is, converting twice is
    converting once, and converted images pass the type check of [Foreach],
    which then is the scan of the two converted images. *)
Theorem Convert_supported (redraw : image.Image -> image.RGBA)
    (ctx : Context) (canvas sample : image.Image) (tolerance : Q)
    (S : Type) (f : Match -> S -> option error * S) (s : S) :
  (forall rgba, Convert redraw (image.RGBAImage rgba) = image.RGBAImage rgba) /\
  Convert redraw (Convert redraw canvas) = Convert redraw canvas /\
  Foreach ctx (Convert redraw canvas) (Convert redraw sample) tolerance f s
  = foreachRGBA ctx (convertToRGBA redraw canvas) (convertToRGBA redraw sample)
      tolerance f s.
Proof.
  repeat split.
Qed.

(** ** matches: Len, Swap and Less (locateimage.go) *)

Lemma matches_at_some (mm : list Match) (i : Z) (m : Match) :
  matches_at mm i = Some m <->
  0 <= i < matches_Len mm /\ nth_error mm (Z.to_nat i) = Some m.
Proof.
  unfold matches_at, matches_Len.
  destruct ((0 <=? i) && (i <? Z.of_nat (length mm))) eqn:E.
  - apply andb_true_iff in E. destruct E as [E1 E2].
    apply Z.leb_le in E1. apply Z.ltb_lt in E2. tauto.
  - split; [discriminate|]. intros [[H1 H2] _].
    apply Z.leb_le in H1. apply Z.ltb_lt in H2. rewrite H1, H2 in E. discriminate.
Qed.

Lemma matches_at_in_range (mm : list Match) (i : Z) :
  0 <= i < matches_Len mm -> exists m, matches_at mm i = Some m.
Proof.
  intros H. unfold matches_Len in H.
  destruct (nth_error mm (Z.to_nat i)) as [m|] eqn:E.
  - exists m. apply matches_at_some. unfold matches_Len. auto.
  - apply nth_error_None in E. lia.
Qed.

Lemma matches_at_out_of_range (mm : list Match) (i : Z) :
  ~ 0 <= i < matches_Len mm -> matches_at mm i = None.
Proof.
  intros H. destruct (matches_at mm i) as [m|] eqn:E; [|reflexivity].
  apply matches_at_some in E. tauto.
Qed.

Lemma matches_set_length (mm : list Match) (i : nat) (m : Match) :
  length (matches_set mm i m) = length mm.
Proof.
  revert i. induction mm as [|m' mm IH]; intros [|i]; cbn; auto.
Qed.

Lemma matches_set_nth (mm : list Match) (i k : nat) (m : Match) :
  (i < length mm)%nat ->
  nth_error (matches_set mm i m) k =
  if Nat.eqb k i then Some m else nth_error mm k.
Proof.
  revert i k. induction mm as [|m' mm IH]; intros i k Hi; cbn in Hi; [lia|].
  destruct i as [|i]; destruct k as [|k]; cbn; try reflexivity.
  apply IH. lia.
Qed.

Lemma matches_set_perm (mm : list Match) (i : nat) (a b : Match) :
  nth_error mm i = Some a ->
  Permutation (b :: mm) (a :: matches_set mm i b).
Proof.
  revert i. induction mm as [|m' mm IH]; intros [|i] H; cbn in H; try discriminate.
  - injection H as ->. cbn. apply perm_swap.
  - cbn. rewrite perm_swap. rewrite (IH i H). apply perm_swap.
Qed.

(** X6: [Swap] panics exactly when one of its indices is outside the slice;
    otherwise it exchanges the two elements and leaves the others where
    they are, so that the slice keeps its length, is a rearrangement of what
    it was, and is restored by a second [Swap] of the same indices. *)
Theorem matches_Swap_exchanges (mm : list Match) (i j : Z) :
  match matches_Swap mm i j with
  | None => ~ (0 <= i < matches_Len mm /\ 0 <= j < matches_Len mm)
  | Some mm' =>
      (0 <= i < matches_Len mm /\ 0 <= j < matches_Len mm) /\
      matches_Len mm' = matches_Len mm /\
      matches_at mm' i = matches_at mm j /\
      matches_at mm' j = matches_at mm i /\
      (forall k, k <> i -> k <> j -> matches_at mm' k = matches_at mm k) /\
      Permutation mm mm' /\
      matches_Swap mm' i j = Some mm
  end.
Proof.
  unfold matches_Swap.
  destruct (matches_at mm j) as [mj|] eqn:Ej;
    [|intros [_ Hj]; destruct (matches_at_in_range mm j Hj); congruence].
  destruct (matches_at mm i) as [mi|] eqn:Ei;
    [|intros [Hi _]; destruct (matches_at_in_range mm i Hi); congruence].
  apply matches_at_some in Ei, Ej.
  destruct Ei as [Hi Ei], Ej as [Hj Ej]. unfold matches_Len in *.
  set (mm1 := matches_set mm (Z.to_nat i) mj).
  set (mm' := matches_set mm1 (Z.to_nat j) mi).
  assert (L1 : length mm1 = length mm) by apply matches_set_length.
  assert (L' : length mm' = length mm)
    by (unfold mm'; now rewrite matches_set_length).
  assert (Hnth : forall k,
            nth_error mm' k =
            if Nat.eqb k (Z.to_nat j) then Some mi
            else if Nat.eqb k (Z.to_nat i) then Some mj
            else nth_error mm k).
  { intros k. unfold mm'. rewrite matches_set_nth by lia.
    destruct (Nat.eqb k (Z.to_nat j)); [reflexivity|].
    unfold mm1. now rewrite matches_set_nth by lia. }
  assert (Hat : forall k, 0 <= k < Z.of_nat (length mm) ->
            matches_at mm' k =
            if k =? j then Some mi else if k =? i then Some mj
            else matches_at mm k).
  { intros k Hk.
    destruct (matches_at_in_range mm k) as [mk Ek]; [unfold matches_Len; lia|].
    rewrite Ek. apply matches_at_some in Ek. destruct Ek as [_ Ek].
    assert (E : matches_at mm' k = nth_error mm' (Z.to_nat k)).
    { unfold matches_at. rewrite L'.
      replace ((0 <=? k) && (k <? Z.of_nat (length mm))) with true; [reflexivity|].
      symmetry. apply andb_true_iff. split; [apply Z.leb_le | apply Z.ltb_lt]; lia. }
    rewrite E, Hnth.
    destruct (k =? j) eqn:Kj.
    - apply Z.eqb_eq in Kj. subst k. now rewrite Nat.eqb_refl.
    - apply Z.eqb_neq in Kj.
      replace (Nat.eqb (Z.to_nat k) (Z.to_nat j)) with false
        by (symmetry; apply Nat.eqb_neq; lia).
      destruct (k =? i) eqn:Ki.
      + apply Z.eqb_eq in Ki. subst k. now rewrite Nat.eqb_refl.
      + apply Z.eqb_neq in Ki.
        replace (Nat.eqb (Z.to_nat k) (Z.to_nat i)) with false
          by (symmetry; apply Nat.eqb_neq; lia).
        exact Ek. }
  assert (Ai : matches_at mm i = Some mi)
    by (apply matches_at_some; unfold matches_Len; auto).
  assert (Aj : matches_at mm j = Some mj)
    by (apply matches_at_some; unfold matches_Len; auto).
  assert (A'i : matches_at mm' i = Some mj).
  { rewrite Hat by lia. destruct (i =? j) eqn:E.
    - apply Z.eqb_eq in E. subst j. congruence.
    - now rewrite Z.eqb_refl. }
  assert (A'j : matches_at mm' j = Some mi)
    by (rewrite Hat by lia; now rewrite Z.eqb_refl).
  split; [auto|]. split; [now rewrite L'|].
  split; [congruence|]. split; [congruence|]. split; [|split].
  - intros k Hki Hkj.
    destruct (Z_lt_le_dec k 0) as [Hneg|Hpos];
      [rewrite !matches_at_out_of_range; unfold matches_Len; try lia; reflexivity|].
    destruct (Z_lt_le_dec k (Z.of_nat (length mm))) as [Hlt|Hge];
      [|rewrite !matches_at_out_of_range; unfold matches_Len; try lia; reflexivity].
    rewrite Hat by lia.
    replace (k =? j) with false by (symmetry; apply Z.eqb_neq; assumption).
    replace (k =? i) with false by (symmetry; apply Z.eqb_neq; assumption).
    reflexivity.
  - apply Permutation_cons_inv with (a := mj).
    rewrite (matches_set_perm mm (Z.to_nat i) mi mj Ei). fold mm1.
    apply matches_set_perm.
    unfold mm1. rewrite matches_set_nth by lia.
    destruct (Nat.eqb (Z.to_nat j) (Z.to_nat i)); [reflexivity | assumption].
  - rewrite A'i, A'j. f_equal. apply nth_error_ext. intros k.
    rewrite matches_set_nth by (rewrite matches_set_length; lia).
    rewrite matches_set_nth by lia. rewrite Hnth.
    destruct (Nat.eqb k (Z.to_nat j)) eqn:Kj.
    + apply Nat.eqb_eq in Kj. subst k. now rewrite Ej.
    + destruct (Nat.eqb k (Z.to_nat i)) eqn:Ki; [|reflexivity].
      apply Nat.eqb_eq in Ki. subst k. now rewrite Ei.
Qed.

(** ** All (locateimage.go) *)

(** X7: [All] returns the error of the scan, nil or not, together with a
    rearrangement of all the matches the scan emitted: the matches found
    before a cancellation are returned with its error. *)
Theorem All_returns_emitted (ctx : Context) (canvas sample : image.RGBA)
    (tolerance : Q) :
  exists mm,
    All ctx (image.RGBAImage canvas) (image.RGBAImage sample) tolerance
    = (fst (foreachRGBA ctx canvas sample tolerance keepGoing tt), mm) /\
    Permutation mm (emitted ctx canvas sample tolerance) /\
    (forall m, In m mm <-> In m (emitted ctx canvas sample tolerance)).
Proof.
  destruct (All_emitted ctx canvas sample tolerance) as (mm & E & Hperm).
  exists mm. split; [exact E|]. split; [exact Hperm|].
  intros m. split; apply Permutation_in; [assumption | now symmetry].
Qed.

Lemma NoDup_map_sorted {A B : Type} (R : B -> B -> Prop) (key : A -> B)
    (g : A -> Match) (l : list A) :
  (forall b, ~ R b b) ->
  StronglySorted R (map key l) ->
  (forall a a', In a l -> In a' l -> Rect (g a) = Rect (g a') -> key a = key a') ->
  NoDup (map (fun a => Rect (g a)) l).
Proof.
  intros Hirr. induction l as [|a l IH]; cbn; intros Hs Hinj; constructor.
  - apply StronglySorted_inv in Hs. destruct Hs as [_ Hall].
    rewrite Forall_forall in Hall.
    intros Hin. apply in_map_iff in Hin. destruct Hin as (a' & E & Ha').
    assert (Hk : key a = key a') by (apply Hinj; auto).
    apply (Hirr (key a)). rewrite Hk at 2. apply Hall, in_map, Ha'.
  - apply StronglySorted_inv in Hs. destruct Hs as [Hs _]. apply IH; auto.
Qed.

(** X8: no two matches of a scan have the same rectangle, neither among
    the emitted matches nor in the list of [All] (for well-formed image
    rectangles). *)
Theorem matches_have_distinct_rectangles (ctx : Context)
    (canvas sample : image.RGBA) (tolerance : Q) :
  WellFormed (image.Rect canvas) -> WellFormed (image.Rect sample) ->
  NoDup (map Rect (emitted ctx canvas sample tolerance)) /\
  NoDup (map Rect (snd (All ctx (image.RGBAImage canvas)
                          (image.RGBAImage sample) tolerance))).
Proof.
  intros Hc Hs.
  assert (Hemit : NoDup (map Rect (emitted ctx canvas sample tolerance))).
  { unfold emitted. rewrite calls_walk, !map_map.
    set (cmp := compareAt canvas sample tolerance).
    set (mk := matchAt canvas sample).
    set (cs := walkCalls ctx cmp mk keepGoing (scanEvents canvas sample) tt).
    pose proof (walkCalls_accepted ctx cmp mk keepGoing (scanEvents canvas sample) tt)
      as Hacc. fold cs in Hacc. rewrite Forall_forall in Hacc.
    apply (NoDup_map_sorted rowMajor origin
             (fun c => mk (originX c) (originY c) (windowDiff c))).
    - intros [x y]. unfold rowMajor. cbn. lia.
    - apply walkCalls_sorted, scanEvents_sorted.
    - intros a a' Ha Ha' E.
      destruct (Hacc a Ha) as [Hin _]. destruct (Hacc a' Ha') as [Hin' _].
      apply in_scanEvents in Hin, Hin'.
      destruct Hin as (Hfit & Hy & Hx). destruct Hin' as (_ & Hy' & Hx').
      assert (E' : image.Min (Rect (mk (originX a) (originY a) (windowDiff a)))
                   = image.Min (Rect (mk (originX a') (originY a') (windowDiff a'))))
        by now rewrite E.
      unfold mk in E'. rewrite !matchAt_Rect_Min in E' by assumption.
      injection E' as Ex Ey. unfold origin. f_equal; lia. }
  split; [exact Hemit|].
  destruct (All_emitted ctx canvas sample tolerance) as (mm & E & Hperm).
  rewrite E. cbn [snd].
  apply (Permutation_NoDup (l := map Rect (emitted ctx canvas sample tolerance)));
    [|exact Hemit].
  apply Permutation_map. now symmetry.
Qed.

Lemma matches_have_distinct_rectangles_witness :
  NoDup (map Rect (emitted background (twoPixels white black) (onePixel black)
                     (1 # 2))).
Proof.
  apply (matches_have_distinct_rectangles background (twoPixels white black)
           (onePixel black) (1 # 2)).
  - unfold WellFormed, Int64.in_range. vm_compute. intuition discriminate.
  - unfold WellFormed, Int64.in_range. vm_compute. intuition discriminate.
Defined.

(** ** Cancellation *)

Lemma walk_cancelled_prefix (ctx : Context) (cmp : Z -> Z -> flow)
    (mk : Z -> Z -> Z -> Match) (evs : list event) :
  exists rest,
    walkCalls background cmp mk keepGoing evs tt =
    walkCalls ctx cmp mk keepGoing evs tt ++ rest /\
    (fst (walk ctx cmp mk keepGoing evs tt) = Returns None -> rest = []).
Proof.
  induction evs as [|[k|x y] evs IH]; cbn.
  - exists []. auto.
  - destruct (ctx k) as [e|]; cbn.
    + eexists. split; [reflexivity | discriminate].
    + exact IH.
  - destruct (cmp x y) as [diff| | |]; cbn.
    + destruct IH as (rest & E & Hnil). exists rest. rewrite E. auto.
    + exact IH.
    + exists []. split; [reflexivity | discriminate].
    + exists []. split; [reflexivity | discriminate].
Qed.

(** X9: cancellation only cuts the stream of matches short: what a scan
    emits under any context is an initial segment of what it emits under a
    context that is never cancelled, and a scan that returns nil has emitted
    all of it. *)
Theorem cancellation_truncates (ctx : Context) (canvas sample : image.RGBA)
    (tolerance : Q) :
  exists rest,
    emitted background canvas sample tolerance =
    emitted ctx canvas sample tolerance ++ rest /\
    (fst (foreachRGBA ctx canvas sample tolerance keepGoing tt) = Returns None ->
     rest = []).
Proof.
  unfold emitted. rewrite !calls_walk, foreachRGBA_walk.
  destruct (walk_cancelled_prefix ctx (compareAt canvas sample tolerance)
              (matchAt canvas sample) (scanEvents canvas sample))
    as (rest & E & Hnil).
  exists (map fst (map (logged (matchAt canvas sample)) rest)).
  split.
  - rewrite E, !map_app. reflexivity.
  - intros H. rewrite (Hnil H). reflexivity.
Qed.

(** ** Find (locateimage.go) *)

(** X10: in [Fastest] mode [Find] returns, with a nil error, the first match
    of the scan in row-major order, and its callback is called just once
    and answers [ErrBreak], which stops the scan.  When the scan emits no
    match [Find] returns the zero [Match] with [ErrNotFound] after a scan
    that ran to its end, or else with the error of the context. *)
Theorem Find_Fastest_first (ctx : Context) (canvas sample : image.RGBA)
    (tolerance : Q) :
  match emitted ctx canvas sample tolerance with
  | m :: _ =>
      Find ctx (image.RGBAImage canvas) (image.RGBAImage sample) tolerance Fastest
      = (Returns None, m) /\
      calls ctx canvas sample tolerance (keepBest Fastest) (zeroMatch, 0)
      = [(m, Some ErrBreak)]
  | [] =>
      Find ctx (image.RGBAImage canvas) (image.RGBAImage sample) tolerance Fastest
      = (match fst (foreachRGBA ctx canvas sample tolerance keepGoing tt) with
         | Returns None => Returns (Some ErrNotFound)
         | Returns (Some e) =>
             Returns (Some (if error_eqb e ErrBreak then ErrNotFound else e))
         | stop => stop
         end, zeroMatch) /\
      calls ctx canvas sample tolerance (keepBest Fastest) (zeroMatch, 0) = []
  end.
Proof.
  unfold emitted, Find, Foreach. rewrite !calls_walk, !foreachRGBA_walk.
  pose proof (walk_Fastest ctx (compareAt canvas sample tolerance)
                (matchAt canvas sample) (scanEvents canvas sample) (zeroMatch, 0))
    as H.
  destruct (walkCalls ctx (compareAt canvas sample tolerance)
              (matchAt canvas sample) keepGoing (scanEvents canvas sample) tt)
    as [|c cs]; destruct H as [Ewalk Ecalls]; rewrite Ewalk, Ecalls; cbn.
  - split; [|reflexivity].
    destruct (fst (walk ctx _ _ keepGoing _ tt)) as [[e|]| |]; try reflexivity.
    destruct (error_eqb e ErrBreak); reflexivity.
  - split; reflexivity.
Qed.

Lemma Find_state (ctx : Context) (canvas sample : image.RGBA) (tolerance : Q)
    (selection : Selection) :
  let seen := map fst (calls ctx canvas sample tolerance (keepBest selection)
                         (zeroMatch, 0)) in
  let st := snd (foreachRGBA ctx canvas sample tolerance (keepBest selection)
                   (zeroMatch, 0)) in
  (seen = [] -> st = (zeroMatch, 0)) /\ (seen <> [] -> In (fst st) seen).
Proof.
  cbn zeta. rewrite foreachRGBA_state.
  destruct (map fst (calls ctx canvas sample tolerance (keepBest selection)
                       (zeroMatch, 0))) as [|m1 l].
  - split; [reflexivity | congruence].
  - split; [discriminate|]. intros _.
    pose proof (keepBest_fold_in selection l m1 (0 + 1)%i64) as Hfold.
    cbn [fold_left]. unfold keepBest at 2. cbn [Z.eqb orb].
    destruct (selection =? Fastest); cbn [snd]; exact Hfold.
Qed.

(** X11: whatever the mode, [ErrBreak] never leaves [Find]; as long as its
    callback was not called [Find] returns the zero [Match] and an error;
    and once it was called, the match [Find] returns, with or without an
    error, is one of the matches the callback was called with. *)
Theorem Find_result_sound (ctx : Context) (canvas sample : image.RGBA)
    (tolerance : Q) (selection : Selection) :
  let found := Find ctx (image.RGBAImage canvas) (image.RGBAImage sample)
                 tolerance selection in
  let seen := map fst (calls ctx canvas sample tolerance (keepBest selection)
                         (zeroMatch, 0)) in
  fst found <> Returns (Some ErrBreak) /\
  (seen = [] -> snd found = zeroMatch /\ fst found <> Returns None) /\
  (seen <> [] -> In (snd found) seen).
Proof.
  cbn zeta.
  destruct (Find_state ctx canvas sample tolerance selection) as [Hnil Hsome].
  unfold Find, Foreach.
  destruct (foreachRGBA ctx canvas sample tolerance (keepBest selection)
              (zeroMatch, 0)) as [res [best count]].
  cbn [snd fst] in Hnil, Hsome.
  split; [|split].
  - destruct res as [[e|]| |]; cbn; try discriminate.
    + destruct e; cbn;
        try discriminate;
        destruct (count =? 0); try discriminate;
        destruct ((selection =? Only) && (count >? 1)); discriminate.
    + destruct (count =? 0); try discriminate;
        destruct ((selection =? Only) && (count >? 1)); discriminate.
  - intros Hseen. injection (Hnil Hseen) as -> ->.
    destruct res as [[e|]| |]; cbn; split; try reflexivity; try discriminate.
    destruct (error_eqb e ErrBreak); discriminate.
  - intros Hseen. specialize (Hsome Hseen).
    destruct res as [[e|]| |]; exact Hsome.
Qed.

(** X12: in [Best] and [Only] mode, when the scan is stopped by an error of
    the context (other than [ErrBreak]), [Find] returns that error together
    with the best match found so far: the first of the matches of greatest
    similarity emitted before the cancellation, or the zero [Match] when
    there was none.  (As for the held match of a complete scan, the number
    of matches is taken to be below 2^63 and [maxTotalDiff] to be different
    from 0.) *)
Theorem Find_cancelled_returns_best_so_far (ctx : Context)
    (canvas sample : image.RGBA) (tolerance : Q) (selection : Selection)
    (e : error) :
  selection = Best \/ selection = Only ->
  maxTotalDiff canvas sample <> 0 ->
  Z.of_nat (length (emitted ctx canvas sample tolerance)) < Int64.half ->
  fst (foreachRGBA ctx canvas sample tolerance keepGoing tt) = Returns (Some e) ->
  e <> ErrBreak ->
  exists best,
    Find ctx (image.RGBAImage canvas) (image.RGBAImage sample) tolerance selection
    = (Returns (Some e), best) /\
    (emitted ctx canvas sample tolerance = [] -> best = zeroMatch) /\
    (emitted ctx canvas sample tolerance <> [] ->
     firstBest (emitted ctx canvas sample tolerance) best).
Proof.
  intros Hsel _ Hlen Hscan Hne.
  assert (Hnever : forall m st, fst (keepBest selection m st) = None).
  { intros m [b c]. unfold keepBest. destruct Hsel as [-> | ->]; reflexivity. }
  destruct (foreachRGBA_never_stopped ctx canvas sample tolerance
              (keepBest selection) (zeroMatch, 0) Hnever) as [Erun _].
  destruct (keepBest_fold_spec selection (emitted ctx canvas sample tolerance) Hlen)
    as (best & Efold & Hnil & Hbest).
  exists best. split; [|auto].
  unfold Find, Foreach. rewrite Erun, Efold, Hscan.
  destruct e; try reflexivity. contradiction.
Qed.

(** A context that is cancelled when row [k] is about to be scanned. *)
Definition cancelledAtRow (k : nat) : Context :=
  fun poll => if Nat.eqb poll k then Some Canceled else None.

Lemma Find_cancelled_returns_best_so_far_witness :
  exists best,
    Find (cancelledAtRow 1) (image.RGBAImage (newRGBA 1 2 (black ++ white)))
      (image.RGBAImage (onePixel black)) 0 Best
    = (Returns (Some Canceled), best) /\
    firstBest (emitted (cancelledAtRow 1) (newRGBA 1 2 (black ++ white))
                 (onePixel black) 0) best.
Proof.
  destruct (Find_cancelled_returns_best_so_far (cancelledAtRow 1)
              (newRGBA 1 2 (black ++ white)) (onePixel black) 0 Best Canceled)
    as (best & Efind & _ & Hbest).
  - left. reflexivity.
  - vm_compute. discriminate.
  - vm_compute. reflexivity.
  - vm_compute. reflexivity.
  - discriminate.
  - exists best. split; [exact Efind|]. apply Hbest. vm_compute. discriminate.
Defined.

(** ** The comparison of a window, pixel by pixel *)

Lemma byteAt_bound (pix : list byte) (i : Z) : 0 <= byteAt pix i <= 255.
Proof.
  unfold byteAt. destruct (nth_error pix (Z.to_nat i)); [apply byte_value_bound | lia].
Qed.

Lemma offsetDiff_bound (pc ps : list byte) (icanv isamp : Z) :
  0 <= offsetDiff pc ps icanv isamp <= 765.
Proof.
  unfold offsetDiff.
  pose proof (byteAt_bound pc icanv). pose proof (byteAt_bound ps isamp).
  pose proof (byteAt_bound pc (icanv + 1)). pose proof (byteAt_bound ps (isamp + 1)).
  pose proof (byteAt_bound pc (icanv + 2)). pose proof (byteAt_bound ps (isamp + 2)).
  lia.
Qed.

Lemma index_byteAt (pix : list byte) (i : Z) :
  0 <= i < Z.of_nat (length pix) -> index pix i = Some (byteAt pix i).
Proof.
  intros H. destruct (index_some pix i H) as [v E]. rewrite E.
  unfold index in E. unfold byteAt.
  destruct ((0 <=? i) && (i <? Z.of_nat (length pix))); [|discriminate].
  destruct (nth_error pix (Z.to_nat i)); cbn in E; congruence.
Qed.

Lemma pixelDelta_offsetDiff (pc ps : list byte) (icanv isamp : Z) :
  Z.of_nat (length pc) < addressable -> Z.of_nat (length ps) < addressable ->
  0 <= icanv -> icanv + 4 <= Z.of_nat (length pc) ->
  0 <= isamp -> isamp + 4 <= Z.of_nat (length ps) ->
  pixelDelta pc ps icanv isamp = Some (offsetDiff pc ps icanv isamp).
Proof.
  intros Lc Ls Hc0 Hc1 Hs0 Hs1.
  destruct (pixelDelta_some pc ps icanv isamp Lc Ls Hc0 Hc1 Hs0 Hs1) as [delta E].
  rewrite E. f_equal. apply pixelDelta_spec in E.
  destruct E as (c0 & s0 & c1 & s1 & c2 & s2 & E0 & F0 & E1 & F1 & E2 & F2 & ->).
  unfold Int64.add in *.
  assert (W : forall base k, 0 <= base -> base < addressable -> 0 <= k <= 2 ->
              Int64.wrap (base + k) = base + k).
  { intros base k H0 H1 Hk. apply wrap_addressable. rewrite addressable_value in *. lia. }
  rewrite W in E0, F0, E1, F1, E2, F2 by lia.
  rewrite Z.add_0_r in E0, F0.
  rewrite index_byteAt in E0, F0, E1, F1, E2, F2 by lia.
  unfold offsetDiff. congruence.
Qed.

Lemma checkDiffs_app (p t : Z) (ds ds' : list Z) (diff : Z) :
  checkDiffs p t (ds ++ ds') diff =
  match checkDiffs p t ds diff with
  | Some d => checkDiffs p t ds' d
  | None => None
  end.
Proof.
  revert diff. induction ds as [|delta ds IH]; intros diff; cbn; [reflexivity|].
  destruct (delta >? p); [reflexivity|].
  destruct (diff + delta >? t); [reflexivity | apply IH].
Qed.

Lemma checkDiffs_sum (p t : Z) (ds : list Z) (diff d : Z) :
  checkDiffs p t ds diff = Some d -> d = diff + sumZ ds.
Proof.
  unfold sumZ.
  revert diff. induction ds as [|delta ds IH]; intros diff; cbn [checkDiffs fold_right].
  - intros [= <-]. lia.
  - destruct (delta >? p); [discriminate|].
    destruct (diff + delta >? t); [discriminate|].
    intros H. apply IH in H. lia.
Qed.

Lemma rowDiffs_bound (pc ps : list byte) (n : nat) (icanv isamp : Z) :
  0 <= sumZ (rowDiffs pc ps n icanv isamp) <= 765 * Z.of_nat n.
Proof.
  revert icanv isamp. induction n as [|n IH]; intros icanv isamp; cbn [rowDiffs sumZ fold_right].
  - lia.
  - pose proof (offsetDiff_bound pc ps icanv isamp).
    specialize (IH (icanv + 4) (isamp + 4)). unfold sumZ in IH. lia.
Qed.

(** The loop over the pixels of a row makes the two checks on the
    differences of the row. *)
Lemma pixelLoop_check (pc ps : list byte) (p t : Z) (n : nat) :
  Z.of_nat (length pc) < addressable -> Z.of_nat (length ps) < addressable ->
  forall (fuel : nat) (icanv isamp diff : Z),
    (n <= fuel)%nat ->
    0 <= icanv -> icanv + 4 * Z.of_nat n <= Z.of_nat (length pc) ->
    0 <= isamp -> isamp + 4 * Z.of_nat n <= Z.of_nat (length ps) ->
    0 <= diff -> diff + 765 * Z.of_nat n < Int64.half ->
    pixelLoop pc ps p t fuel icanv isamp (isamp + 4 * Z.of_nat n) diff =
    match checkDiffs p t (rowDiffs pc ps n icanv isamp) diff with
    | Some d => LoopDone d
    | None => BreakMatchLoop
    end.
Proof.
  intros Lc Ls.
  induction n as [|n IH]; intros fuel icanv isamp diff Hf Hc0 Hc1 Hs0 Hs1 Hd0 Hd1.
  - assert (E : (isamp <? isamp + 4 * Z.of_nat 0) = false) by (apply Z.ltb_ge; lia).
    destruct fuel; cbn [pixelLoop rowDiffs checkDiffs]; rewrite E; reflexivity.
  - destruct fuel as [|fuel]; [lia|]. cbn [pixelLoop rowDiffs checkDiffs].
    replace (isamp <? isamp + 4 * Z.of_nat (S n)) with true
      by (symmetry; apply Z.ltb_lt; lia).
    rewrite pixelDelta_offsetDiff by (try assumption; lia).
    pose proof (offsetDiff_bound pc ps icanv isamp) as Hb.
    set (delta := offsetDiff pc ps icanv isamp) in *.
    destruct (delta >? p); [reflexivity|].
    unfold pixSize, Int64.add.
    rewrite (wrap_small (diff + delta)) by (unfold Int64.in_range; rewrite half_value in *; lia).
    destruct (diff + delta >? t); [reflexivity|].
    rewrite (wrap_addressable (icanv + 4)) by (rewrite addressable_value in *; lia).
    rewrite (wrap_addressable (isamp + 4)) by (rewrite addressable_value in *; lia).
    replace (isamp + 4 * Z.of_nat (S n)) with (isamp + 4 + 4 * Z.of_nat n) by lia.
    apply IH; lia.
Qed.

Lemma blockDiffs_bound (pc ps : list byte) (strideCanv strideSamp : Z) (n r : nat)
    (rowsamp rowcanv : Z) :
  0 <= sumZ (blockDiffs pc ps strideCanv strideSamp n r rowsamp rowcanv)
  <= 765 * (Z.of_nat r * Z.of_nat n).
Proof.
  revert rowsamp rowcanv. induction r as [|r IH]; intros rowsamp rowcanv; cbn [blockDiffs].
  - cbn. lia.
  - unfold sumZ in *. rewrite fold_right_app.
    assert (Happ : forall l acc, fold_right Z.add acc l = fold_right Z.add 0 l + acc).
    { induction l as [|a l IHl]; intros acc; cbn; [lia | rewrite IHl; lia]. }
    rewrite Happ.
    pose proof (rowDiffs_bound pc ps n rowcanv rowsamp) as Hrow. unfold sumZ in Hrow.
    specialize (IH (rowsamp + strideSamp) (rowcanv + strideCanv)). nia.
Qed.

(** The loop over the rows of the sample makes the two checks on the
    differences of all the rows in turn. *)
Lemma sampleRowLoop_check (pc ps : list byte) (strideCanv strideSamp wsamp p t : Z)
    (r : nat) :
  Z.of_nat (length pc) < addressable -> Z.of_nat (length ps) < addressable ->
  0 < strideSamp < addressable -> 0 <= strideCanv < addressable -> 0 <= wsamp ->
  forall (fuel : nat) (rowsamp rowcanv diff : Z),
    (r <= fuel)%nat ->
    0 <= rowsamp -> 0 <= rowcanv ->
    rowsamp + Z.of_nat r * strideSamp < 4 * addressable ->
    rowcanv + Z.of_nat r * strideCanv < 4 * addressable ->
    ((0 < r)%nat ->
     rowsamp + (Z.of_nat r - 1) * strideSamp + 4 * wsamp <= Z.of_nat (length ps) /\
     rowcanv + (Z.of_nat r - 1) * strideCanv + 4 * wsamp <= Z.of_nat (length pc)) ->
    0 <= diff -> diff + 765 * (Z.of_nat r * wsamp) < Int64.half ->
    sampleRowLoop pc ps strideCanv strideSamp wsamp p t fuel
      rowsamp (rowsamp + Z.of_nat r * strideSamp) rowcanv diff =
    match checkDiffs p t
            (blockDiffs pc ps strideCanv strideSamp (Z.to_nat wsamp) r rowsamp rowcanv)
            diff with
    | Some d => LoopDone d
    | None => BreakMatchLoop
    end.
Proof.
  intros Lc Ls Hss Hsc Hw.
  induction r as [|r IH];
    intros fuel rowsamp rowcanv diff Hf Hs0 Hc0 Bs Bc Hrows Hd0 Hd1.
  - assert (E : (rowsamp <? rowsamp + Z.of_nat 0 * strideSamp) = false)
      by (apply Z.ltb_ge; lia).
    destruct fuel; cbn [sampleRowLoop blockDiffs checkDiffs]; rewrite E; reflexivity.
  - destruct fuel as [|fuel]; [lia|]. cbn [sampleRowLoop blockDiffs].
    replace (rowsamp <? rowsamp + Z.of_nat (S r) * strideSamp) with true
      by (symmetry; apply Z.ltb_lt; nia).
    destruct Hrows as [Rs Rc]; [lia|].
    assert (Hrs : 0 <= Z.of_nat r * strideSamp) by nia.
    assert (Hrc : 0 <= Z.of_nat r * strideCanv) by nia.
    assert (Hrw : 0 <= Z.of_nat r * wsamp) by nia.
    replace (Z.of_nat (S r) - 1) with (Z.of_nat r) in Rs, Rc by lia.
    unfold pixSize, Int64.add, Int64.mul.
    rewrite (wrap_addressable (4 * wsamp)) by (rewrite addressable_value in *; lia).
    rewrite (wrap_addressable (rowsamp + 4 * wsamp))
      by (rewrite addressable_value in *; lia).
    rewrite checkDiffs_app.
    pose proof (pixelLoop_check pc ps p t (Z.to_nat wsamp) Lc Ls
                  (Z.to_nat (rowsamp + 4 * wsamp - rowsamp)) rowcanv rowsamp diff)
      as Hpix.
    rewrite Z2Nat.id in Hpix by assumption.
    rewrite Hpix by nia.
    destruct (checkDiffs p t (rowDiffs pc ps (Z.to_nat wsamp) rowcanv rowsamp) diff)
      as [d|] eqn:E; [|reflexivity].
    apply checkDiffs_sum in E.
    pose proof (rowDiffs_bound pc ps (Z.to_nat wsamp) rowcanv rowsamp) as Hrow.
    rewrite Z2Nat.id in Hrow by assumption.
    rewrite (wrap_addressable (rowsamp + strideSamp))
      by (rewrite addressable_value in *; nia).
    rewrite (wrap_addressable (rowcanv + strideCanv))
      by (rewrite addressable_value in *; nia).
    replace (rowsamp + Z.of_nat (S r) * strideSamp)
      with (rowsamp + strideSamp + Z.of_nat r * strideSamp) by lia.
    apply IH; try lia; nia.
Qed.

Lemma rowDiffs_map (pc ps : list byte) (n : nat) (icanv isamp : Z) :
  rowDiffs pc ps n icanv isamp =
  map (fun c => offsetDiff pc ps (icanv + 4 * Z.of_nat c) (isamp + 4 * Z.of_nat c))
    (seq 0 n).
Proof.
  revert icanv isamp. induction n as [|n IH]; intros icanv isamp; cbn [rowDiffs seq map].
  - reflexivity.
  - f_equal; [f_equal; lia|].
    rewrite IH, <- seq_shift, map_map. apply map_ext. intros c. f_equal; lia.
Qed.

Lemma flat_map_after_map {A B C : Type} (g : B -> list C) (h : A -> B) (l : list A) :
  flat_map g (map h l) = flat_map (fun a => g (h a)) l.
Proof.
  induction l as [|a l IH]; cbn; [reflexivity | now rewrite IH].
Qed.

Lemma blockDiffs_flat_map (pc ps : list byte) (strideCanv strideSamp : Z) (n r : nat)
    (rowsamp rowcanv : Z) :
  blockDiffs pc ps strideCanv strideSamp n r rowsamp rowcanv =
  flat_map
    (fun k => rowDiffs pc ps n (rowcanv + Z.of_nat k * strideCanv)
                (rowsamp + Z.of_nat k * strideSamp))
    (seq 0 r).
Proof.
  revert rowsamp rowcanv.
  induction r as [|r IH]; intros rowsamp rowcanv; cbn [blockDiffs seq flat_map].
  - reflexivity.
  - f_equal; [f_equal; lia|].
    rewrite IH, <- seq_shift, flat_map_after_map.
    apply flat_map_ext. intros k. f_equal; lia.
Qed.

Lemma checkDiffs_spec (p t : Z) (ds : list Z) (diff : Z) :
  Forall (fun delta => 0 <= delta) ds ->
  ds <> [] \/ diff <= t ->
  checkDiffs p t ds diff =
  if forallb (fun delta => delta <=? p) ds && (diff + sumZ ds <=? t)
  then Some (diff + sumZ ds) else None.
Proof.
  unfold sumZ. intros Hpos. revert diff.
  induction Hpos as [|delta ds Hd Hpos IH]; intros diff Hne; cbn [checkDiffs forallb fold_right].
  - destruct Hne as [Hne|Hle]; [congruence|].
    rewrite Z.add_0_r. replace (diff <=? t) with true by (symmetry; apply Z.leb_le; lia).
    reflexivity.
  - assert (Hsum : 0 <= fold_right Z.add 0 ds).
    { clear -Hpos. induction Hpos; cbn; lia. }
    destruct (delta >? p) eqn:Ep.
    + replace (delta <=? p) with false by (symmetry; apply Z.leb_gt; lia). reflexivity.
    + replace (delta <=? p) with true by (symmetry; apply Z.leb_le; lia). cbn [andb].
      destruct (diff + delta >? t) eqn:Et.
      * replace (diff + (delta + fold_right Z.add 0 ds) <=? t) with false
          by (symmetry; apply Z.leb_gt; lia).
        now rewrite andb_false_r.
      * rewrite IH by (right; lia).
        replace (diff + delta + fold_right Z.add 0 ds)
          with (diff + (delta + fold_right Z.add 0 ds)) by lia.
        reflexivity.
Qed.

(** The comparison of a window, with its early exits, is the full
    evaluation of the two checks on the differences of its pixels. *)
Lemma compareAt_evaluated (canvas sample : image.RGBA) (tolerance : Q)
    (x y : Z) :
  ValidRGBA canvas -> ValidRGBA sample -> fits canvas sample = true ->
  0 <= y < scanHeight canvas sample -> 0 <= x < scanWidth canvas sample ->
  compareAt canvas sample tolerance x y =
  if forallb (fun delta => delta <=? pixelDiffThreshold tolerance)
       (windowDiffs canvas sample x y)
     && (sumZ (windowDiffs canvas sample x y)
         <=? totalDiffThreshold canvas sample tolerance)
  then LoopDone (sumZ (windowDiffs canvas sample x y))
  else BreakMatchLoop.
Proof.
  intros Vc Vs Hfit Hy Hx.
  destruct (ValidRGBA_inversion _ _ Vc Vs Hfit) as (Dx & Dy & Pc & Ps).
  destruct Vc as (_ & Sc & Lc & _). destruct Vs as (_ & Ss & Ls & _).
  rewrite scanHeight_spec in Hy by assumption.
  rewrite scanWidth_spec in Hx by assumption.
  unfold windowDiffs, pixelDiff, pixOffset.
  set (wc := image.Dx (image.Rect canvas)) in *.
  set (hc := image.Dy (image.Rect canvas)) in *.
  set (ws := image.Dx (image.Rect sample)) in *.
  set (hs := image.Dy (image.Rect sample)) in *.
  set (sc := image.Stride canvas) in *.
  set (ss := image.Stride sample) in *.
  set (pc := image.Pix canvas) in *.
  set (ps := image.Pix sample) in *.
  set (p := pixelDiffThreshold tolerance).
  set (t := totalDiffThreshold canvas sample tolerance).
  assert (Hysc : 0 <= y * sc <= (hc - 1) * sc) by nia.
  assert (Hhs : 0 <= (hs - 1) * ss) by nia.
  assert (Hrow : (y + hs - 1) * sc <= (hc - 1) * sc) by nia.
  assert (Harea : 4 * (ws * hs) <= Z.of_nat (length ps)) by nia.
  assert (Eblock :
    flat_map
      (fun r => map (fun c => offsetDiff pc ps
                                ((y + Z.of_nat r) * sc + (x + Z.of_nat c) * 4)
                                (Z.of_nat r * ss + Z.of_nat c * 4))
                  (seq 0 (Z.to_nat ws)))
      (seq 0 (Z.to_nat hs))
    = blockDiffs pc ps sc ss (Z.to_nat ws) (Z.to_nat hs) 0 (y * sc + x * 4)).
  { rewrite blockDiffs_flat_map. apply flat_map_ext. intros r.
    rewrite rowDiffs_map. apply map_ext. intros c. f_equal; lia. }
  rewrite Eblock.
  set (ds := blockDiffs pc ps sc ss (Z.to_nat ws) (Z.to_nat hs) 0 (y * sc + x * 4)).
  assert (Hcheck : compareAt canvas sample tolerance x y =
                   match checkDiffs p t ds 0 with
                   | Some d => LoopDone d
                   | None => BreakMatchLoop
                   end).
  { unfold compareAt, matchLoop. fold wc hc ws hs sc ss pc ps p t.
    unfold pixSize, Int64.add, Int64.mul.
    rewrite (wrap_addressable (y * sc)) by (rewrite addressable_value in *; lia).
    rewrite (wrap_addressable (x * 4)) by (rewrite addressable_value in *; lia).
    rewrite (wrap_addressable (y * sc + x * 4)) by (rewrite addressable_value in *; lia).
    rewrite (wrap_addressable (ss * hs)) by (rewrite addressable_value in *; nia).
    replace (ss * hs) with (0 + Z.of_nat (Z.to_nat hs) * ss) by (rewrite Z2Nat.id; lia).
    apply sampleRowLoop_check; try assumption; try lia.
    - rewrite Z2Nat.id by lia. apply Z2Nat.inj_le; nia.
    - rewrite Z2Nat.id by lia. rewrite half_value. rewrite addressable_value in *. nia. }
  rewrite Hcheck.
  rewrite checkDiffs_spec.
  - rewrite Z.add_0_l. destruct (_ && _); reflexivity.
  - unfold ds. rewrite blockDiffs_flat_map. apply Forall_forall. intros d Hd.
    apply in_flat_map in Hd. destruct Hd as (r & _ & Hd).
    rewrite rowDiffs_map in Hd. apply in_map_iff in Hd. destruct Hd as (c & <- & _).
    apply offsetDiff_bound.
  - left. unfold ds.
    destruct (Z.to_nat hs) as [|r] eqn:Er; [lia|].
    destruct (Z.to_nat ws) as [|n] eqn:En; [lia|].
    cbn. discriminate.
Qed.

Lemma windowDiffs_nonneg (canvas sample : image.RGBA) (x y : Z) :
  Forall (fun delta => 0 <= delta <= 765) (windowDiffs canvas sample x y).
Proof.
  unfold windowDiffs. apply Forall_forall. intros d Hd.
  apply in_flat_map in Hd. destruct Hd as (r & _ & Hd).
  apply in_map_iff in Hd. destruct Hd as (c & <- & _).
  apply offsetDiff_bound.
Qed.

Lemma sumZ_nonneg (l : list Z) :
  Forall (fun delta => 0 <= delta <= 765) l -> 0 <= sumZ l.
Proof.
  unfold sumZ. induction 1; cbn; lia.
Qed.

(** X13: on images laid out as the [image] package lays them out, the
    comparison of a window, with its early exits, decides what the full
    evaluation decides: a window is accepted exactly when every pixel
    difference is within the pixel threshold and their sum is within the
    window threshold, and its [diff] then is that sum; otherwise it is
    rejected (no panic, no endless loop). *)
Theorem compareAt_full_evaluation (canvas sample : image.RGBA) (tolerance : Q)
    (x y : Z) :
  ValidRGBA canvas -> ValidRGBA sample -> fits canvas sample = true ->
  0 <= y < scanHeight canvas sample -> 0 <= x < scanWidth canvas sample ->
  let within :=
    Forall (fun delta => delta <= pixelDiffThreshold tolerance)
      (windowDiffs canvas sample x y) /\
    sumZ (windowDiffs canvas sample x y)
    <= totalDiffThreshold canvas sample tolerance in
  (within ->
   compareAt canvas sample tolerance x y
   = LoopDone (sumZ (windowDiffs canvas sample x y))) /\
  (~ within -> compareAt canvas sample tolerance x y = BreakMatchLoop) /\
  (forall diff,
     compareAt canvas sample tolerance x y = LoopDone diff ->
     within /\ diff = sumZ (windowDiffs canvas sample x y) /\ 0 <= diff).
Proof.
  intros Vc Vs Hfit Hy Hx within.
  rewrite (compareAt_evaluated canvas sample tolerance x y Vc Vs Hfit Hy Hx).
  assert (Hiff : forallb (fun delta => delta <=? pixelDiffThreshold tolerance)
                   (windowDiffs canvas sample x y)
                 && (sumZ (windowDiffs canvas sample x y)
                     <=? totalDiffThreshold canvas sample tolerance) = true
                 <-> within).
  { unfold within. rewrite andb_true_iff, forallb_forall, Forall_forall, Z.leb_le.
    split; intros [H1 H2]; (split; [|exact H2]); intros d Hd.
    - apply Z.leb_le. auto.
    - apply Z.leb_le. auto. }
  destruct (_ && _).
  - split; [reflexivity|]. split; [intros H; exfalso; apply H, Hiff; reflexivity|].
    intros diff [= <-]. split; [now apply Hiff|]. split; [reflexivity|].
    apply sumZ_nonneg, windowDiffs_nonneg.
  - split; [intros H; apply Hiff in H; discriminate|].
    split; [reflexivity | discriminate].
Qed.

Lemma compareAt_full_evaluation_witness :
  compareAt (twoPixels white black) (onePixel black) (1 # 2) 0 0 = LoopDone 765.
Proof.
  destruct (compareAt_full_evaluation (twoPixels white black) (onePixel black)
              (1 # 2) 0 0) as [Hin _].
  - unfold ValidRGBA, WellFormed, Int64.in_range. vm_compute. intuition discriminate.
  - unfold ValidRGBA, WellFormed, Int64.in_range. vm_compute. intuition discriminate.
  - reflexivity.
  - vm_compute. split; [discriminate | reflexivity].
  - vm_compute. split; [discriminate | reflexivity].
  - rewrite Hin; [reflexivity|].
    split; [|vm_compute; discriminate].
    repeat constructor; vm_compute; discriminate.
Defined.

(** ** The similarity of a match *)

Lemma totalDiffThreshold_zero (canvas sample : image.RGBA) :
  totalDiffThreshold canvas sample 0 = 0.
Proof.
  unfold totalDiffThreshold, float_of_int64, int64_of_float.
  assert (E : (0 * inject_Z (maxTotalDiff canvas sample) + (1 # 2) == 1 # 2)%Q) by ring.
  assert (Hpos : Qle_bool 0 (0 * inject_Z (maxTotalDiff canvas sample) + (1 # 2)) = true).
  { apply Qle_bool_iff. rewrite E. discriminate. }
  rewrite Hpos, E. reflexivity.
Qed.

Lemma thresholds_nonneg (canvas sample : image.RGBA) (tolerance : Q) :
  0 <= maxTotalDiff canvas sample -> (0 <= tolerance)%Q ->
  0 <= pixelDiffThreshold tolerance /\
  0 <= totalDiffThreshold canvas sample tolerance.
Proof.
  intros HM Ht. split.
  - rewrite <- pixelDiffThreshold_zero. now apply pixelDiffThreshold_mono.
  - rewrite <- (totalDiffThreshold_zero canvas sample).
    now apply totalDiffThreshold_mono.
Qed.

Lemma Zle_of_Qle_half (d M : Z) :
  (inject_Z d <= inject_Z M + (1 # 2))%Q -> d <= M.
Proof.
  unfold Qle. cbn. lia.
Qed.

(** X14: on images laid out as the [image] package lays them out, with a
    [maxTotalDiff] below 2^52 (up to which a [float64] holds an integer,
    and an integer plus a half, exactly) and for a tolerance in [0, 1], the
    [diff] of every window that is accepted and handed to the callback
    lies between 0 and [maxTotalDiff], so that the similarity of every
    match is a score between 0 and 1. *)
Theorem similarity_range {S : Type} (ctx : Context)
    (canvas sample : image.RGBA) (tolerance : Q)
    (f : Match -> S -> option error * S) (s : S) (m : Match) (e : option error) :
  ValidRGBA canvas -> ValidRGBA sample ->
  maxTotalDiff canvas sample < 2 ^ 52 ->
  (0 <= tolerance)%Q -> (tolerance <= 1)%Q ->
  In (m, e) (calls ctx canvas sample tolerance f s) ->
  (exists x y diff,
     compareAt canvas sample tolerance x y = LoopDone diff /\
     m = matchAt canvas sample x y diff /\
     0 <= diff <= maxTotalDiff canvas sample) /\
  (0 <= Similarity m)%Q /\ (Similarity m <= 1)%Q.
Proof.
  intros Vc Vs _ Ht0 Ht1 Hin.
  destruct (calls_inversion _ _ _ _ _ _ _ _ Hin)
    as (x & y & diff & Em & Hfit & Hy & Hx & Hcmp).
  pose proof (ValidRGBA_maxTotalDiff _ _ Vc Vs Hfit) as HM.
  subst m.
  destruct (thresholds_nonneg canvas sample tolerance) as [_ Hthr];
    [lia | assumption |].
  assert (Hdiff : diff <= totalDiffThreshold canvas sample tolerance).
  { pose proof Hcmp as Hcmp'. unfold compareAt, matchLoop in Hcmp'.
    apply sampleRowLoop_within in Hcmp'; [exact Hcmp' | exact Hthr]. }
  assert (Hpos : 0 <= diff).
  { pose proof Hcmp as Hcmp'.
    rewrite (compareAt_evaluated canvas sample tolerance x y Vc Vs Hfit Hy Hx)
      in Hcmp'.
    destruct (_ && _); [|discriminate]. injection Hcmp' as <-.
    apply sumZ_nonneg, windowDiffs_nonneg. }
  set (M := maxTotalDiff canvas sample) in *.
  assert (HMq : (0 < inject_Z M)%Q)
    by (change 0%Q with (inject_Z 0); now rewrite <- Zlt_Qlt).
  assert (Hraw : (0 <= tolerance * inject_Z M + (1 # 2))%Q).
  { apply Qle_trans with (0 + 0)%Q; [discriminate|].
    apply Qplus_le_compat; [|discriminate].
    apply Qmult_le_0_compat; [assumption | now apply Qlt_le_weak]. }
  assert (Hq : (inject_Z diff <= tolerance * inject_Z M + (1 # 2))%Q).
  { unfold totalDiffThreshold, int64_of_float, float_of_int64 in Hdiff. fold M in Hdiff.
    apply Qle_bool_iff in Hraw. rewrite Hraw in Hdiff.
    eapply Qle_trans; [|apply Qfloor_le]. now rewrite <- Zle_Qle. }
  assert (HdM : diff <= M).
  { assert (Hle : (inject_Z diff <= inject_Z M + (1 # 2))%Q).
    { eapply Qle_trans; [exact Hq|]. apply Qplus_le_l.
      setoid_replace (inject_Z M) with (1 * inject_Z M)%Q at 2 by ring.
      apply Qmult_le_compat_r; [assumption | now apply Qlt_le_weak]. }
    exact (Zle_of_Qle_half diff M Hle). }
  split; [exists x, y, diff; split; [exact Hcmp | split; [reflexivity | lia]]|].
  unfold matchAt, similarityOf, float_of_int64. cbn [Similarity]. fold M.
  rewrite Qred_correct.
  assert (Hq1 : (inject_Z diff / inject_Z M <= 1)%Q).
  { apply Qle_shift_div_r; [assumption|]. rewrite Qmult_1_l. now rewrite <- Zle_Qle. }
  assert (Hq0 : (0 <= inject_Z diff / inject_Z M)%Q).
  { apply Qle_shift_div_l; [assumption|]. rewrite Qmult_0_l.
    change 0%Q with (inject_Z 0). now rewrite <- Zle_Qle. }
  split; lra.
Qed.

Lemma similarity_range_witness :
  (exists x y diff,
     compareAt (twoPixels white black) (onePixel black) (1 # 2) x y
     = LoopDone diff /\
     matchAt (twoPixels white black) (onePixel black) 0 0 765
     = matchAt (twoPixels white black) (onePixel black) x y diff /\
     0 <= diff <= maxTotalDiff (twoPixels white black) (onePixel black)) /\
  (0 <= Similarity (matchAt (twoPixels white black) (onePixel black) 0 0 765))%Q /\
  (Similarity (matchAt (twoPixels white black) (onePixel black) 0 0 765) <= 1)%Q.
Proof.
  apply (similarity_range background (twoPixels white black) (onePixel black)
           (1 # 2) keepGoing tt _ None).
  - unfold ValidRGBA, WellFormed, Int64.in_range. vm_compute. intuition discriminate.
  - unfold ValidRGBA, WellFormed, Int64.in_range. vm_compute. intuition discriminate.
  - vm_compute. reflexivity.
  - vm_compute. discriminate.
  - vm_compute. discriminate.
  - vm_compute. left. reflexivity.
Defined.

(** ** An image searched for itself *)

Lemma offsetDiff_same (pix : list byte) (i : Z) : offsetDiff pix pix i i = 0.
Proof. unfold offsetDiff. rewrite !Z.sub_diag. reflexivity. Qed.

Lemma windowDiffs_same (img : image.RGBA) :
  Forall (fun delta => delta = 0) (windowDiffs img img 0 0).
Proof.
  unfold windowDiffs, pixelDiff. apply Forall_forall. intros d Hd.
  apply in_flat_map in Hd. destruct Hd as (r & _ & Hd).
  apply in_map_iff in Hd. destruct Hd as (c & <- & _).
  rewrite !Z.add_0_l. apply offsetDiff_same.
Qed.

Lemma sumZ_zero (l : list Z) : Forall (fun delta => delta = 0) l -> sumZ l = 0.
Proof. unfold sumZ. induction 1; cbn; lia. Qed.

(** X15: an image laid out as the [image] package lays it out, with at
    least one pixel, matches itself: searched for itself at any tolerance
    in [0, 1], under a context that is not cancelled at the start, the scan
    emits a single match, whose rectangle is the rectangle of the image and
    whose similarity is 1, and [Find] returns that match with a nil error
    in every mode. *)
Theorem image_matches_itself (ctx : Context) (img : image.RGBA) (tolerance : Q)
    (selection : Selection) :
  ValidRGBA img ->
  0 < image.Dx (image.Rect img) -> 0 < image.Dy (image.Rect img) ->
  (0 <= tolerance)%Q -> (tolerance <= 1)%Q ->
  ctx 0%nat = None ->
  exists m,
    Rect m = image.Rect img /\ Similarity m = 1%Q /\
    emitted ctx img img tolerance = [m] /\
    Find ctx (image.RGBAImage img) (image.RGBAImage img) tolerance selection
    = (Returns None, m).
Proof.
  intros V Hx Hy Ht _ Hctx.
  assert (Hfit : fits img img = true) by (apply fits_true; lia).
  assert (Ew : scanWidth img img = 1) by (rewrite scanWidth_spec; lia).
  assert (Eh : scanHeight img img = 1) by (rewrite scanHeight_spec; lia).
  assert (Eevs : scanEvents img img = [Poll 0; Window 0 0]).
  { unfold scanEvents. rewrite Hfit, Ew, Eh. reflexivity. }
  pose proof (ValidRGBA_maxTotalDiff img img V V Hfit) as HM.
  destruct (thresholds_nonneg img img tolerance) as [Hp Htot]; [lia | assumption |].
  assert (Ecmp : compareAt img img tolerance 0 0 = LoopDone 0).
  { rewrite compareAt_evaluated by (try assumption; lia).
    pose proof (windowDiffs_same img) as Hzero.
    rewrite (sumZ_zero _ Hzero).
    replace (forallb (fun delta => delta <=? pixelDiffThreshold tolerance)
               (windowDiffs img img 0 0)) with true.
    - replace (0 <=? totalDiffThreshold img img tolerance) with true
        by (symmetry; apply Z.leb_le; assumption).
      reflexivity.
    - symmetry. apply forallb_forall. intros d Hd.
      rewrite Forall_forall in Hzero. rewrite (Hzero d Hd).
      apply Z.leb_le. assumption. }
  exists (matchAt img img 0 0 0).
  split; [|split; [|split]].
  - destruct V as (W & _).
    pose proof (WellFormed_Dx _ W) as Ex. pose proof (WellFormed_Dy _ W) as Ey.
    destruct W as (C1 & C2 & C3 & C4 & C5 & C6 & C7 & C8).
    unfold Int64.in_range in *.
    unfold matchAt, image.Add, Int64.add. cbn [Rect image.X image.Y].
    rewrite !Z.add_0_r.
    rewrite (wrap_small (image.X (image.Min (image.Rect img))))
      by (unfold Int64.in_range; lia).
    rewrite (wrap_small (image.Y (image.Min (image.Rect img))))
      by (unfold Int64.in_range; lia).
    rewrite Ex, Ey.
    rewrite !wrap_small by (unfold Int64.in_range; lia).
    destruct (image.Rect img) as [[x0 y0] [x1 y1]]. cbn. repeat f_equal; lia.
  - apply similarityOf_zero.
  - unfold emitted. rewrite calls_walk, Eevs. cbn. rewrite Hctx, Ecmp. reflexivity.
  - unfold Find, Foreach. rewrite foreachRGBA_walk, Eevs. cbn [walk].
    rewrite Hctx, Ecmp. unfold keepBest. cbn [Z.eqb orb].
    change (0 + 1)%i64 with 1.
    destruct (selection =? Fastest) eqn:Ef.
    + cbn. apply Z.eqb_eq in Ef. subst selection. reflexivity.
    + cbn. rewrite andb_false_r. reflexivity.
Qed.

Lemma image_matches_itself_witness :
  exists m,
    Rect m = image.Rect (twoPixels white black) /\ Similarity m = 1%Q /\
    emitted background (twoPixels white black) (twoPixels white black) (1 # 4) = [m] /\
    Find background (image.RGBAImage (twoPixels white black))
      (image.RGBAImage (twoPixels white black)) (1 # 4) Only
    = (Returns None, m).
Proof.
  apply (image_matches_itself background (twoPixels white black) (1 # 4) Only).
  - unfold ValidRGBA, WellFormed, Int64.in_range. vm_compute. intuition discriminate.
  - vm_compute. reflexivity.
  - vm_compute. reflexivity.
  - vm_compute. discriminate.
  - vm_compute. discriminate.
  - reflexivity.
Defined.

(** ** The alpha channel *)

(** Two images of the same rectangle and stride whose pixels have the same
    three colour channels (their alpha channels may differ, and so may the
    bytes of [Pix] that belong to no pixel). *)
Definition sameColours (a b : image.RGBA) : Prop :=
  image.Stride a = image.Stride b /\
  image.Rect a = image.Rect b /\
  forall x y k,
    0 <= x < image.Dx (image.Rect a) -> 0 <= y < image.Dy (image.Rect a) ->
    0 <= k <= 2 ->
    byteAt (image.Pix a) (pixOffset a x y + k)
    = byteAt (image.Pix b) (pixOffset b x y + k).

Lemma walkCalls_ext {S : Type} (ctx : Context) (cmp cmp' : Z -> Z -> flow)
    (mk : Z -> Z -> Z -> Match) (f : Match -> S -> option error * S)
    (evs : list event) (s : S) :
  (forall x y, In (Window x y) evs -> cmp x y = cmp' x y) ->
  walkCalls ctx cmp mk f evs s = walkCalls ctx cmp' mk f evs s.
Proof.
  revert s. induction evs as [|[k|x y] evs IH]; intros s Hext; cbn.
  - reflexivity.
  - destruct (ctx k); [reflexivity|]. apply IH. intros; apply Hext; now right.
  - rewrite <- (Hext x y) by now left.
    assert (IH' : forall s', walkCalls ctx cmp mk f evs s'
                             = walkCalls ctx cmp' mk f evs s')
      by (intros s'; apply IH; intros; apply Hext; now right).
    destruct (cmp x y) as [diff| | |]; try reflexivity; [|apply IH'].
    destruct (f (mk x y diff) s) as [[e|] s']; [reflexivity | now rewrite IH'].
Qed.

Lemma flat_map_ext_within {A B : Type} (g h : A -> list B) (l : list A) :
  (forall a, In a l -> g a = h a) -> flat_map g l = flat_map h l.
Proof.
  induction l as [|a l IH]; cbn; intros H; [reflexivity|].
  rewrite (H a) by now left. f_equal. apply IH. intros; apply H; now right.
Qed.

Lemma sameColours_windowDiffs (canvas canvas' sample sample' : image.RGBA) (x y : Z) :
  sameColours canvas canvas' -> sameColours sample sample' ->
  0 < image.Dx (image.Rect sample) <= image.Dx (image.Rect canvas) ->
  0 < image.Dy (image.Rect sample) <= image.Dy (image.Rect canvas) ->
  0 <= y <= image.Dy (image.Rect canvas) - image.Dy (image.Rect sample) ->
  0 <= x <= image.Dx (image.Rect canvas) - image.Dx (image.Rect sample) ->
  windowDiffs canvas sample x y = windowDiffs canvas' sample' x y.
Proof.
  intros (Sc & Rc & Bc) (Ss & Rs & Bs) Hx Hy Hy' Hx'.
  unfold windowDiffs. rewrite <- Rs.
  apply flat_map_ext_within. intros r Hr. apply in_seq in Hr.
  apply map_ext_in. intros c Hc. apply in_seq in Hc.
  unfold pixelDiff, offsetDiff.
  pose proof (Bc (x + Z.of_nat c) (y + Z.of_nat r)) as Ec.
  pose proof (Bs (Z.of_nat c) (Z.of_nat r)) as Es.
  rewrite <- (Z.add_0_r (pixOffset canvas (x + Z.of_nat c) (y + Z.of_nat r))) at 1.
  rewrite <- (Z.add_0_r (pixOffset sample (Z.of_nat c) (Z.of_nat r))) at 1.
  rewrite <- (Z.add_0_r (pixOffset canvas' (x + Z.of_nat c) (y + Z.of_nat r))) at 1.
  rewrite <- (Z.add_0_r (pixOffset sample' (Z.of_nat c) (Z.of_nat r))) at 1.
  rewrite !Ec, !Es by lia. reflexivity.
Qed.

(** X16: the alpha channel is ignored, and so is every byte of [Pix] that
    belongs to no pixel: two canvases, and two samples, that have the same
    rectangle, the same stride and the same three colour channels in every
    pixel give the same matches, with the same similarities (all four
    images being laid out as the [image] package lays them out). *)
Theorem alpha_channel_ignored (ctx : Context)
    (canvas canvas' sample sample' : image.RGBA) (tolerance : Q) :
  ValidRGBA canvas -> ValidRGBA canvas' -> ValidRGBA sample -> ValidRGBA sample' ->
  sameColours canvas canvas' -> sameColours sample sample' ->
  emitted ctx canvas sample tolerance = emitted ctx canvas' sample' tolerance.
Proof.
  intros Vc Vc' Vs Vs' Hc Hs.
  pose proof Hc as (Sc & Rc & _). pose proof Hs as (Ss & Rs & _).
  assert (Efit : fits canvas' sample' = fits canvas sample)
    by (unfold fits; now rewrite Rc, Rs).
  assert (Ew : scanWidth canvas' sample' = scanWidth canvas sample)
    by (unfold scanWidth; now rewrite Rc, Rs).
  assert (Eh : scanHeight canvas' sample' = scanHeight canvas sample)
    by (unfold scanHeight; now rewrite Rc, Rs).
  assert (EM : maxTotalDiff canvas' sample' = maxTotalDiff canvas sample)
    by (unfold maxTotalDiff; now rewrite Ew, Eh).
  assert (Eevs : scanEvents canvas' sample' = scanEvents canvas sample)
    by (unfold scanEvents; now rewrite Efit, Ew, Eh).
  assert (Emk : matchAt canvas' sample' = matchAt canvas sample).
  { unfold matchAt. now rewrite EM, Rc, Rs. }
  unfold emitted. rewrite !calls_walk, Eevs, Emk.
  f_equal. f_equal.
  apply walkCalls_ext. intros x y Hin.
  apply in_scanEvents in Hin. destruct Hin as (Hfit & Hy & Hx).
  rewrite (compareAt_evaluated canvas sample tolerance x y) by assumption.
  rewrite (compareAt_evaluated canvas' sample' tolerance x y)
    by (try assumption; congruence).
  destruct (ValidRGBA_inversion _ _ Vc Vs Hfit) as (Dx & Dy & _ & _).
  rewrite scanHeight_spec in Hy by assumption.
  rewrite scanWidth_spec in Hx by assumption.
  rewrite <- (sameColours_windowDiffs canvas canvas' sample sample' x y)
    by (try assumption; lia).
  unfold totalDiffThreshold. rewrite EM. reflexivity.
Qed.

(** A black pixel that is half transparent. *)
Definition translucentBlack : list byte := [x00; x00; x00; x80]%byte.

Lemma alpha_channel_ignored_witness :
  emitted background (twoPixels white black) (onePixel black) (1 # 4)
  = emitted background (twoPixels white translucentBlack) (onePixel translucentBlack)
      (1 # 4).
Proof.
  apply (alpha_channel_ignored background (twoPixels white black)
           (twoPixels white translucentBlack) (onePixel black)
           (onePixel translucentBlack) (1 # 4)).
  - unfold ValidRGBA, WellFormed, Int64.in_range. vm_compute. intuition discriminate.
  - unfold ValidRGBA, WellFormed, Int64.in_range. vm_compute. intuition discriminate.
  - unfold ValidRGBA, WellFormed, Int64.in_range. vm_compute. intuition discriminate.
  - unfold ValidRGBA, WellFormed, Int64.in_range. vm_compute. intuition discriminate.
  - split; [reflexivity|]. split; [reflexivity|].
    intros x y k Hx Hy Hk.
    change (image.Dx (image.Rect (twoPixels white black))) with 2 in Hx.
    change (image.Dy (image.Rect (twoPixels white black))) with 1 in Hy.
    assert (Ey : y = 0) by lia. subst y.
    assert (Ex : x = 0 \/ x = 1) by lia.
    assert (Ek : k = 0 \/ k = 1 \/ k = 2) by lia.
    destruct Ex as [-> | ->]; destruct Ek as [-> | [-> | ->]]; reflexivity.
  - split; [reflexivity|]. split; [reflexivity|].
    intros x y k Hx Hy Hk.
    change (image.Dx (image.Rect (onePixel black))) with 1 in Hx.
    change (image.Dy (image.Rect (onePixel black))) with 1 in Hy.
    assert (Ey : y = 0) by lia. subst y.
    assert (Ex : x = 0) by lia. subst x.
    assert (Ek : k = 0 \/ k = 1 \/ k = 2) by lia.
    destruct Ek as [-> | [-> | ->]]; reflexivity.
Defined.

(** ** The number of matches *)

Lemma walkCalls_length {S : Type} (ctx : Context) (cmp : Z -> Z -> flow)
    (mk : Z -> Z -> Z -> Match) (f : Match -> S -> option error * S)
    (evs : list event) (s : S) :
  (length (walkCalls ctx cmp mk f evs s) <= length (windows evs))%nat.
Proof.
  revert s. induction evs as [|[k|x y] evs IH]; intros s; cbn.
  - lia.
  - destruct (ctx k); [cbn; lia | apply IH].
  - destruct (cmp x y) as [diff| | |]; cbn; try lia.
    + destruct (f (mk x y diff) s) as [[e|] s']; cbn; [lia|].
      specialize (IH s'). lia.
    + specialize (IH s). lia.
Qed.

Lemma columnEvents_windows_length (n : nat) (x y : Z) :
  length (windows (columnEvents n x y)) = n.
Proof.
  revert x. induction n as [|n IH]; intros x; cbn; [reflexivity | now rewrite IH].
Qed.

Lemma rowEvents_windows_length (width n : nat) (y : Z) :
  length (windows (rowEvents width n y)) = (n * width)%nat.
Proof.
  revert y. induction n as [|n IH]; intros y; cbn; [reflexivity|].
  rewrite windows_app, length_app, columnEvents_windows_length, IH. lia.
Qed.

(** X17: the callback is called at most once per window origin: whatever
    the callback does, the number of its calls, and so the number of matches
    of [All] and the [count] of [Find], is at most the number of rows of
    origins times the number of origins in a row. *)
Theorem calls_at_most_windows {S : Type} (ctx : Context)
    (canvas sample : image.RGBA) (tolerance : Q)
    (f : Match -> S -> option error * S) (s : S) :
  (length (calls ctx canvas sample tolerance f s)
   <= Z.to_nat (scanHeight canvas sample) * Z.to_nat (scanWidth canvas sample))%nat /\
  (length (emitted ctx canvas sample tolerance)
   <= Z.to_nat (scanHeight canvas sample) * Z.to_nat (scanWidth canvas sample))%nat.
Proof.
  assert (H : forall (T : Type) (g : Match -> T -> option error * T) (t : T),
            (length (calls ctx canvas sample tolerance g t)
             <= Z.to_nat (scanHeight canvas sample)
                * Z.to_nat (scanWidth canvas sample))%nat).
  { intros T g t. rewrite calls_walk, length_map.
    eapply Nat.le_trans; [apply walkCalls_length|].
    unfold scanEvents. destruct (fits canvas sample).
    - now rewrite rowEvents_windows_length.
    - cbn. lia. }
  split; [apply H|]. unfold emitted. rewrite length_map. apply H.
Qed.

